(** * Reed-Solomon erasure coding over GF(2^8)

    A shallow embedding of [internal/reedsolomon/reedsolomon.go] and the
    properties of its coder: encoding, verification, reconstruction and the
    Split/Join helpers.

    Conventions of the embedding.
    - A Go [byte] is a [Byte.byte]; field addition is XOR.
    - A Go [[]byte] that is only read or overwritten in place is the list of
      its [len] bytes.  Where the code looks at [cap] or at [nil] (Split,
      SplitMulti, Join, reconstruct) a slice is a [slice]: its bytes, the
      bytes of its backing array past [len], and whether it is [nil].  Every
      slice owns its backing array: the shards handed to the coder do not
      overlap in memory.
    - Shard counts are at most 256 and lengths are lengths of slices in
      memory, so [int] arithmetic on them is written without wrap-around.
    - A function that returns an [error] returns a [result]; state that the Go
      code mutates in place (the shard array, the inversion tree) is returned
      as the new state.  [Panic] is a run-time panic, [Diverge] a loop that
      never ends. *)

From Stdlib Require Import List NArith ZArith Lia Bool Ring.
From Stdlib Require Import Strings.Byte.
From stdpp Require Import base list gmap strings.

(** ** Bytes *)

#[global] Instance byte_eq_dec : EqDecision byte := Byte.byte_eq_dec.
#[global] Instance byte_inhabited : Inhabited byte := populate x00.

(** The conversion [byte(n)] of Go: the low eight bits. *)
Definition byte_of_N (n : N) : byte :=
  match Byte.of_N (n mod 256) with Some b => b | None => x00 end.

Definition byte_of_nat (n : nat) : byte := byte_of_N (N.of_nat n).

Definition all_bytes : list byte :=
  Eval vm_compute in map byte_of_nat (seq 0 256).

(** ** Errors and results *)

Inductive error : Type :=
  | ErrInvShardNum
  | ErrMaxShardNum
  | ErrTooFewShards
  | ErrInvalidInput
  | ErrShardNoData
  | ErrShardSize
  | ErrShortData
  | ErrReconstructRequired
  | errSingular
  | errShape
  | errRejected
  | errorsNew (msg : string).

#[global] Instance error_eq_dec : EqDecision error.
Proof. solve_decision. Defined.

Inductive result (A : Type) : Type :=
  | Ok (a : A)
  | Err (e : error)
  | Panic
  | Diverge.

Arguments Ok {A} a.
Arguments Err {A} e.
Arguments Panic {A}.
Arguments Diverge {A}.

#[global] Instance result_ret : MRet result := @Ok.
#[global] Instance result_bind : MBind result := λ A B f x,
  match x with
  | Ok a => f a
  | Err e => Err e
  | Panic => Panic
  | Diverge => Diverge
  end.

(** ** GF(2^8) arithmetic *)

(** Modelled from the spec: galois.go is not among the sources.  Section 4.1
    asks for [galAdd(a,b) = a XOR b], a multiplication [galMul] of GF(2^8),
    [galExp] with [galExp(a,0) = 1], and [invTable], and sections 3 and the
    glossary give the reduction polynomial as 0x11d.  Multiplication is
    written here as shift-and-add with reduction by 0x11d; any table-driven
    implementation of the same field computes the same function. *)
Definition galAdd (a b : byte) : byte :=
  byte_of_N (N.lxor (Byte.to_N a) (Byte.to_N b)).

(** Multiplication by the polynomial [x]: one shift and a conditional
    reduction by 0x11d. *)
Definition galDouble (a : byte) : byte :=
  let d := N.shiftl (Byte.to_N a) 1 in
  byte_of_N (if N.testbit d 8 then N.lxor d 0x11d else d).

Fixpoint galMulBits (bits : list bool) (b : byte) : byte :=
  match bits with
  | [] => x00
  | h :: t => galAdd (if h then b else x00) (galMulBits t (galDouble b))
  end.

(** The bits of a byte, least significant first. *)
Definition bits_of (a : byte) : list bool :=
  let '(a0, (a1, (a2, (a3, (a4, (a5, (a6, a7))))))) := Byte.to_bits a in
  [a0; a1; a2; a3; a4; a5; a6; a7].

Definition galMul (a b : byte) : byte := galMulBits (bits_of a) b.

Fixpoint galExp (a : byte) (n : nat) : byte :=
  match n with
  | O => x01
  | S n' => galMul a (galExp a n')
  end.

(** [invTable[x]] is the multiplicative inverse of [x] for [x ≠ 0]; entry 0
    is 0. *)
Definition invTable : list byte :=
  Eval vm_compute in map (λ a, galExp a 254) all_bytes.

Definition invTableAt (x : byte) : byte := invTable !!! Byte.to_nat x.

(** Modelled from the spec: the slice kernels of galois.go (section 4.5),
    over byte slices of identical length [L]:
    [out[i] = c · in[i]] and [out[i] ^= c · in[i]]. *)
Definition galMulSlice (c : byte) (inp out : list byte) : list byte :=
  zip_with (λ i _, galMul c i) inp out.

Definition galMulSliceXor (c : byte) (inp out : list byte) : list byte :=
  zip_with (λ i o, galAdd o (galMul c i)) inp out.

(** ** Matrices *)

(** Modelled from the spec: matrix.go is not among the sources.  A matrix is
    a dense row-major array of bytes (section 3); the operations are those of
    section 4.2.  Operations other than [Invert] fail with a shape error
    only. *)
Abbreviation matrix := (list (list byte)).

Definition newMatrix (rows cols : nat) : result matrix :=
  if bool_decide (rows = 0 ∨ cols = 0) then Err errShape
  else Ok (replicate rows (replicate cols x00)).

Definition identityMatrix (size : nat) : result matrix :=
  m ← newMatrix size size;
  Ok (imap (λ i row, <[i := x01]> row) m).

(** [vandermonde(rows, cols)[i][j] = galExp(i, j)]. *)
Definition vandermonde (rows cols : nat) : result matrix :=
  m ← newMatrix rows cols;
  Ok (imap (λ r row, imap (λ c _, galExp (byte_of_nat r) c) row) m).

Definition IsSquare (m : matrix) : bool :=
  bool_decide (length m = length (m !!! 0)).

Definition SubMatrix (m : matrix) (rmin cmin rmax cmax : nat) : result matrix :=
  if bool_decide (rmin < rmax ≤ length m ∧ cmin < cmax ≤ length (m !!! 0)) then
    Ok (map (λ row, take (cmax - cmin) (drop cmin row))
            (take (rmax - rmin) (drop rmin m)))
  else Err errShape.

(** Sizes D×K · K×E → D×E; entry [r][c] is the XOR over [i] of
    [m[r][i] · right[i][c]]. *)
Definition Multiply (m right : matrix) : result matrix :=
  if bool_decide (length (m !!! 0) = length right) then
    Ok (map (λ row,
              map (λ c, foldl (λ value i,
                                 galAdd value (galMul (row !!! i) ((right !!! i) !!! c)))
                              x00 (seq 0 (length right)))
                  (seq 0 (length (right !!! 0))))
            m)
  else Err errShape.

(** Horizontal concatenation. *)
Definition Augment (m right : matrix) : result matrix :=
  if bool_decide (length m = length right) then Ok (zip_with app m right)
  else Err errShape.

Definition SwapRows (m : matrix) (r1 r2 : nat) : result matrix :=
  if bool_decide (r1 < length m ∧ r2 < length m) then
    Ok (<[r1 := m !!! r2]> (<[r2 := m !!! r1]> m))
  else Err errShape.

(** The first row below [c] with a non-zero entry in column [c]. *)
Definition findPivot (work : matrix) (c : nat) : option nat :=
  find (λ r, negb (bool_decide ((work !!! r) !!! c = x00)))
       (seq (S c) (length work - S c)).

Definition scaleRow (s : byte) (row : list byte) : list byte :=
  map (λ x, galMul x s) row.

(** [row ^= s · pivot], entry by entry. *)
Definition addScaledRow (s : byte) (pivot row : list byte) : list byte :=
  zip_with (λ x p, galAdd x (galMul s p)) row pivot.

(** One column of the elimination (section 4.2): bring a non-zero entry to
    the diagonal or report singular, scale the pivot row to make the
    diagonal entry 1, and clear the column in every other row. *)
Definition pivotStep (work : matrix) (c : nat) : result matrix :=
  work ← (if bool_decide ((work !!! c) !!! c = x00) then
            match findPivot work c with
            | Some r => SwapRows work c r
            | None => Err errSingular
            end
          else Ok work);
  let scale := invTableAt ((work !!! c) !!! c) in
  let pivot := scaleRow scale (work !!! c) in
  let work := <[c := pivot]> work in
  Ok (imap (λ r row,
              if bool_decide (r = c) then row
              else if bool_decide (row !!! c = x00) then row
              else addScaledRow (row !!! c) pivot row)
           work).

Definition gaussJordan (work : matrix) : result matrix :=
  foldl (λ acc c, w ← acc; pivotStep w c) (Ok work) (seq 0 (length work)).

(** Gauss-Jordan elimination on [[A | I]]; the right half of the result is
    the inverse. *)
Definition Invert (m : matrix) : result matrix :=
  if IsSquare m then
    let size := length m in
    ident ← identityMatrix size;
    work ← Augment m ident;
    work ← gaussJordan work;
    SubMatrix work 0 size size (size * 2)
  else Err errShape.

(** ** Inversion tree *)

(** Modelled from the spec: inversion_tree.go is not among the sources.
    Section 3 and 4.3: a cache from the list of invalid row indices to the
    inverse computed for it; the empty list maps to the identity held at the
    root; an insertion with more than P indices is rejected; a key, once
    inserted, never changes value. *)
Record inversionTree : Type := {
  root : matrix;
  nodes : gmap (list nat) matrix;
  maxDepth : nat
}.

Definition newInversionTree (dataShards parityShards : nat) : inversionTree :=
  {| root := match identityMatrix dataShards with Ok i => i | _ => [] end;
     nodes := ∅;
     maxDepth := parityShards |}.

Definition GetInvertedMatrix (t : inversionTree) (invalidIndices : list nat)
  : option matrix :=
  match invalidIndices with
  | [] => Some (root t)
  | _ => nodes t !! invalidIndices
  end.

Definition InsertInvertedMatrix (t : inversionTree) (invalidIndices : list nat)
    (m : matrix) (shards : nat) : result inversionTree :=
  if bool_decide (maxDepth t < length invalidIndices) then Err errRejected
  else match GetInvertedMatrix t invalidIndices with
       | Some _ => Ok t
       | None => Ok {| root := root t;
                       nodes := <[invalidIndices := m]> (nodes t);
                       maxDepth := maxDepth t |}
       end.

(** ** Integers *)

(** [int] has 64 bits.  The model computes with ints in [Z]; a sum or
    product of ints that exceeds [maxInt] wraps around in the program, and
    what is stated about such a computation assumes that it does not. *)
Definition maxInt : Z := 9223372036854775807.

(** ** Slices *)

(** A [[]byte] whose capacity or nil-ness the code inspects: [nilSlice] is
    [nil]; [mkSlice elems spare] has the bytes [elems], and [spare] is what
    its backing array holds between [len] and [cap].  A slice is a value
    here: that two slices may lie in one array, so that a write through one
    shows in the other, is not modelled. *)
Inductive slice : Type :=
  | nilSlice
  | mkSlice (elems spare : list byte).

#[global] Instance slice_inhabited : Inhabited slice := populate nilSlice.

Definition bytes (s : slice) : list byte :=
  match s with
  | nilSlice => []
  | mkSlice elems _ => elems
  end.

Definition backing (s : slice) : list byte :=
  match s with
  | nilSlice => []
  | mkSlice elems spare => elems ++ spare
  end.

Definition len (s : slice) : nat := length (bytes s).

Definition cap (s : slice) : nat := length (backing s).

Definition isNil (s : slice) : bool :=
  match s with
  | nilSlice => true
  | mkSlice _ _ => false
  end.

(** [make([]byte, n)]. *)
Definition make (n : nat) : slice := mkSlice (replicate n x00) [].

(** [s[:n]] (equally [s[0:n]]) for [n ≤ cap(s)]. *)
Definition resliceTo (s : slice) (n : nat) : slice :=
  match s with
  | nilSlice => nilSlice
  | mkSlice elems spare =>
      mkSlice (take n (elems ++ spare)) (drop n (elems ++ spare))
  end.

(** The slice [s] after its [len] bytes were overwritten by [elems]. *)
Definition setBytes (s : slice) (elems : list byte) : slice :=
  match s with
  | nilSlice => nilSlice
  | mkSlice _ spare => mkSlice elems spare
  end.

(** ** The coder *)

(** The options record is declared in options.go, which is not among the
    sources; its fields are those the coder reads. *)
Record options : Type := {
  maxGoroutines : Z;
  minSplitSize : Z;
  useAVX2 : bool;
  useSSSE3 : bool;
  useCauchy : bool;
  usePAR1Matrix : bool
}.

Record ReedSolomon : Type := {
  DataShards : nat;
  ParityShards : nat;
  Shards : nat;
  m : matrix;
  tree : inversionTree;
  parity : list (list byte);
  o : options
}.

Definition buildMatrix (dataShards totalShards : nat) : result matrix :=
  vm ← vandermonde totalShards dataShards;
  top ← SubMatrix vm 0 0 dataShards dataShards;
  topInv ← Invert top;
  Multiply vm topInv.

Definition buildMatrixPAR1 (dataShards totalShards : nat) : result matrix :=
  result ← newMatrix totalShards dataShards;
  Ok (imap (λ r row,
              if bool_decide (r < dataShards) then <[r := x01]> row
              else imap (λ c _, galExp (byte_of_nat (c + 1)) (r - dataShards)) row)
           result).

Definition buildMatrixCauchy (dataShards totalShards : nat) : result matrix :=
  result ← newMatrix totalShards dataShards;
  Ok (imap (λ r row,
              if bool_decide (r < dataShards) then <[r := x01]> row
              else imap (λ c _, invTableAt (byte_of_nat (Nat.lxor r c))) row)
           result).

(** [New(dataShards, parityShards, opts...)]: [opts] is the options record
    after the option functions were applied to the defaults.  The sum
    [dataShards + parityShards] is taken in [Z]: it is the program's as long
    as it does not exceed the largest int, [maxInt]. *)
Definition New (dataShards parityShards : Z) (opts : options) : result ReedSolomon :=
  if bool_decide (dataShards ≤ 0 ∨ parityShards ≤ 0)%Z then Err ErrInvShardNum
  else if bool_decide (dataShards + parityShards > 256)%Z then Err ErrMaxShardNum
  else
    let data := Z.to_nat dataShards in
    let par := Z.to_nat parityShards in
    let total := Z.to_nat (dataShards + parityShards) in
    mat ← (if useCauchy opts then buildMatrixCauchy data total
           else if usePAR1Matrix opts then buildMatrixPAR1 data total
           else buildMatrix data total);
    Ok {| DataShards := data;
          ParityShards := par;
          Shards := total;
          m := mat;
          tree := newInversionTree data par;
          parity := map (λ i, mat !!! (data + i)) (seq 0 par);
          o := opts |}.

(** The first non-zero size, or 0 if all shards are size 0. *)
Fixpoint shardSize (shards : list slice) : nat :=
  match shards with
  | [] => 0
  | shard :: rest => if bool_decide (len shard ≠ 0) then len shard else shardSize rest
  end.

Definition checkShards (shards : list slice) (nilok : bool) : option error :=
  let size := shardSize shards in
  if bool_decide (size = 0) then Some ErrShardNoData
  else if forallb (λ shard, bool_decide (len shard = size)
                            || (bool_decide (len shard = 0) && nilok)) shards
       then None
       else Some ErrShardSize.

(** [s[start:stop]] of a byte sequence, and the sequence after that window
    was overwritten. *)
Definition window (start stop : nat) (s : list byte) : list byte :=
  take (stop - start) (drop start s).

Definition setWindow (start stop : nat) (s seg : list byte) : list byte :=
  take start s ++ seg ++ drop stop s.

(** The loop that hands out byte segments to goroutines: [body start do]
    stands for one goroutine, run here when it is launched.  The goroutines
    of one call write disjoint byte ranges, so the order in which they run
    does not show in the result. *)
Fixpoint forSegments {A : Type} (fuel : nat) (start do byteCount : Z)
    (body : Z → Z → A → result A) (acc : A) : result A :=
  if bool_decide (start < byteCount)%Z then
    match fuel with
    | O => Diverge
    | S fuel' =>
        let do := if bool_decide (start + do > byteCount)%Z
                  then (byteCount - start)%Z else do in
        acc ← body start do acc;
        forSegments fuel' (start + do)%Z do byteCount body acc
    end
  else Ok acc.

(** The segment size: [byteCount / maxGoroutines], at least [minSplitSize],
    rounded up to a multiple of [mask + 1].  The sum [do + mask] is taken in
    [Z]: it is the program's as long as it does not exceed the largest int,
    see [segmentSizeFits]. *)
Definition splitSize (opts : options) (byteCount : nat) (mask : Z) : result Z :=
  if bool_decide (maxGoroutines opts = 0)%Z then Panic
  else
    let do := (Z.of_nat byteCount `quot` maxGoroutines opts)%Z in
    let do := if bool_decide (do < minSplitSize opts)%Z then minSplitSize opts else do in
    Ok (Z.land (do + mask) (Z.lnot mask)).

(** The body of one goroutine of [codeSomeShardsP]: inputs outer, outputs
    inner; column 0 overwrites, the others accumulate. *)
Definition codeSegment (r : ReedSolomon) (matrixRows inputs : list (list byte))
    (outputCount : nat) (start stop : nat) (outputs : list (list byte))
  : list (list byte) :=
  foldl (λ outputs c,
           let inp := window start stop (inputs !!! c) in
           foldl (λ outputs iRow,
                    let out := window start stop (outputs !!! iRow) in
                    let out := if bool_decide (c = 0)
                               then galMulSlice ((matrixRows !!! iRow) !!! c) inp out
                               else galMulSliceXor ((matrixRows !!! iRow) !!! c) inp out in
                    <[iRow := setWindow start stop (outputs !!! iRow) out]> outputs)
                 outputs (seq 0 outputCount))
        outputs (seq 0 (DataShards r)).

(** The sequential coding loop: as one goroutine of [codeSomeShardsP], on
    the whole shards. *)
Definition codeSomeShards (r : ReedSolomon) (matrixRows inputs outputs : list (list byte))
    (outputCount byteCount : nat) : list (list byte) :=
  foldl (λ outputs c,
           let inp := inputs !!! c in
           foldl (λ outputs iRow,
                    <[iRow := if bool_decide (c = 0)
                              then galMulSlice ((matrixRows !!! iRow) !!! c) inp
                                     (outputs !!! iRow)
                              else galMulSliceXor ((matrixRows !!! iRow) !!! c) inp
                                     (outputs !!! iRow)]> outputs)
                 outputs (seq 0 outputCount))
        outputs (seq 0 (DataShards r)).

Definition codeSomeShardsP (r : ReedSolomon) (matrixRows inputs outputs : list (list byte))
    (outputCount byteCount : nat) : result (list (list byte)) :=
  do ← splitSize (o r) byteCount 31;
  forSegments (S byteCount) 0 do (Z.of_nat byteCount)
    (λ start do outputs,
       if bool_decide (0 ≤ start ∧ 0 ≤ do)%Z then
         Ok (codeSegment r matrixRows inputs outputCount
               (Z.to_nat start) (Z.to_nat (start + do)) outputs)
       else Panic)
    outputs.

(** The shard array after its entries from [from] on were overwritten in
    place with [outs]. *)
Definition storeFrom (from : nat) (shards : list slice) (outs : list (list byte))
  : list slice :=
  take from shards ++ zip_with setBytes (drop from shards) outs.

Definition Encode (r : ReedSolomon) (shards : list slice) : result (list slice) :=
  if bool_decide (length shards ≠ Shards r) then Err ErrTooFewShards
  else match checkShards shards false with
       | Some err => Err err
       | None =>
           let output := drop (DataShards r) shards in
           outs ← codeSomeShardsP r (parity r)
                    (bytes <$> take (DataShards r) shards) (bytes <$> output)
                    (ParityShards r) (len (shards !!! 0));
           Ok (storeFrom (DataShards r) shards outs)
       end.

(** The comparison at the end of [checkSomeShards]: every computed row
    against the row to check. *)
Definition rowsEqual (outputs toCheck : list (list byte)) : bool :=
  forallb (λ '(i, calc), bool_decide (calc = toCheck !!! i)) (imap pair outputs).

Definition checkSomeShardsP (r : ReedSolomon) (matrixRows inputs toCheck : list (list byte))
    (outputCount byteCount : nat) : result bool :=
  do ← splitSize (o r) byteCount 15;
  forSegments (S byteCount) 0 do (Z.of_nat byteCount)
    (λ start do same,
       if bool_decide (0 ≤ start ∧ 0 ≤ do)%Z then
         let start := Z.to_nat start in
         let do := Z.to_nat do in
         let outputs := replicate (length toCheck) (replicate do x00) in
         if bool_decide (0 < DataShards r) && negb same then Ok same
         else
           let outputs :=
             foldl (λ outputs c,
                      let inp := window start (start + do) (inputs !!! c) in
                      foldl (λ outputs iRow,
                               <[iRow := galMulSliceXor ((matrixRows !!! iRow) !!! c) inp
                                           (outputs !!! iRow)]> outputs)
                            outputs (seq 0 outputCount))
                   outputs (seq 0 (DataShards r)) in
           if rowsEqual outputs (window start (start + do) <$> toCheck)
           then Ok same else Ok false
       else Panic)
    true.

Definition checkSomeShards (r : ReedSolomon) (matrixRows inputs toCheck : list (list byte))
    (outputCount byteCount : nat) : result bool :=
  if bool_decide (maxGoroutines (o r) > 1)%Z
     && bool_decide (Z.of_nat byteCount > minSplitSize (o r))%Z then
    checkSomeShardsP r matrixRows inputs toCheck outputCount byteCount
  else
    let outputs := replicate (length toCheck) (replicate byteCount x00) in
    let outputs :=
      foldl (λ outputs c,
               let inp := inputs !!! c in
               foldl (λ outputs iRow,
                        <[iRow := galMulSliceXor ((matrixRows !!! iRow) !!! c) inp
                                    (outputs !!! iRow)]> outputs)
                     outputs (seq 0 outputCount))
            outputs (seq 0 (DataShards r)) in
    Ok (rowsEqual outputs toCheck).

Definition Verify (r : ReedSolomon) (shards : list slice) : result bool :=
  if bool_decide (length shards ≠ Shards r) then Err ErrTooFewShards
  else match checkShards shards false with
       | Some err => Err err
       | None =>
           let toCheck := drop (DataShards r) shards in
           checkSomeShards r (parity r)
             (bytes <$> take (DataShards r) shards) (bytes <$> toCheck)
             (ParityShards r) (len (shards !!! 0))
       end.

(** The first loop of [reconstruct]: how many shards are present, and how
    many of the data shards. *)
Definition countPresent (r : ReedSolomon) (shards : list slice) : nat * nat :=
  foldl (λ '(numberPresent, dataPresent) i,
           if bool_decide (len (shards !!! i) ≠ 0) then
             (S numberPresent,
              if bool_decide (i < DataShards r) then S dataPresent else dataPresent)
           else (numberPresent, dataPresent))
        (0, 0) (seq 0 (Shards r)).

(** The scan for the first [DataShards] present rows: the shards found, their
    row indices, and the indices of the rows found missing on the way. *)
Fixpoint scanRows (dataShards : nat) (shards : list slice) (matrixRow : nat)
    (subShards : list (list byte)) (validIndices invalidIndices : list nat)
  : list (list byte) * list nat * list nat :=
  match shards with
  | [] => (subShards, validIndices, invalidIndices)
  | shard :: rest =>
      if bool_decide (length validIndices < dataShards) then
        if bool_decide (len shard ≠ 0) then
          scanRows dataShards rest (S matrixRow) (subShards ++ [bytes shard])
                   (validIndices ++ [matrixRow]) invalidIndices
        else
          scanRows dataShards rest (S matrixRow) subShards
                   validIndices (invalidIndices ++ [matrixRow])
      else (subShards, validIndices, invalidIndices)
  end.

(** The buffer of [shardSize] bytes given to a missing shard: its own
    memory when the capacity suffices, a new allocation otherwise. *)
Definition sizedBuffer (shardSize : nat) (shard : slice) : slice :=
  if bool_decide (shardSize ≤ cap shard) then resliceTo shard shardSize
  else make shardSize.

(** The loops that give every missing shard among [indices] a buffer of
    [shardSize] bytes and record it as an output.  [outputs[k]] is the very
    slice [shards[outIndices[k]]]. *)
Definition prepareOutputs (shardSize : nat) (indices : list nat) (shards : list slice)
  : list slice * list nat :=
  foldl (λ '(shards, outIndices) iShard,
           if bool_decide (len (shards !!! iShard) = 0) then
             (<[iShard := sizedBuffer shardSize (shards !!! iShard)]> shards,
              outIndices ++ [iShard])
           else (shards, outIndices))
        (shards, []) indices.

(** What the coding wrote through [outputs] is seen in [shards]. *)
Definition storeOutputs (shards : list slice) (outIndices : list nat)
    (outs : list (list byte)) : list slice :=
  foldl (λ shards '(iShard, out), <[iShard := setBytes (shards !!! iShard) out]> shards)
        shards (zip outIndices outs).

(** The coder after its inversion tree was updated in place. *)
Definition withTree (r : ReedSolomon) (t : inversionTree) : ReedSolomon :=
  {| DataShards := DataShards r; ParityShards := ParityShards r;
     Shards := Shards r; m := m r; tree := t;
     parity := parity r; o := o r |}.

(** The inverse for the rows found valid: from the tree, or computed from
    the sub-matrix of the valid rows and inserted into the tree. *)
Definition decodeMatrix (r : ReedSolomon) (validIndices invalidIndices : list nat)
  : result (inversionTree * matrix) :=
  match GetInvertedMatrix (tree r) invalidIndices with
  | Some cached => Ok (tree r, cached)
  | None =>
      let subMatrix :=
        map (λ validIndex,
               map (λ c, (m r !!! validIndex) !!! c) (seq 0 (DataShards r)))
            validIndices in
      dataDecodeMatrix ← Invert subMatrix;
      tree' ← InsertInvertedMatrix (tree r) invalidIndices dataDecodeMatrix (Shards r);
      Ok (tree', dataDecodeMatrix)
  end.

(** One stage of [reconstruct]: the missing shards among [indices] get
    their buffers and are computed from [inputs] with the matrix rows
    [rowOf]. *)
Definition recoverShards (r : ReedSolomon) (shardSize : nat) (indices : list nat)
    (rowOf : nat → list byte) (inputs : list slice → list (list byte))
    (shards : list slice) : result (list slice) :=
  let '(shards, outIndices) := prepareOutputs shardSize indices shards in
  outs ← codeSomeShardsP r (rowOf <$> outIndices) (inputs shards)
           ((λ iShard, bytes (shards !!! iShard)) <$> outIndices)
           (length outIndices) shardSize;
  Ok (storeOutputs shards outIndices outs).

Definition reconstruct (r : ReedSolomon) (shards : list slice) (dataOnly : bool)
  : result (ReedSolomon * list slice) :=
  if bool_decide (length shards ≠ Shards r) then Err ErrTooFewShards
  else match checkShards shards true with
  | Some err => Err err
  | None =>
    let shardSize := shardSize shards in
    let '(numberPresent, dataPresent) := countPresent r shards in
    if bool_decide (numberPresent = Shards r)
       || (dataOnly && bool_decide (dataPresent = DataShards r)) then Ok (r, shards)
    else if bool_decide (numberPresent < DataShards r) then Err ErrTooFewShards
    else
      let '(subShards, validIndices, invalidIndices) :=
        scanRows (DataShards r) shards 0 [] [] [] in
      '(tree', dataDecodeMatrix) ← decodeMatrix r validIndices invalidIndices;
      let r := withTree r tree' in
      shards ← recoverShards r shardSize (seq 0 (DataShards r))
                 (λ iShard, dataDecodeMatrix !!! iShard)
                 (λ _, subShards) shards;
      if dataOnly then Ok (r, shards)
      else
        shards ← recoverShards r shardSize
                   (seq (DataShards r) (Shards r - DataShards r))
                   (λ iShard, parity r !!! (iShard - DataShards r))
                   (λ shards, bytes <$> take (DataShards r) shards) shards;
        Ok (r, shards)
  end.

Definition Reconstruct (r : ReedSolomon) (shards : list slice)
  : result (ReedSolomon * list slice) :=
  reconstruct r shards false.

Definition ReconstructData (r : ReedSolomon) (shards : list slice)
  : result (ReedSolomon * list slice) :=
  reconstruct r shards true.

(** The loop of [Split] that cuts [data] into equal-length shards; every
    shard keeps the rest of the buffer as its capacity.  What [append]
    allocates beyond the padding is left to the runtime, and the shards lie
    in one array: the model ends the buffer with the padding and gives each
    shard its rest as a spare of its own, so it describes the lengths, the
    bytes and the nil-ness of the shards that [Split] returns. *)
Fixpoint splitShards (count perShard : nat) (data : list byte) : list slice :=
  match count with
  | O => []
  | S count' =>
      mkSlice (take perShard data) (drop perShard data)
        :: splitShards count' perShard (drop perShard data)
  end.

Definition Split (r : ReedSolomon) (data : slice) : result (list slice) :=
  if bool_decide (len data = 0) then Err ErrShortData
  else if bool_decide (DataShards r = 0) then Panic
  else
    let perShard := (len data + DataShards r - 1) / DataShards r in
    let data := if bool_decide (len data < cap data) then backing data else bytes data in
    let data := if bool_decide (length data < Shards r * perShard)
                then data ++ replicate (Shards r * perShard - length data) x00
                else data in
    Ok (splitShards (Shards r) perShard data).

(** [copy(dst[off:], src)] on the bytes of [dst]; [None] when [off] is past
    the end of [dst]. *)
Definition copyAt (dst : list byte) (off : nat) (src : list byte) : option (list byte) :=
  if bool_decide (off ≤ length dst) then
    let n := length src `min` (length dst - off) in
    Some (take off dst ++ take n src ++ drop (off + n) dst)
  else None.

(** The copy loops of [SplitMulti]: one round of the outer loop per unit of
    fuel, [buf] the unread part of the buffer. *)
Fixpoint splitMultiCopy (fuel : nat) (dataShards : nat) (subsize : Z)
    (buf : list byte) (off : Z) (shards : list slice) : result (list slice) :=
  if bool_decide (0 < length buf) then
    match fuel with
    | O => Diverge
    | S fuel' =>
        '(buf, shards) ←
          foldl (λ acc i,
                   '(buf, shards) ← acc;
                   match shards !! i with
                   | None => Panic
                   | Some shard =>
                       if bool_decide (subsize < 0 ∨ off < 0)%Z then Panic
                       else
                         let n := Z.to_nat subsize `min` length buf in
                         match copyAt (bytes shard) (Z.to_nat off) (take n buf) with
                         | None => Panic
                         | Some elems =>
                             Ok (drop n buf, <[i := setBytes shard elems]> shards)
                         end
                   end)
                (Ok (buf, shards)) (seq 0 dataShards);
        splitMultiCopy fuel' dataShards subsize buf (off + subsize)%Z shards
    end
  else Ok shards.

(** The loop of [SplitMulti] that extends the shards to their proper
    length. *)
Fixpoint extendShards (shardSize : Z) (shards : list slice) : result (list slice) :=
  match shards with
  | [] => Ok []
  | shard :: rest =>
      if bool_decide (Z.of_nat (cap shard) < shardSize)%Z then
        Err (errorsNew "each shard must have capacity of at least len(data)/m")
      else if bool_decide (shardSize < 0)%Z then Panic
      else
        rest ← extendShards shardSize rest;
        Ok (resliceTo shard (Z.to_nat shardSize) :: rest)
  end.

(** The products [DataShards * subsize] and [numChunks * subsize] are taken
    in [Z]: they are the program's as long as they do not exceed the
    largest int, [maxInt]. *)
Definition SplitMulti (r : ReedSolomon) (data : list byte) (shards : list slice)
    (subsize : Z) : result (list slice) :=
  let chunkSize := (Z.of_nat (DataShards r) * subsize)%Z in
  if bool_decide (chunkSize = 0)%Z then Panic
  else
    let numChunks := (Z.of_nat (length data) `quot` chunkSize)%Z in
    let numChunks := if bool_decide (Z.of_nat (length data) `rem` chunkSize ≠ 0)%Z
                     then (numChunks + 1)%Z else numChunks in
    let shardSize := (numChunks * subsize)%Z in
    shards ← extendShards shardSize shards;
    splitMultiCopy (S (length data)) (DataShards r) subsize data 0 shards.

(** [io.Writer]: a write returns the new state of the sink, the number of
    bytes written and an error, if any. *)
Class Writer (W : Type) : Type :=
  Write : W → list byte → W * Z * option error.

(** An in-memory sink that accepts every write, as [bytes.Buffer] does. *)
#[global] Instance bufferWriter : Writer (list byte) :=
  λ w p, (w ++ p, Z.of_nat (length p), None).

(** The first loop of [Join]: the size seen when the loop ends. *)
Fixpoint joinSize (shards : list slice) (size outSize : Z) : result Z :=
  match shards with
  | [] => Ok size
  | shard :: rest =>
      if isNil shard then Err ErrReconstructRequired
      else
        let size := (size + Z.of_nat (len shard))%Z in
        if bool_decide (size >= outSize)%Z then Ok size
        else joinSize rest size outSize
  end.

(** The second loop of [Join]: copy data to [dst]. *)
Fixpoint joinWrite {W : Type} `{Writer W} (dst : W) (shards : list slice) (write : Z)
  : result W :=
  match shards with
  | [] => Ok dst
  | shard :: rest =>
      if bool_decide (write < Z.of_nat (len shard))%Z then
        if bool_decide (write < 0)%Z then Panic
        else
          let '(dst, _, err) := Write dst (take (Z.to_nat write) (bytes shard)) in
          match err with
          | Some e => Err e
          | None => Ok dst
          end
      else
        let '(dst, n, err) := Write dst (bytes shard) in
        match err with
        | Some e => Err e
        | None => joinWrite dst rest (write - n)%Z
        end
  end.

Definition Join {W : Type} `{Writer W} (r : ReedSolomon) (dst : W) (shards : list slice)
    (outSize : Z) : result W :=
  if bool_decide (length shards < DataShards r) then Err ErrTooFewShards
  else
    let shards := take (DataShards r) shards in
    size ← joinSize shards 0 outSize;
    if bool_decide (size < outSize)%Z then Err ErrShortData
    else joinWrite dst shards outSize.

(** The first loop of [JoinMulti]: as in [Join], but a shard is missing
    when its length is zero. *)
Fixpoint joinMultiSize (shards : list slice) (size writeLen : Z) : result Z :=
  match shards with
  | [] => Ok size
  | shard :: rest =>
      if bool_decide (len shard = 0) then Err ErrReconstructRequired
      else
        let size := (size + Z.of_nat (len shard))%Z in
        if bool_decide (size >= writeLen)%Z then Ok size
        else joinMultiSize rest size writeLen
  end.

(** One round of the inner loop of [JoinMulti] on the sink, [skip] and
    [writeLen]: the piece [shard[off:][:subsize]], which may reach into the
    capacity of the shard, is skipped, or written after its first [skip]
    bytes, cut to [writeLen] bytes. *)
Definition joinMultiShard {W : Type} `{Writer W} (off subsize : Z) (shard : slice)
    (st : W * Z * Z) : result (W * Z * Z) :=
  let '(dst, skip, writeLen) := st in
  if bool_decide (off < 0 ∨ Z.of_nat (len shard) < off)%Z then Panic
  else if bool_decide (subsize < 0 ∨ Z.of_nat (cap shard) - off < subsize)%Z then Panic
  else
    let piece := take (Z.to_nat subsize) (drop (Z.to_nat off) (backing shard)) in
    if bool_decide (skip >= Z.of_nat (length piece))%Z then
      Ok (dst, (skip - Z.of_nat (length piece))%Z, writeLen)
    else
      let '(piece, skip) := if bool_decide (skip > 0)%Z
                            then (drop (Z.to_nat skip) piece, 0%Z)
                            else (piece, skip) in
      if bool_decide (writeLen < Z.of_nat (length piece))%Z
         && bool_decide (writeLen < 0)%Z then Panic
      else
        let piece := if bool_decide (writeLen < Z.of_nat (length piece))%Z
                     then take (Z.to_nat writeLen) piece else piece in
        let '(dst, n, err) := Write dst piece in
        match err with
        | Some e => Err e
        | None => Ok (dst, skip, (writeLen - n)%Z)
        end.

(** The copy loop of [JoinMulti]: one round of the outer loop per unit of
    fuel. *)
Fixpoint joinMultiLoop {W : Type} `{Writer W} (fuel : nat) (shards : list slice)
    (subsize off : Z) (st : W * Z * Z) : result W :=
  if bool_decide (st.2 > 0)%Z then
    match fuel with
    | O => Diverge
    | S fuel' =>
        st ← foldl (λ acc shard, st ← acc; joinMultiShard off subsize shard st)
                   (Ok st) shards;
        joinMultiLoop fuel' shards subsize (off + subsize)%Z st
    end
  else Ok st.1.1.

(** The outer loop makes at most [len(shards[0]) + 1] rounds in which [off]
    advances before [shards[0][off:]] panics; when [off] does not advance
    every piece is empty, a sink that keeps to the contract of [io.Writer]
    reports no byte written, and the loop does not end. *)
Definition JoinMulti {W : Type} `{Writer W} (r : ReedSolomon) (dst : W)
    (shards : list slice) (subsize skip writeLen : Z) : result W :=
  if bool_decide (length shards < DataShards r) then Err ErrTooFewShards
  else
    let shards := take (DataShards r) shards in
    size ← joinMultiSize shards 0 writeLen;
    if bool_decide (size < writeLen)%Z then Err ErrShortData
    else joinMultiLoop (len (shards !!! 0) + 2) shards subsize 0 (dst, skip, writeLen).

(** ** Notions used to state the properties *)

(** The XOR over [c] of [u[c] · v[c]]. *)
Fixpoint dot (u v : list byte) : byte :=
  match u, v with
  | a :: u', b :: v' => galAdd (galMul a b) (dot u' v')
  | _, _ => x00
  end.

(** The product of a matrix and a column vector. *)
Definition mulVec (A : matrix) (v : list byte) : list byte :=
  (λ row, dot row v) <$> A.

(** Byte [i] of every shard. *)
Definition column (i : nat) (shards : list (list byte)) : list byte :=
  (λ shard, shard !!! i) <$> shards.

Definition unitVec (n i : nat) : list byte := <[i := x01]> (replicate n x00).

(** The shard that the matrix row [row] produces from the input shards:
    byte [i] is the XOR over [c] of [row[c] · inputs[c][i]]. *)
Definition codedRow (row : list byte) (inputs : list (list byte)) (byteCount : nat)
  : list byte :=
  (λ i, dot row (column i inputs)) <$> seq 0 byteCount.

Definition codedRows (rows inputs : list (list byte)) (byteCount : nat)
  : list (list byte) :=
  (λ row, codedRow row inputs byteCount) <$> rows.

(** The options under which the segment loops are defined and end. *)
Definition validOptions (opts : options) : Prop :=
  (1 ≤ maxGoroutines opts)%Z ∧ (1 ≤ minSplitSize opts)%Z.

(** The ints that [codeSomeShardsP] computes for its segments do not
    overflow: the sum [do + 31] that rounds the segment size up does not
    exceed [maxInt], and neither does twice the byte count, which the sums
    [start + do] of a loop of more than one segment stay below. *)
Definition segmentSizeFits (opts : options) (byteCount : nat) : Prop :=
  let do := (Z.of_nat byteCount `quot` maxGoroutines opts)%Z in
  let do := if bool_decide (do < minSplitSize opts)%Z then minSplitSize opts else do in
  (do + 31 ≤ maxInt)%Z ∧ (2 * Z.of_nat byteCount ≤ maxInt)%Z.

(** All shards have the length [size]. *)
Definition uniform (size : nat) (shards : list slice) : Prop :=
  Forall (λ shard, len shard = size) shards.

(** The work matrix [[A | I]] of the elimination: [n] rows of [n + n]
    entries. *)
Definition workShape (n : nat) (W : matrix) : Prop :=
  length W = n ∧ ∀ i, i < n → length (W !!! i) = n + n.

(** The column vector [z] is orthogonal to every row of [W]. *)
Definition annihilates (W : matrix) (z : list byte) : Prop :=
  ∀ i, i < length W → dot (W !!! i) z = x00.

(** Row operations do not change which vectors annihilate the rows. *)
Definition sameAnnihilators (n : nat) (W W' : matrix) : Prop :=
  ∀ z, length z = n + n → annihilates W z ↔ annihilates W' z.

(** The first [c] columns of [W] are those of the identity. *)
Definition cleared (n c : nat) (W : matrix) : Prop :=
  ∀ i j, i < n → j < c → (W !!! i) !!! j = unitVec n i !!! j.

(** [A] is an [n]×[n] matrix. *)
Definition squareShape (n : nat) (A : matrix) : Prop :=
  length A = n ∧ ∀ i, i < n → length (A !!! i) = n.

(** [A x = 0] only for [x = 0]. *)
Definition nonsingular (n : nat) (A : matrix) : Prop :=
  ∀ x, length x = n → mulVec A x = replicate n x00 → x = replicate n x00.

(** A row of the Vandermonde matrix: the powers [x^0 .. x^(n-1)]. *)
Definition powers (x : byte) (n : nat) : list byte := galExp x <$> seq 0 n.

(** The polynomial with coefficients [a], lowest degree first, at [x]. *)
Fixpoint polyEval (a : list byte) (x : byte) : byte :=
  match a with
  | [] => x00
  | a0 :: a' => galAdd a0 (galMul x (polyEval a' x))
  end.

(** Division of the polynomial [a] by [X + r]: quotient and remainder. *)
Fixpoint divLinear (r : byte) (a : list byte) : list byte * byte :=
  match a with
  | [] => ([], x00)
  | a0 :: a' =>
      let '(q, rem) := divLinear r a' in
      (match a' with [] => [] | _ => rem :: q end, galAdd a0 (galMul r rem))
  end.

(** The rows [rows] of [M], cut to [cols] columns: the sub-matrix that
    [reconstruct] inverts. *)
Definition pickRows (M : matrix) (cols : nat) (rows : list nat) : matrix :=
  map (λ validIndex, map (λ c, (M !!! validIndex) !!! c) (seq 0 cols)) rows.

(** Every choice of [D] distinct rows of the [S]×[D] matrix [M] is
    invertible. *)
Definition anyRowsInvertible (D S : nat) (M : matrix) : Prop :=
  ∀ rows, NoDup rows → length rows = D → (∀ v, v ∈ rows → v < S) →
          nonsingular D (pickRows M D rows).

(** [M] is an [S]×[D] coding matrix with the identity on top. *)
Definition systematic (D S : nat) (M : matrix) : Prop :=
  length M = S ∧ (∀ r, r < S → length (M !!! r) = D)
  ∧ (∀ r, r < D → M !!! r = unitVec D r).

(** What one goroutine of [codeSomeShardsP] does to one output row for one
    input column [c]. *)
Definition codeColumn (matrixRows inputs : list (list byte)) (start stop : nat)
    (c iRow : nat) (row : list byte) : list byte :=
  let inp := window start stop (inputs !!! c) in
  let out := window start stop row in
  let out := if bool_decide (c = 0)
             then galMulSlice ((matrixRows !!! iRow) !!! c) inp out
             else galMulSliceXor ((matrixRows !!! iRow) !!! c) inp out in
  setWindow start stop row out.

(** The bytes [start..stop) of the output after the first [c] columns. *)
Definition partialRow (mrow : list byte) (inputs : list (list byte))
    (c start stop : nat) : list byte :=
  (λ j, dot (take c mrow) (take c (column j inputs))) <$> seq start (stop - start).

(** What [New] establishes about the coder it returns. *)
Definition wellFormed (r : ReedSolomon) : Prop :=
  0 < DataShards r ∧ 0 < ParityShards r
  ∧ Shards r = DataShards r + ParityShards r ∧ Shards r ≤ 256
  ∧ length (m r) = Shards r
  ∧ (∀ i, i < Shards r → length (m r !!! i) = DataShards r)
  ∧ parity r = drop (DataShards r) (m r).

(** The data shards, as the coding loops read them. *)
Definition dataOf (r : ReedSolomon) (shards : list slice) : list (list byte) :=
  bytes <$> take (DataShards r) shards.

(** Concrete coders and shards on which the theorems are exercised. *)
Definition exampleOptions : options :=
  {| maxGoroutines := 384; minSplitSize := 1024;
     useAVX2 := false; useSSSE3 := false;
     useCauchy := false; usePAR1Matrix := false |}.

Definition exampleCoder : ReedSolomon :=
  Eval vm_compute in
    match New 2 1 exampleOptions with
    | Ok r => r
    | _ => {| DataShards := 0; ParityShards := 0; Shards := 0; m := [];
              tree := newInversionTree 0 0; parity := []; o := exampleOptions |}
    end.

Definition exampleShards : list slice :=
  [mkSlice [x01; x02] []; mkSlice [x03; x04] []; mkSlice [x00; x00] []].

Definition exampleEncoded : list slice :=
  Eval vm_compute in
    match Encode exampleCoder exampleShards with
    | Ok shards => shards
    | _ => []
    end.

(** The coder states that arise from [r0] by calls of [reconstruct]: the
    calls fill the inversion tree and change nothing else. *)
Inductive reachable (r0 : ReedSolomon) : ReedSolomon → Prop :=
  | reachable_new : reachable r0 r0
  | reachable_reconstruct r shards dataOnly r' shards' :
      reachable r0 r →
      reconstruct r shards dataOnly = Ok (r', shards') →
      reachable r0 r'.

(** The shards that are present. *)
Definition present (shards : list slice) : list slice :=
  filter (λ shard, len shard ≠ 0) shards.

(** Every shard is empty or has the length [size]. *)
Definition emptyOr (size : nat) (shards : list slice) : Prop :=
  Forall (λ shard, len shard = 0 ∨ len shard = size) shards.

(** The rows that the scan of [reconstruct] takes as valid when it records
    [invalidIndices]: the first [dataShards] row indices not among them. *)
Definition validFor (dataShards : nat) (invalidIndices : list nat) : list nat :=
  filter (λ i, i ∉ invalidIndices) (seq 0 (dataShards + length invalidIndices)).

(** Every inverse in the tree is the one [reconstruct] computes for its
    key. *)
Definition treeOk (r : ReedSolomon) : Prop :=
  ∀ invalidIndices cached,
    nodes (tree r) !! invalidIndices = Some cached →
    Invert (pickRows (m r) (DataShards r) (validFor (DataShards r) invalidIndices))
    = Ok cached.

(** The indices below [n] of the shards that are present, and of those
    that are missing. *)
Definition presentIndices (shards : list slice) (n : nat) : list nat :=
  filter (λ i, len (shards !!! i) ≠ 0) (seq 0 n).

Definition missingIndices (shards : list slice) (n : nat) : list nat :=
  filter (λ i, len (shards !!! i) = 0) (seq 0 n).

Definition exampleLost : list slice :=
  Eval vm_compute in <[0 := nilSlice]> exampleEncoded.

Definition exampleDataRecovered : ReedSolomon * list slice :=
  Eval vm_compute in
    match ReconstructData exampleCoder exampleLost with
    | Ok p => p
    | _ => (exampleCoder, [])
    end.

(** [lost] is [shards] with the shards at the indices in [E] replaced by
    empty shards: nil, or of length zero with any capacity. *)
Definition erased (E : list nat) (shards lost : list slice) : Prop :=
  length lost = length shards
  ∧ ∀ i, i < length shards →
      if decide (i ∈ E) then len (lost !!! i) = 0 else lost !!! i = shards !!! i.

(** The total number of bytes in [shards]. *)
Definition totalLen (shards : list slice) : Z :=
  Z.of_nat (sum_list (len <$> shards)).

(** The number of chunks of [dataShards · subsize] bytes that [dataLen]
    bytes fill, the last one possibly in part, and the capacity
    [⌈dataLen / (dataShards · subsize)⌉ · subsize] that a shard needs to hold
    its part of them. *)
Definition chunkCount (dataShards : nat) (subsize : Z) (dataLen : nat) : Z :=
  let chunkSize := (Z.of_nat dataShards * subsize)%Z in
  ((Z.of_nat dataLen + chunkSize - 1) `div` chunkSize)%Z.

Definition neededCapacity (dataShards : nat) (subsize : Z) (dataLen : nat) : Z :=
  (chunkCount dataShards subsize dataLen * subsize)%Z.

(** Stripe [q] of a shard: its bytes [q · subsize, (q + 1) · subsize). *)
Definition stripe (subsize q : nat) (l : list byte) : list byte :=
  take subsize (drop (q * subsize) l).

(** The stripes of the first [dataShards] shards in the order in which
    SplitMulti fills and JoinMulti reads them: [rounds] rounds, in each round
    one stripe of every shard. *)
Definition interleave (dataShards subsize rounds : nat) (shards : list (list byte))
  : list byte :=
  concat ((λ q, concat ((λ i, stripe subsize q (shards !!! i)) <$> seq 0 dataShards))
          <$> seq 0 rounds).

(** Stripe [q] of shard [i] after SplitMulti: the bytes of [data] that belong
    there, as far as [data] reaches, then what the shard [orig[i]] held. *)
Definition filled (dataShards subsize : nat) (data : list byte) (orig : list slice)
    (i q : nat) : list byte :=
  let d := stripe subsize (q * dataShards + i) data in
  d ++ drop (length d) (stripe subsize q (bytes (orig !!! i))).

(** The state of the shards in the copy loops of SplitMulti when the rounds
    before [k] are done and, in round [k], the shards before [i']: every
    shard has [rounds] stripes, the shards from [dataShards] on are
    untouched, and the stripes done are filled. *)
Definition splitInv (dataShards subsize rounds : nat) (data : list byte)
    (orig : list slice) (k i' : nat) (cur : list slice) : Prop :=
  length cur = length orig
  ∧ (∀ i, i < length orig → len (cur !!! i) = rounds * subsize)
  ∧ (∀ i, dataShards ≤ i → cur !!! i = orig !!! i)
  ∧ ∀ i q, i < dataShards → q < rounds →
      stripe subsize q (bytes (cur !!! i))
      = if decide (q < k ∨ (q = k ∧ i < i'))
        then filled dataShards subsize data orig i q
        else stripe subsize q (bytes (orig !!! i)).

(** * The field GF(2^8) *)

Lemma all_bytes_nth b : nth (Byte.to_nat b) all_bytes x00 = b.
Proof. destruct b; reflexivity. Qed.

Lemma all_bytes_In b : In b all_bytes.
Proof.
  rewrite <- (all_bytes_nth b). apply nth_In.
  pose proof (Byte.to_nat_bounded b). change (length all_bytes) with 256. lia.
Qed.

Lemma byte_forall (P : byte → bool) :
  forallb P all_bytes = true → ∀ b, P b = true.
Proof. intros H b. rewrite forallb_forall in H. apply H, all_bytes_In. Qed.

Lemma byte_forall2 (P : byte → byte → bool) :
  forallb (λ a, forallb (P a) all_bytes) all_bytes = true →
  ∀ a b, P a b = true.
Proof. intros H a b. apply (byte_forall (P a)), (byte_forall _ H a). Qed.

(** An equation between two bytes, checked on all 65536 pairs. *)
Ltac check_byte_pairs :=
  let a := fresh in
  let b := fresh in
  intros a b; apply Byte.byte_dec_bl; revert a b;
  apply byte_forall2; vm_compute; reflexivity.

Ltac check_bytes :=
  let a := fresh in
  intros a; apply Byte.byte_dec_bl; revert a;
  apply byte_forall; vm_compute; reflexivity.

Lemma to_N_inj a b : Byte.to_N a = Byte.to_N b → a = b.
Proof.
  intros H. pose proof (Byte.of_to_N a) as Ha.
  rewrite H, Byte.of_to_N in Ha. congruence.
Qed.

Lemma to_nat_inj a b : Byte.to_nat a = Byte.to_nat b → a = b.
Proof. intros H. apply to_N_inj. rewrite !Byte.to_N_via_nat. congruence. Qed.

Lemma to_nat_byte_of_nat n : n < 256 → Byte.to_nat (byte_of_nat n) = n.
Proof.
  intros Hn. unfold byte_of_nat, byte_of_N.
  rewrite N.mod_small by lia.
  destruct (Byte.of_N (N.of_nat n)) as [b|] eqn:E.
  - apply Byte.to_of_N in E. rewrite Byte.to_nat_via_N, E. lia.
  - apply Byte.of_N_None_iff in E. lia.
Qed.

Lemma byte_of_nat_inj i j : i < 256 → j < 256 → byte_of_nat i = byte_of_nat j → i = j.
Proof.
  intros Hi Hj H. rewrite <- (to_nat_byte_of_nat i), <- (to_nat_byte_of_nat j) by done.
  congruence.
Qed.

Lemma byte_of_nat_to_nat b : byte_of_nat (Byte.to_nat b) = b.
Proof.
  apply to_nat_inj, to_nat_byte_of_nat. pose proof (Byte.to_nat_bounded b). lia.
Qed.

Lemma to_N_galAdd : ∀ a b,
  Byte.to_N (galAdd a b) = N.lxor (Byte.to_N a) (Byte.to_N b).
Proof.
  intros a b. apply N.eqb_eq. revert a b.
  apply byte_forall2. vm_compute. reflexivity.
Qed.

Lemma galAdd_comm a b : galAdd a b = galAdd b a.
Proof. unfold galAdd. by rewrite N.lxor_comm. Qed.

Lemma galAdd_assoc a b c : galAdd a (galAdd b c) = galAdd (galAdd a b) c.
Proof. apply to_N_inj. rewrite !to_N_galAdd. by rewrite N.lxor_assoc. Qed.

Lemma galAdd_0_l : ∀ a, galAdd x00 a = a.
Proof. check_bytes. Qed.

Lemma galAdd_0_r a : galAdd a x00 = a.
Proof. by rewrite galAdd_comm, galAdd_0_l. Qed.

Lemma galAdd_diag a : galAdd a a = x00.
Proof. apply to_N_inj. rewrite to_N_galAdd, N.lxor_nilpotent. reflexivity. Qed.

Lemma galAdd_swap a b c d :
  galAdd (galAdd a b) (galAdd c d) = galAdd (galAdd a c) (galAdd b d).
Proof.
  rewrite <- !galAdd_assoc. f_equal. rewrite !galAdd_assoc. f_equal.
  apply galAdd_comm.
Qed.

Lemma galAdd_eq_0 a b : galAdd a b = x00 → a = b.
Proof.
  intros H. rewrite <- (galAdd_0_r a), <- (galAdd_diag b), galAdd_assoc, H.
  apply galAdd_0_l.
Qed.

Lemma galDouble_add : ∀ a b,
  galDouble (galAdd a b) = galAdd (galDouble a) (galDouble b).
Proof. check_byte_pairs. Qed.

Lemma galMul_comm : ∀ a b, galMul a b = galMul b a.
Proof. check_byte_pairs. Qed.

Lemma galDouble_mul : ∀ a b, galMul (galDouble a) b = galDouble (galMul a b).
Proof. check_byte_pairs. Qed.

Lemma galMulBits_add bits : ∀ b c,
  galMulBits bits (galAdd b c) = galAdd (galMulBits bits b) (galMulBits bits c).
Proof.
  induction bits as [|h t IH]; intros b c; simpl; [done|].
  rewrite galDouble_add, IH, galAdd_swap. f_equal.
  destruct h; [done|]. by rewrite galAdd_0_l.
Qed.

Lemma galMul_add_r a b c :
  galMul a (galAdd b c) = galAdd (galMul a b) (galMul a c).
Proof. apply galMulBits_add. Qed.

Lemma galMul_add_l a b c :
  galMul (galAdd a b) c = galAdd (galMul a c) (galMul b c).
Proof. rewrite !(galMul_comm _ c). apply galMul_add_r. Qed.

Lemma galMul_0_l a : galMul x00 a = x00.
Proof. unfold galMul. simpl. by rewrite !galAdd_0_l. Qed.

Lemma galMul_0_r a : galMul a x00 = x00.
Proof. by rewrite galMul_comm, galMul_0_l. Qed.

Lemma galMul_1_l a : galMul x01 a = a.
Proof. unfold galMul. simpl. by rewrite !galAdd_0_l, galAdd_0_r. Qed.

Lemma galMul_1_r a : galMul a x01 = a.
Proof. by rewrite galMul_comm, galMul_1_l. Qed.

Lemma galMulBits_mul bits : ∀ b c,
  galMul (galMulBits bits b) c = galMulBits bits (galMul b c).
Proof.
  induction bits as [|h t IH]; intros b c; simpl.
  - apply galMul_0_l.
  - rewrite galMul_add_l, IH, galDouble_mul. f_equal.
    destruct h; [done|]. apply galMul_0_l.
Qed.

Lemma galMul_assoc a b c : galMul a (galMul b c) = galMul (galMul a b) c.
Proof.
  change (galMul a b) with (galMulBits (bits_of a) b).
  by rewrite galMulBits_mul.
Qed.

Lemma gf_ring_theory :
  ring_theory x00 x01 galAdd galMul galAdd (λ a, a) eq.
Proof.
  constructor.
  - apply galAdd_0_l.
  - apply galAdd_comm.
  - apply galAdd_assoc.
  - apply galMul_1_l.
  - apply galMul_comm.
  - apply galMul_assoc.
  - apply galMul_add_l.
  - reflexivity.
  - apply galAdd_diag.
Qed.

Add Ring gf_ring : gf_ring_theory.

(** [invTable] holds the inverses. *)
Lemma galMul_invTableAt : ∀ a, a ≠ x00 → galMul a (invTableAt a) = x01.
Proof.
  intros a Ha.
  assert (H : (bool_decide (a = x00) || bool_decide (galMul a (invTableAt a) = x01)) = true).
  { revert a Ha. intros a _. revert a. apply byte_forall. vm_compute. reflexivity. }
  apply orb_true_iff in H as [H|H]; apply bool_decide_eq_true in H; done.
Qed.

Lemma invTableAt_nonzero a : a ≠ x00 → invTableAt a ≠ x00.
Proof.
  intros Ha H. pose proof (galMul_invTableAt a Ha) as E.
  rewrite H, galMul_0_r in E. discriminate.
Qed.

(** No zero divisors. *)
Lemma galMul_eq_0 a b : galMul a b = x00 → a = x00 ∨ b = x00.
Proof.
  intros H. destruct (decide (a = x00)) as [|Ha]; [by left|right].
  rewrite <- (galMul_1_l b), <- (galMul_invTableAt a Ha).
  rewrite (galMul_comm a), <- galMul_assoc, H. apply galMul_0_r.
Qed.

Lemma galMul_cancel_l a b : a ≠ x00 → galMul a b = x00 → b = x00.
Proof. intros Ha H. by destruct (galMul_eq_0 _ _ H). Qed.

(** * Vectors over GF(2^8) *)

Lemma dot_nil_r u : dot u [] = x00.
Proof. by destruct u. Qed.

Lemma dot_zeros_l n v : dot (replicate n x00) v = x00.
Proof.
  revert v. induction n as [|n IH]; intros [|b v]; simpl; try done.
  rewrite IH, galMul_0_l. done.
Qed.

Lemma dot_zeros_r u n : dot u (replicate n x00) = x00.
Proof.
  revert n. induction u as [|a u IH]; intros [|n]; simpl; try done.
  rewrite IH, galMul_0_r. done.
Qed.

Lemma dot_comm u : ∀ v, dot u v = dot v u.
Proof.
  induction u as [|a u IH]; intros [|b v]; simpl; try done.
  by rewrite IH, galMul_comm.
Qed.

Lemma dot_app u1 : ∀ v1 u2 v2, length u1 = length v1 →
  dot (u1 ++ u2) (v1 ++ v2) = galAdd (dot u1 v1) (dot u2 v2).
Proof.
  induction u1 as [|a u1 IH]; intros [|b v1] u2 v2 Hlen; simplify_eq/=.
  - by rewrite galAdd_0_l.
  - rewrite IH by done. ring.
Qed.

Lemma dot_scaleRow s u : ∀ z, dot (scaleRow s u) z = galMul s (dot u z).
Proof.
  induction u as [|a u IH]; intros [|b z]; simpl; try by rewrite galMul_0_r.
  rewrite IH. ring.
Qed.

Lemma dot_addScaledRow s p : ∀ u z, length u = length p →
  dot (addScaledRow s p u) z = galAdd (dot u z) (galMul s (dot p z)).
Proof.
  unfold addScaledRow.
  induction p as [|c p IH]; intros [|a u] [|b z] Hlen; simplify_eq/=;
    try by rewrite galMul_0_r, galAdd_0_l.
  rewrite IH by done. ring.
Qed.

Lemma dot_cons_insert a u i v : ∀ b z,
  dot (<[S i := v]> (a :: u)) (b :: z) = galAdd (galMul a b) (dot (<[i := v]> u) z).
Proof. done. Qed.

Lemma dot_unitVec n i : ∀ z, i < n → length z = n → dot (unitVec n i) z = z !!! i.
Proof.
  unfold unitVec. revert i. induction n as [|n IH]; intros i z Hi Hz; [lia|].
  destruct z as [|b z]; simplify_eq/=.
  destruct i as [|i]; simpl.
  - rewrite dot_zeros_l. ring.
  - rewrite IH by lia. rewrite galMul_0_l, galAdd_0_l. done.
Qed.

Lemma dot_unitVec_ge n i z : n ≤ i → dot (unitVec n i) z = x00.
Proof.
  intros Hi. unfold unitVec. rewrite list_insert_ge by (rewrite length_replicate; lia).
  apply dot_zeros_l.
Qed.

Lemma length_unitVec n i : length (unitVec n i) = n.
Proof. unfold unitVec. by rewrite length_insert, length_replicate. Qed.

Lemma lookup_unitVec n i j : j < n →
  unitVec n i !!! j = if decide (i = j) then x01 else x00.
Proof.
  intros Hj. unfold unitVec. apply list_lookup_total_correct.
  destruct (decide (i = j)) as [->|Hne].
  - rewrite list_lookup_insert_eq; [done|]. by rewrite length_replicate.
  - rewrite list_lookup_insert_ne by done. by apply lookup_replicate_2.
Qed.

Lemma length_mulVec A v : length (mulVec A v) = length A.
Proof. unfold mulVec. by rewrite length_fmap. Qed.

Lemma lookup_mulVec A v i : i < length A → mulVec A v !!! i = dot (A !!! i) v.
Proof.
  intros Hi. unfold mulVec. apply list_lookup_total_correct.
  rewrite list_lookup_fmap.
  destruct (lookup_lt_is_Some_2 A i Hi) as [row Hrow].
  rewrite Hrow. simpl. by rewrite (list_lookup_total_correct _ _ _ Hrow).
Qed.

Lemma dot_add_r u : ∀ v w, length v = length w →
  dot u (zip_with galAdd v w) = galAdd (dot u v) (dot u w).
Proof.
  induction u as [|a u IH]; intros [|b v] [|c w] Hlen; simplify_eq/=;
    try by rewrite galAdd_0_l.
  rewrite IH by done. ring.
Qed.

Lemma dot_scale_r s u : ∀ v, dot u (map (galMul s) v) = galMul s (dot u v).
Proof.
  induction u as [|a u IH]; intros [|b v]; simpl; try by rewrite galMul_0_r.
  rewrite IH. ring.
Qed.

(** * Total lookups *)

Lemma lookup_total_imap {A B} `{!Inhabited A, !Inhabited B} (f : nat → A → B)
    (l : list A) i :
  i < length l → imap f l !!! i = f i (l !!! i).
Proof.
  intros Hi. apply list_lookup_total_correct. rewrite list_lookup_imap.
  destruct (lookup_lt_is_Some_2 l i Hi) as [x Hx].
  by rewrite Hx, (list_lookup_total_correct _ _ _ Hx).
Qed.

Lemma lookup_total_fmap_lt {A B} `{!Inhabited A, !Inhabited B} (f : A → B)
    (l : list A) i :
  i < length l → (f <$> l) !!! i = f (l !!! i).
Proof.
  intros Hi. apply list_lookup_total_correct. rewrite list_lookup_fmap.
  destruct (lookup_lt_is_Some_2 l i Hi) as [x Hx].
  by rewrite Hx, (list_lookup_total_correct _ _ _ Hx).
Qed.

Lemma lookup_total_zip_with {A B C} `{!Inhabited A, !Inhabited B, !Inhabited C}
    (f : A → B → C) (l : list A) (k : list B) i :
  i < length l → i < length k → zip_with f l k !!! i = f (l !!! i) (k !!! i).
Proof.
  intros Hl Hk. apply list_lookup_total_correct. rewrite lookup_zip_with.
  destruct (lookup_lt_is_Some_2 l i Hl) as [x Hx].
  destruct (lookup_lt_is_Some_2 k i Hk) as [y Hy].
  rewrite Hx, Hy. simpl.
  by rewrite (list_lookup_total_correct _ _ _ Hx), (list_lookup_total_correct _ _ _ Hy).
Qed.

Lemma lookup_total_replicate {A} `{!Inhabited A} (x : A) n i :
  i < n → replicate n x !!! i = x.
Proof. intros Hi. apply list_lookup_total_correct. by apply lookup_replicate_2. Qed.

Lemma lookup_total_seq j n i : i < n → seq j n !!! i = j + i.
Proof. intros Hi. apply list_lookup_total_correct. by apply lookup_seq_lt. Qed.

Lemma list_eq_total {A} `{!Inhabited A} (l k : list A) :
  length l = length k → (∀ i, i < length l → l !!! i = k !!! i) → l = k.
Proof.
  intros Hlen H. apply list_eq. intros i.
  destruct (decide (i < length l)) as [Hi|Hi].
  - destruct (lookup_lt_is_Some_2 l i Hi) as [x Hx].
    destruct (lookup_lt_is_Some_2 k i ltac:(lia)) as [y Hy].
    rewrite Hx, Hy. f_equal.
    rewrite <- (list_lookup_total_correct _ _ _ Hx), <- (list_lookup_total_correct _ _ _ Hy).
    by apply H.
  - rewrite !lookup_ge_None_2 by lia. done.
Qed.

(** * Gauss-Jordan elimination *)

Lemma length_scaleRow s row : length (scaleRow s row) = length row.
Proof. unfold scaleRow. by rewrite length_map. Qed.

Lemma length_addScaledRow s p row :
  length p = length row → length (addScaledRow s p row) = length row.
Proof. intros H. unfold addScaledRow. rewrite length_zip_with. lia. Qed.

Lemma lookup_scaleRow s row j :
  j < length row → scaleRow s row !!! j = galMul (row !!! j) s.
Proof. intros Hj. unfold scaleRow. by apply (lookup_total_fmap_lt (λ x, galMul x s)). Qed.

Lemma lookup_addScaledRow s p row j :
  j < length row → length p = length row →
  addScaledRow s p row !!! j = galAdd (row !!! j) (galMul s (p !!! j)).
Proof.
  intros Hj Hp. unfold addScaledRow.
  rewrite lookup_total_zip_with by lia. done.
Qed.

Lemma lookup_total_swap (W : matrix) c r i :
  c < length W → r < length W → i < length W →
  <[c := W !!! r]> (<[r := W !!! c]> W) !!! i =
    if decide (i = c) then W !!! r else if decide (i = r) then W !!! c else W !!! i.
Proof.
  intros Hc Hr Hi.
  destruct (decide (i = c)) as [->|Hic].
  - rewrite list_lookup_total_insert_eq; [done|]. by rewrite length_insert.
  - rewrite list_lookup_total_insert_ne by done.
    destruct (decide (i = r)) as [->|Hir].
    + by rewrite list_lookup_total_insert_eq.
    + by rewrite list_lookup_total_insert_ne.
Qed.

Lemma findPivot_Some W c r :
  findPivot W c = Some r → c < r < length W ∧ (W !!! r) !!! c ≠ x00.
Proof.
  unfold findPivot. intros H. apply find_some in H as [Hin Hnz].
  apply in_seq in Hin. split; [lia|].
  apply negb_true_iff, bool_decide_eq_false in Hnz. done.
Qed.

Lemma findPivot_None W c r :
  findPivot W c = None → c < r < length W → (W !!! r) !!! c = x00.
Proof.
  unfold findPivot. intros H Hr.
  assert (Hin : In r (seq (S c) (length W - S c))) by (apply in_seq; lia).
  apply (find_none _ _ H) in Hin.
  by apply negb_false_iff, bool_decide_eq_true in Hin.
Qed.

Lemma swap_step n W c r :
  workShape n W → cleared n c W → c < r < n →
  let W' := <[c := W !!! r]> (<[r := W !!! c]> W) in
  workShape n W' ∧ sameAnnihilators n W W' ∧ cleared n c W'
  ∧ (W' !!! c) !!! c = (W !!! r) !!! c.
Proof.
  intros [Hlen Hrows] Hcl Hr W'.
  assert (Hlook : ∀ i, i < n → W' !!! i =
            if decide (i = c) then W !!! r else if decide (i = r) then W !!! c else W !!! i).
  { intros i Hi. apply lookup_total_swap; lia. }
  assert (Hlen' : length W' = n) by (unfold W'; by rewrite !length_insert).
  repeat split.
  - done.
  - intros i Hi. rewrite Hlook by done. repeat case_decide; apply Hrows; lia.
  - intros Hann i Hi. rewrite Hlen' in Hi. rewrite Hlook by done.
    repeat case_decide; apply Hann; lia.
  - intros Hann i Hi. rewrite Hlen in Hi.
    destruct (decide (i = c)) as [->|Hic].
    + specialize (Hann r). rewrite Hlook in Hann by lia.
      rewrite decide_False, decide_True in Hann by lia. apply Hann. lia.
    + destruct (decide (i = r)) as [->|Hir].
      * specialize (Hann c). rewrite Hlook in Hann by lia.
        rewrite decide_True in Hann by lia. apply Hann. lia.
      * specialize (Hann i). rewrite Hlook in Hann by lia.
        rewrite !decide_False in Hann by lia. apply Hann. lia.
  - intros i j Hi Hj. rewrite Hlook by done.
    destruct (decide (i = c)) as [->|Hic].
    + rewrite Hcl by lia. rewrite !lookup_unitVec by lia.
      by rewrite !decide_False by lia.
    + destruct (decide (i = r)) as [->|Hir]; [|by apply Hcl].
      rewrite Hcl by lia. rewrite !lookup_unitVec by lia.
      by rewrite !decide_False by lia.
  - rewrite Hlook by lia. by rewrite decide_True.
Qed.

(** The row [i ≠ c] after the column [c] was cleared with the pivot row. *)
Lemma cleared_row_lookup s pivot row j :
  length pivot = length row → j < length row →
  (if bool_decide (s = x00) then row else addScaledRow s pivot row) !!! j
  = galAdd (row !!! j) (galMul s (pivot !!! j)).
Proof.
  intros Hlen Hj. case_bool_decide as Hs.
  - subst s. ring.
  - by apply lookup_addScaledRow.
Qed.

Lemma cleared_row_dot s pivot row z :
  length pivot = length row →
  dot (if bool_decide (s = x00) then row else addScaledRow s pivot row) z
  = galAdd (dot row z) (galMul s (dot pivot z)).
Proof.
  intros Hlen. case_bool_decide as Hs.
  - subst s. ring.
  - by apply dot_addScaledRow.
Qed.

Lemma cleared_row_length s pivot row :
  length pivot = length row →
  length (if bool_decide (s = x00) then row else addScaledRow s pivot row) = length row.
Proof. intros Hlen. case_bool_decide; [done|]. by apply length_addScaledRow. Qed.

Lemma clear_step n W c :
  workShape n W → cleared n c W → c < n → (W !!! c) !!! c ≠ x00 →
  let scale := invTableAt ((W !!! c) !!! c) in
  let pivot := scaleRow scale (W !!! c) in
  let W' := imap (λ r row,
                    if bool_decide (r = c) then row
                    else if bool_decide (row !!! c = x00) then row
                    else addScaledRow (row !!! c) pivot row)
                 (<[c := pivot]> W) in
  workShape n W' ∧ sameAnnihilators n W W' ∧ cleared n (S c) W'.
Proof.
  intros [Hlen Hrows] Hcl Hc Hnz scale pivot W'.
  assert (Hscale : scale ≠ x00) by by apply invTableAt_nonzero.
  assert (Hpl : length pivot = n + n).
  { unfold pivot. rewrite length_scaleRow. by apply Hrows. }
  assert (Hlook : ∀ i, i < n → W' !!! i =
            if decide (i = c) then pivot
            else if bool_decide ((W !!! i) !!! c = x00) then W !!! i
                 else addScaledRow ((W !!! i) !!! c) pivot (W !!! i)).
  { intros i Hi. unfold W'.
    rewrite lookup_total_imap by (rewrite length_insert; lia).
    destruct (decide (i = c)) as [->|Hic].
    - rewrite bool_decide_eq_true_2 by done.
      rewrite list_lookup_total_insert_eq by lia. done.
    - rewrite bool_decide_eq_false_2 by done.
      rewrite list_lookup_total_insert_ne by done. done. }
  assert (Hlen' : length W' = n).
  { unfold W'. by rewrite length_imap, length_insert. }
  assert (Hpc : pivot !!! c = x01).
  { unfold pivot. rewrite lookup_scaleRow by (rewrite Hrows; lia).
    by apply galMul_invTableAt. }
  assert (Hpj : ∀ j, j < c → pivot !!! j = x00).
  { intros j Hj. unfold pivot. rewrite lookup_scaleRow by (rewrite Hrows; lia).
    rewrite Hcl by lia. rewrite lookup_unitVec by lia.
    rewrite decide_False by lia. ring. }
  assert (Hpz : ∀ z, dot pivot z = galMul scale (dot (W !!! c) z)).
  { intros z. unfold pivot. apply dot_scaleRow. }
  repeat split.
  - done.
  - intros i Hi. rewrite Hlook by done. case_decide; [done|].
    rewrite cleared_row_length; rewrite ?Hrows; done.
  - intros Hann i Hi. rewrite Hlen' in Hi. rewrite Hlook by done.
    assert (Hp0 : dot pivot z = x00).
    { rewrite Hpz, Hann by lia. ring. }
    case_decide; [done|].
    rewrite cleared_row_dot by (rewrite Hrows; done).
    rewrite Hp0, Hann by lia. ring.
  - intros Hann i Hi. rewrite Hlen in Hi.
    assert (Hp0 : dot pivot z = x00).
    { specialize (Hann c). rewrite Hlook, decide_True in Hann by done.
      apply Hann. lia. }
    destruct (decide (i = c)) as [->|Hic].
    + rewrite Hpz in Hp0. by apply galMul_cancel_l in Hp0.
    + assert (Hi' : i < length W') by lia.
      specialize (Hann i Hi'). rewrite Hlook, decide_False in Hann by done.
      rewrite cleared_row_dot in Hann by (rewrite Hrows; done).
      by rewrite Hp0, galMul_0_r, galAdd_0_r in Hann.
  - intros i j Hi Hj. rewrite Hlook by done.
    destruct (decide (i = c)) as [->|Hic].
    + rewrite lookup_unitVec by lia.
      destruct (decide (c = j)) as [<-|Hcj]; [done|].
      apply Hpj. lia.
    + rewrite cleared_row_lookup by (rewrite Hrows; lia).
      rewrite lookup_unitVec by lia.
      destruct (decide (j = c)) as [->|Hjc].
      * rewrite Hpc, decide_False by done. by rewrite galMul_1_r, galAdd_diag.
      * rewrite Hpj by lia. rewrite Hcl by lia.
        rewrite lookup_unitVec by lia. ring.
Qed.

Lemma sameAnnihilators_refl n W : sameAnnihilators n W W.
Proof. by intros z Hz. Qed.

Lemma sameAnnihilators_trans n W1 W2 W3 :
  sameAnnihilators n W1 W2 → sameAnnihilators n W2 W3 → sameAnnihilators n W1 W3.
Proof. intros H12 H23 z Hz. rewrite (H12 z Hz). by apply H23. Qed.

(** One column of the elimination either keeps the invariant or stops at a
    column that is zero on and below the diagonal. *)
Lemma pivotStep_spec n W c :
  workShape n W → cleared n c W → c < n →
  (∃ W', pivotStep W c = Ok W' ∧ workShape n W'
         ∧ sameAnnihilators n W W' ∧ cleared n (S c) W')
  ∨ (pivotStep W c = Err errSingular ∧ ∀ i, c ≤ i < n → (W !!! i) !!! c = x00).
Proof.
  intros Hshape Hcl Hc. unfold pivotStep.
  pose proof Hshape as [Hlen Hrows].
  case_bool_decide as Hdiag.
  - destruct (findPivot W c) as [r|] eqn:Hfind.
    + apply findPivot_Some in Hfind as [Hr Hnz]. rewrite Hlen in Hr.
      unfold SwapRows. rewrite bool_decide_eq_true_2 by lia. simpl.
      destruct (swap_step n W c r Hshape Hcl Hr) as (Hs1 & Ha1 & Hc1 & Hd1).
      rewrite <- Hd1 in Hnz.
      destruct (clear_step n _ c Hs1 Hc1 Hc Hnz) as (Hs2 & Ha2 & Hc2).
      left. eexists. split; [done|]. split; [done|]. split; [|done].
      by eapply sameAnnihilators_trans.
    + right. split; [done|]. intros i Hi.
      destruct (decide (i = c)) as [->|Hic]; [done|].
      apply (findPivot_None W c i Hfind). lia.
  - simpl. destruct (clear_step n W c Hshape Hcl Hc Hdiag) as (Hs2 & Ha2 & Hc2).
    left. eexists. done.
Qed.

Lemma gauss_foldl_Err e l :
  foldl (λ acc c, w ← acc; pivotStep w c) (Err e) l = Err e.
Proof. induction l as [|c l IH]; simpl; done. Qed.

Lemma gauss_iter n k : ∀ W c,
  workShape n W → cleared n c W → c + k = n →
  (∃ W', foldl (λ acc c, w ← acc; pivotStep w c) (Ok W) (seq c k) = Ok W'
         ∧ workShape n W' ∧ sameAnnihilators n W W' ∧ cleared n n W')
  ∨ (foldl (λ acc c, w ← acc; pivotStep w c) (Ok W) (seq c k) = Err errSingular
     ∧ ∃ c' W1, c' < n ∧ workShape n W1 ∧ sameAnnihilators n W W1
                ∧ cleared n c' W1 ∧ ∀ i, c' ≤ i < n → (W1 !!! i) !!! c' = x00).
Proof.
  induction k as [|k IH]; intros W c Hshape Hcl Hck.
  - assert (c = n) as -> by lia. left. exists W. simpl.
    split; [done|]. split; [done|]. split; [apply sameAnnihilators_refl|done].
  - simpl. destruct (pivotStep_spec n W c Hshape Hcl ltac:(lia))
      as [(W' & -> & Hs & Ha & Hc')|[-> Hz]].
    + destruct (IH W' (S c) Hs Hc' ltac:(lia))
        as [(W'' & -> & Hs' & Ha' & Hc'')|[-> (c' & W1 & ? & ? & Ha' & ? & ?)]].
      * left. exists W''. split; [done|]. split; [done|].
        split; [by eapply sameAnnihilators_trans|done].
      * right. split; [done|]. exists c', W1.
        split; [done|]. split; [done|].
        split; [by eapply sameAnnihilators_trans|done].
    + right. split; [apply gauss_foldl_Err|]. exists c, W.
      split; [lia|]. split; [done|]. split; [apply sameAnnihilators_refl|done].
Qed.

Lemma take_unitVec n c i : c ≤ n → take c (unitVec n i) = unitVec c i.
Proof.
  intros Hc. apply list_eq_total.
  - rewrite length_take, !length_unitVec. lia.
  - intros j Hj. rewrite length_take, length_unitVec in Hj.
    rewrite lookup_total_take_lt by lia.
    rewrite !lookup_unitVec by lia. done.
Qed.

Lemma split_at {A} `{!Inhabited A} (l : list A) c :
  c < length l → l = take c l ++ l !!! c :: drop (S c) l.
Proof.
  intros Hc. destruct (lookup_lt_is_Some_2 l c Hc) as [x Hx].
  rewrite (list_lookup_total_correct _ _ _ Hx).
  by rewrite take_drop_middle.
Qed.

Lemma cleared_take n c W i :
  workShape n W → cleared n c W → c ≤ n → i < n →
  take c (W !!! i) = unitVec c i.
Proof.
  intros [Hlen Hrows] Hcl Hc Hi. rewrite <- (take_unitVec n) by done.
  apply list_eq_total.
  - rewrite !length_take, length_unitVec, Hrows by done. lia.
  - intros j Hj. rewrite length_take, Hrows in Hj by done.
    rewrite !lookup_total_take_lt by lia. apply Hcl; lia.
Qed.

(** A column that is zero on and below the diagonal gives a non-zero vector
    that every row of the work matrix annihilates. *)
Lemma singular_kernel n W c :
  workShape n W → cleared n c W → c < n →
  (∀ i, c ≤ i < n → (W !!! i) !!! c = x00) →
  ∃ x, length x = n ∧ x ≠ replicate n x00
       ∧ annihilates W (x ++ replicate n x00).
Proof.
  intros Hshape Hcl Hc Hzero. pose proof Hshape as [Hlen Hrows].
  set (col := take c (column c W)).
  assert (Hcol : length col = c).
  { unfold col, column. rewrite length_take, length_fmap. lia. }
  exists (col ++ x01 :: replicate (n - S c) x00).
  split; [|split].
  - rewrite length_app, Hcol. simpl. rewrite length_replicate. lia.
  - intros Heq. apply (f_equal (λ l, l !!! c)) in Heq.
    rewrite lookup_total_app_r in Heq by lia.
    rewrite Hcol, Nat.sub_diag, lookup_total_replicate in Heq by lia.
    discriminate.
  - intros i Hi. rewrite Hlen in Hi.
    rewrite (split_at (W !!! i) c) by (rewrite Hrows; lia).
    rewrite <- app_assoc. rewrite dot_app
      by (rewrite length_take, Hrows, Hcol by done; lia).
    simpl. rewrite <- replicate_add, dot_zeros_r.
    rewrite (cleared_take n c W i) by (done || lia).
    destruct (decide (i < c)) as [Hic|Hic].
    + rewrite dot_unitVec by done.
      unfold col. rewrite lookup_total_take_lt by done.
      unfold column. rewrite lookup_total_fmap_lt by lia.
      rewrite galMul_1_r, galAdd_0_r. apply galAdd_diag.
    + rewrite dot_unitVec_ge by lia. rewrite Hzero by lia. ring.
Qed.

(** * Matrix inversion *)

Lemma identityMatrix_ok n :
  0 < n →
  ∃ I, identityMatrix n = Ok I ∧ length I = n ∧ ∀ i, i < n → I !!! i = unitVec n i.
Proof.
  intros Hn. unfold identityMatrix, newMatrix.
  rewrite bool_decide_eq_false_2 by lia. simpl.
  eexists. split; [done|]. split.
  - by rewrite length_imap, length_replicate.
  - intros i Hi. rewrite lookup_total_imap by (rewrite length_replicate; lia).
    by rewrite lookup_total_replicate.
Qed.

Lemma mulVec_eq_total (A : matrix) v d :
  length d = length A → (∀ i, i < length A → dot (A !!! i) v = d !!! i) →
  mulVec A v = d.
Proof.
  intros Hlen H. apply list_eq_total.
  - by rewrite length_mulVec.
  - intros i Hi. rewrite length_mulVec in Hi. rewrite lookup_mulVec by done.
    by apply H.
Qed.

(** The outcome of [Invert] on an [n]×[n] matrix: a two-sided inverse, or
    the singular error and a non-zero vector of the kernel. *)
Lemma Invert_spec n A :
  0 < n → squareShape n A →
  (∃ B, Invert A = Ok B ∧ squareShape n B
        ∧ (∀ d, length d = n → mulVec B (mulVec A d) = d)
        ∧ (∀ d, length d = n → mulVec A (mulVec B d) = d))
  ∨ (Invert A = Err errSingular
     ∧ ∃ x, length x = n ∧ x ≠ replicate n x00 ∧ mulVec A x = replicate n x00).
Proof.
  intros Hn [HlenA HrowsA]. unfold Invert, IsSquare.
  rewrite bool_decide_eq_true_2 by (rewrite HrowsA; lia).
  destruct (identityMatrix_ok n Hn) as (I & HI & HlenI & HrowsI).
  rewrite HlenA, HI. simpl. unfold Augment.
  rewrite bool_decide_eq_true_2 by lia. simpl.
  set (W0 := zip_with app A I).
  assert (HlenW0 : length W0 = n) by (unfold W0; rewrite length_zip_with; lia).
  assert (HW0 : ∀ i, i < n → W0 !!! i = A !!! i ++ unitVec n i).
  { intros i Hi. unfold W0. rewrite lookup_total_zip_with by lia.
    by rewrite HrowsI. }
  assert (Hshape0 : workShape n W0).
  { split; [done|]. intros i Hi.
    rewrite HW0, length_app, HrowsA, length_unitVec by done. done. }
  assert (Hcl0 : cleared n 0 W0) by (intros i j _ Hj; lia).
  assert (Hann0 : ∀ x y, length x = n → length y = n →
            annihilates W0 (x ++ y) ↔ ∀ i, i < n → dot (A !!! i) x = y !!! i).
  { intros x y Hx Hy. unfold annihilates. rewrite HlenW0.
    split; intros H i Hi; specialize (H i Hi).
    - rewrite HW0, dot_app, dot_unitVec in H by (rewrite ?HrowsA; done).
      by apply galAdd_eq_0.
    - rewrite HW0, dot_app, dot_unitVec by (rewrite ?HrowsA; done).
      rewrite H. apply galAdd_diag. }
  unfold gaussJordan. rewrite HlenW0.
  destruct (gauss_iter n n W0 0 Hshape0 Hcl0 eq_refl)
    as [(W' & -> & Hshape' & Hsame & Hcl')
       |[-> (c & W1 & Hc & Hshape1 & Hsame & Hcl1 & Hzero)]]; simpl.
  - left. pose proof Hshape' as [HlenW' HrowsW'].
    unfold SubMatrix. rewrite bool_decide_eq_true_2
      by (rewrite HlenW', HrowsW' by done; lia).
    eexists. split; [done|].
    set (B := map _ _).
    assert (HlenB : length B = n).
    { unfold B. rewrite length_map, length_take, length_drop. lia. }
    assert (HB : ∀ i, i < n → W' !!! i = unitVec n i ++ B !!! i).
    { intros i Hi. unfold B.
      rewrite (lookup_total_fmap_lt (λ row, take (n * 2 - n) (drop n row)))
        by (rewrite length_take, length_drop; lia).
      rewrite Nat.sub_0_r, drop_0, lookup_total_take_lt by done.
      rewrite take_ge by (rewrite length_drop, HrowsW' by done; lia).
      rewrite <- (cleared_take n n W' i) by (done || lia).
      by rewrite take_drop. }
    assert (HrowsB : ∀ i, i < n → length (B !!! i) = n).
    { intros i Hi. pose proof (HrowsW' i Hi) as Hl.
      rewrite HB, length_app, length_unitVec in Hl by done. lia. }
    assert (Hann' : ∀ x y, length x = n → length y = n →
              annihilates W' (x ++ y) ↔ ∀ i, i < n → dot (B !!! i) y = x !!! i).
    { intros x y Hx Hy. unfold annihilates. rewrite HlenW'.
      split; intros H i Hi; specialize (H i Hi).
      - rewrite HB, dot_app, dot_unitVec in H by (rewrite ?length_unitVec; done).
        symmetry. by apply galAdd_eq_0.
      - rewrite HB, dot_app, dot_unitVec by (rewrite ?length_unitVec; done).
        rewrite H. apply galAdd_diag. }
    split; [done|]. split.
    + intros d Hd. apply mulVec_eq_total; [lia|]. rewrite HlenB.
      apply Hann'; [done|by rewrite length_mulVec|].
      apply Hsame; [rewrite length_app, length_mulVec; lia|].
      apply Hann0; [done|by rewrite length_mulVec|].
      intros i Hi. by rewrite lookup_mulVec by lia.
    + intros d Hd. apply mulVec_eq_total; [lia|]. rewrite HlenA.
      apply Hann0; [by rewrite length_mulVec|done|].
      apply Hsame; [rewrite length_app, length_mulVec; lia|].
      apply Hann'; [by rewrite length_mulVec|done|].
      intros i Hi. by rewrite lookup_mulVec by lia.
  - right. split; [done|].
    destruct (singular_kernel n W1 c Hshape1 Hcl1 Hc Hzero) as (x & Hx & Hnz & Hann).
    exists x. split; [done|]. split; [done|].
    apply mulVec_eq_total; [by rewrite length_replicate|].
    rewrite HlenA.
    apply Hann0; [done|by rewrite length_replicate|].
    apply Hsame; [rewrite length_app, length_replicate; lia|done].
Qed.

Lemma Invert_nonsingular n A :
  0 < n → squareShape n A → nonsingular n A →
  ∃ B, Invert A = Ok B ∧ squareShape n B
       ∧ (∀ d, length d = n → mulVec B (mulVec A d) = d)
       ∧ (∀ d, length d = n → mulVec A (mulVec B d) = d).
Proof.
  intros Hn Hsq Hns.
  destruct (Invert_spec n A Hn Hsq) as [?|[_ (x & Hx & Hnz & Hk)]]; [done|].
  destruct Hnz. by apply Hns.
Qed.

Lemma Invert_Ok n A B :
  0 < n → squareShape n A → Invert A = Ok B →
  squareShape n B
  ∧ (∀ d, length d = n → mulVec B (mulVec A d) = d)
  ∧ (∀ d, length d = n → mulVec A (mulVec B d) = d).
Proof.
  intros Hn Hsq HB.
  destruct (Invert_spec n A Hn Hsq) as [(B' & HB' & ?)|[HE _]]; [|congruence].
  rewrite HB in HB'. by simplify_eq.
Qed.

(** * Polynomials and the Vandermonde matrix *)

Lemma galAdd_cancel_r u v : galAdd (galAdd u v) v = u.
Proof. by rewrite <- galAdd_assoc, galAdd_diag, galAdd_0_r. Qed.

Lemma divLinear_length r a : length (divLinear r a).1 = length a - 1.
Proof.
  induction a as [|a0 a' IH]; [done|]. simpl.
  destruct (divLinear r a') as [q rem]. simpl in *.
  destruct a' as [|a1 a'']; simpl in *; lia.
Qed.

Lemma divLinear_eval r a x :
  polyEval a x
  = galAdd (galMul (galAdd x r) (polyEval (divLinear r a).1 x)) (divLinear r a).2.
Proof.
  induction a as [|a0 a' IH]; simpl.
  - ring.
  - destruct a' as [|a1 a''].
    + simpl. ring.
    + destruct (divLinear r (a1 :: a'')) as [q rem]. simpl in *. rewrite IH.
      rewrite <- (galAdd_cancel_r
        (galAdd a0 (galMul x (galAdd (galMul (galAdd x r) (polyEval q x)) rem)))
        (galMul r rem)).
      ring.
Qed.

Lemma divLinear_zero r a :
  (divLinear r a).1 = replicate (length (divLinear r a).1) x00 →
  (divLinear r a).2 = x00 →
  a = replicate (length a) x00.
Proof.
  induction a as [|a0 a' IH]; [done|]. simpl.
  destruct a' as [|a1 a''].
  - simpl. intros _ H. rewrite galMul_0_r, galAdd_0_r in H. by subst.
  - destruct (divLinear r (a1 :: a'')) as [q rem]. simpl in *.
    intros Hq Hrem. injection Hq as -> Hq.
    rewrite galMul_0_r, galAdd_0_r in Hrem. subst a0.
    f_equal. by apply IH.
Qed.

(** A polynomial with at least as many distinct roots as coefficients is
    zero. *)
Lemma roots_zero xs : ∀ a,
  NoDup xs → length a ≤ length xs →
  (∀ x, x ∈ xs → polyEval a x = x00) →
  a = replicate (length a) x00.
Proof.
  induction xs as [|r xs IH]; intros a Hnd Hlen Hroots.
  - destruct a; [done|simpl in Hlen; lia].
  - apply NoDup_cons in Hnd as [Hr Hnd].
    apply (divLinear_zero r).
    + apply IH; [done| |].
      * rewrite divLinear_length. simpl in Hlen. lia.
      * intros x Hx.
        assert (Hrem : (divLinear r a).2 = x00).
        { rewrite <- (Hroots r) by left.
          rewrite (divLinear_eval r a r), galAdd_diag. ring. }
        pose proof (Hroots x ltac:(by right)) as Hx0.
        rewrite (divLinear_eval r a x), Hrem, galAdd_0_r in Hx0.
        apply galMul_eq_0 in Hx0 as [Hxr|]; [|done].
        apply galAdd_eq_0 in Hxr. by subst.
    + rewrite <- (Hroots r) by left.
      rewrite (divLinear_eval r a r), galAdd_diag. ring.
Qed.

Lemma dot_scale_l s u : ∀ v, dot (galMul s <$> u) v = galMul s (dot u v).
Proof.
  induction u as [|a u IH]; intros [|b v]; simpl; try by rewrite galMul_0_r.
  rewrite IH. ring.
Qed.

Lemma powers_S x n : powers x (S n) = x01 :: (galMul x <$> powers x n).
Proof.
  unfold powers. simpl. f_equal.
  by rewrite <- fmap_S_seq, <- !list_fmap_compose.
Qed.

Lemma length_powers x n : length (powers x n) = n.
Proof. unfold powers. by rewrite length_fmap, length_seq. Qed.

Lemma dot_powers x : ∀ n a, length a = n → dot (powers x n) a = polyEval a x.
Proof.
  intros n a. revert n. induction a as [|a0 a' IH]; intros n Hn.
  - by rewrite dot_nil_r.
  - destruct n as [|n]; [done|]. rewrite powers_S. simpl.
    rewrite dot_scale_l, IH by (simpl in Hn; lia). ring.
Qed.

(** Rows of powers of distinct points have a trivial kernel. *)
Lemma powers_nonsingular (xs : list byte) n :
  NoDup xs → length xs = n → nonsingular n ((λ x, powers x n) <$> xs).
Proof.
  intros Hnd Hlen a Ha Hzero.
  rewrite <- Ha. apply (roots_zero xs); [done|lia|].
  intros x Hx. apply list_elem_of_lookup in Hx as [i Hi].
  rewrite <- (dot_powers x n) by done.
  apply (f_equal (λ l, l !! i)) in Hzero.
  unfold mulVec in Hzero. rewrite !list_lookup_fmap, Hi in Hzero. simpl in Hzero.
  rewrite lookup_replicate_2 in Hzero; [by simplify_eq|].
  apply lookup_lt_Some in Hi. lia.
Qed.

Lemma vandermonde_ok rows cols :
  0 < rows → 0 < cols →
  vandermonde rows cols = Ok ((λ r, powers (byte_of_nat r) cols) <$> seq 0 rows).
Proof.
  intros Hr Hc. unfold vandermonde, newMatrix.
  rewrite bool_decide_eq_false_2 by lia. simpl. f_equal.
  apply list_eq_total.
  - by rewrite length_imap, length_replicate, length_fmap, length_seq.
  - intros r Hlt. rewrite length_imap, length_replicate in Hlt.
    rewrite lookup_total_imap by (rewrite length_replicate; lia).
    rewrite lookup_total_fmap_lt by (rewrite length_seq; lia).
    rewrite lookup_total_replicate, lookup_total_seq by done. simpl.
    unfold powers. apply list_eq_total.
    + by rewrite length_imap, length_replicate, length_fmap, length_seq.
    + intros c Hc'. rewrite length_imap, length_replicate in Hc'.
      rewrite lookup_total_imap by (rewrite length_replicate; lia).
      rewrite lookup_total_fmap_lt by (rewrite length_seq; lia).
      by rewrite lookup_total_seq.
Qed.

(** The accumulation loop of [Multiply] computes a dot product. *)
Lemma multiply_entry (right : matrix) c : ∀ (row : list byte) acc,
  length row = length right →
  foldl (λ value i, galAdd value (galMul (row !!! i) ((right !!! i) !!! c)))
        acc (seq 0 (length right))
  = galAdd acc (dot row (column c right)).
Proof.
  induction right as [|b right IH]; intros [|a row] acc Hlen; simplify_eq/=.
  - by rewrite galAdd_0_r.
  - rewrite <- fmap_S_seq, foldl_fmap. simpl.
    rewrite IH by done. by rewrite galAdd_assoc.
Qed.

Lemma length_column c (X : list (list byte)) : length (column c X) = length X.
Proof. unfold column. by rewrite length_fmap. Qed.

Lemma lookup_column c (X : list (list byte)) i :
  i < length X → column c X !!! i = (X !!! i) !!! c.
Proof. intros Hi. unfold column. by rewrite lookup_total_fmap_lt. Qed.

Lemma dot_add_l u v : ∀ z, length u = length v →
  dot (zip_with galAdd u v) z = galAdd (dot u z) (dot v z).
Proof.
  intros z Hlen. rewrite dot_comm, dot_add_r by done.
  by rewrite !(dot_comm z).
Qed.

Lemma fmap_seq_zeros n : (λ _ : nat, x00) <$> seq 0 n = replicate n x00.
Proof.
  apply list_eq_total; [by rewrite length_replicate, length_fmap, length_seq|].
  intros i Hi. rewrite length_fmap, length_seq in Hi.
  rewrite lookup_total_replicate by done.
  by rewrite lookup_total_fmap_lt by (rewrite length_seq; lia).
Qed.

(** Exchange of the two sums in [(u · B) · x = u · (B x)]. *)
Lemma dot_columns (B : matrix) n : ∀ (u x : list byte),
  (∀ i, i < length B → length (B !!! i) = n) →
  dot ((λ c, dot u (column c B)) <$> seq 0 n) x = dot u (mulVec B x).
Proof.
  induction B as [|b B IH]; intros u x Hrows.
  - simpl. rewrite dot_nil_r.
    rewrite fmap_seq_zeros. apply dot_zeros_l.
  - destruct u as [|a u].
    + simpl. rewrite fmap_seq_zeros. apply dot_zeros_l.
    + assert (Hb : length b = n) by (apply (Hrows 0); simpl; lia).
      assert (E : (λ c : nat, dot (a :: u) (column c (b :: B))) <$> seq 0 n
                  = zip_with galAdd (galMul a <$> b)
                      ((λ c : nat, dot u (column c B)) <$> seq 0 n)).
      { apply list_eq_total.
        { rewrite length_zip_with, !length_fmap, length_seq. lia. }
        intros i Hi. rewrite length_fmap, length_seq in Hi.
        rewrite lookup_total_zip_with
          by (rewrite ?length_fmap, ?length_seq; lia).
        rewrite !lookup_total_fmap_lt by (rewrite ?length_seq; lia).
        rewrite lookup_total_seq by lia. simpl.
        done. }
      rewrite E.
      rewrite dot_add_l by (rewrite !length_fmap, length_seq; lia).
      rewrite dot_scale_l, IH; [done|].
      intros i Hi. apply (Hrows (S i)). simpl. lia.
Qed.

Lemma mulVec_unitVec (B : matrix) n c :
  c < n → (∀ i, i < length B → length (B !!! i) = n) →
  mulVec B (unitVec n c) = column c B.
Proof.
  intros Hc Hrows. apply mulVec_eq_total; [by rewrite length_column|].
  intros i Hi. rewrite dot_comm, dot_unitVec by (done || by apply Hrows).
  by rewrite lookup_column.
Qed.

Lemma mulVec_zeros (A : matrix) n :
  mulVec A (replicate n x00) = replicate (length A) x00.
Proof.
  apply mulVec_eq_total; [by rewrite length_replicate|].
  intros i Hi. by rewrite dot_zeros_r, lookup_total_replicate.
Qed.

(** * The default coding matrix *)

(** Stdlib's [map] and stdpp's [fmap] on lists are the same function. *)
Ltac map_to_fmap :=
  repeat match goal with
         | |- context [map ?f ?l] => change (map f l) with (f <$> l)
         end.

Lemma NoDup_byte_of_nat (l : list nat) :
  NoDup l → (∀ v, v ∈ l → v < 256) → NoDup (byte_of_nat <$> l).
Proof.
  intros Hnd Hlt. apply NoDup_fmap_2_strong; [|done].
  intros i j Hi Hj. apply byte_of_nat_inj; by apply Hlt.
Qed.

Lemma Multiply_rows (V B : matrix) D :
  0 < D → 0 < length V → (∀ r, r < length V → length (V !!! r) = D) →
  squareShape D B →
  Multiply V B = Ok ((λ row, (λ c, dot row (column c B)) <$> seq 0 D) <$> V).
Proof.
  intros HD HV Hrows [HlenB HrowsB]. unfold Multiply.
  rewrite bool_decide_eq_true_2 by (rewrite Hrows; lia).
  f_equal. map_to_fmap. rewrite HrowsB by done.
  apply list_eq_total; [by rewrite !length_fmap|].
  intros r Hr. rewrite length_fmap in Hr.
  rewrite !lookup_total_fmap_lt by done.
  apply list_fmap_ext. intros _ c _.
  rewrite multiply_entry by (rewrite Hrows; lia). apply galAdd_0_l.
Qed.

Lemma pickRows_row (M : matrix) D (rows : list nat) k :
  k < length rows → length (M !!! (rows !!! k)) = D →
  pickRows M D rows !!! k = M !!! (rows !!! k).
Proof.
  intros Hk Hlen. unfold pickRows. map_to_fmap.
  rewrite lookup_total_fmap_lt by done.
  apply list_eq_total; [by rewrite length_fmap, length_seq|].
  intros c Hc. rewrite length_fmap, length_seq in Hc.
  rewrite lookup_total_fmap_lt by (rewrite length_seq; lia).
  by rewrite lookup_total_seq.
Qed.

Lemma length_pickRows M D rows : length (pickRows M D rows) = length rows.
Proof. unfold pickRows. by rewrite length_map. Qed.

(** The Vandermonde-derived matrix is built without error, has the identity
    on top, and any [D] of its rows are invertible. *)
Lemma buildMatrix_spec D S :
  0 < D → D ≤ S → S ≤ 256 →
  ∃ M, buildMatrix D S = Ok M ∧ systematic D S M ∧ anyRowsInvertible D S M.
Proof.
  intros HD HDS HS. unfold buildMatrix.
  rewrite vandermonde_ok by lia. simpl.
  set (V := (λ r, powers (byte_of_nat r) D) <$> seq 0 S).
  assert (HlenV : length V = S) by (unfold V; by rewrite length_fmap, length_seq).
  assert (HV : ∀ r, r < S → V !!! r = powers (byte_of_nat r) D).
  { intros r Hr. unfold V.
    rewrite lookup_total_fmap_lt by (rewrite length_seq; lia).
    by rewrite lookup_total_seq. }
  unfold SubMatrix.
  rewrite bool_decide_eq_true_2 by (rewrite HV, length_powers by lia; lia).
  simpl.
  set (top := map _ _).
  assert (Htop : top = (λ x, powers x D) <$> (byte_of_nat <$> seq 0 D)).
  { unfold top. map_to_fmap. rewrite Nat.sub_0_r, drop_0.
    apply list_eq_total.
    { rewrite !length_fmap, length_take, length_seq. lia. }
    intros r Hr. rewrite length_fmap, length_take in Hr.
    rewrite !lookup_total_fmap_lt
      by (rewrite ?length_fmap, ?length_take, ?length_seq; lia).
    rewrite lookup_total_take_lt, HV, lookup_total_seq by lia.
    rewrite drop_0, take_ge by (rewrite length_powers; lia). done. }
  assert (HlenTop : length top = D) by (rewrite Htop, !length_fmap; apply length_seq).
  assert (HrowTop : ∀ r, r < D → top !!! r = V !!! r).
  { intros r Hr. rewrite Htop, HV by lia.
    rewrite !lookup_total_fmap_lt by (rewrite ?length_fmap, length_seq; lia).
    by rewrite lookup_total_seq. }
  assert (HsqTop : squareShape D top).
  { split; [done|]. intros r Hr. rewrite HrowTop, HV by lia. apply length_powers. }
  assert (HnsTop : nonsingular D top).
  { rewrite Htop. apply powers_nonsingular.
    - apply NoDup_byte_of_nat; [apply NoDup_seq|].
      intros v Hv. apply elem_of_seq in Hv. lia.
    - by rewrite length_fmap, length_seq. }
  destruct (Invert_nonsingular D top HD HsqTop HnsTop) as (B & -> & HsqB & HBA & HAB).
  simpl. pose proof HsqB as [HlenB HrowsB].
  rewrite (Multiply_rows V B D)
    by (done || lia || (intros r Hr; rewrite HV by lia; apply length_powers)).
  eexists. split; [done|].
  set (M := _ <$> V).
  assert (HM : ∀ r, r < S →
            M !!! r = (λ c, dot (V !!! r) (column c B)) <$> seq 0 D).
  { intros r Hr. unfold M. by rewrite lookup_total_fmap_lt by lia. }
  assert (HMlen : ∀ r, r < S → length (M !!! r) = D).
  { intros r Hr. by rewrite HM, length_fmap, length_seq. }
  split; [split; [|split]|].
  - unfold M. by rewrite length_fmap.
  - done.
  - intros r Hr. apply list_eq_total; [by rewrite HMlen, length_unitVec by lia|].
    intros c Hc. rewrite HMlen in Hc by lia.
    rewrite HM by lia.
    rewrite lookup_total_fmap_lt by (rewrite length_seq; lia).
    rewrite lookup_total_seq by done. simpl.
    rewrite <- HrowTop by done.
    rewrite <- (mulVec_unitVec B D) by (done || (rewrite HlenB; done)).
    rewrite <- lookup_mulVec by lia.
    rewrite HAB by apply length_unitVec.
    rewrite !lookup_unitVec by done.
    repeat case_decide; done || lia.
  - intros rows Hnd Hlen Hlt x Hx Hzero.
    assert (Hrow : ∀ k, k < D → rows !!! k < S).
    { intros k Hk. apply Hlt, list_elem_of_lookup_total_2. lia. }
    assert (HBx : mulVec B x = replicate D x00).
    { apply (powers_nonsingular (byte_of_nat <$> rows) D).
      - apply NoDup_byte_of_nat; [done|]. intros v Hv. apply Hlt in Hv. lia.
      - by rewrite length_fmap.
      - by rewrite length_mulVec.
      - apply mulVec_eq_total; [by rewrite length_replicate, !length_fmap|].
        intros k Hk. rewrite !length_fmap in Hk.
        rewrite !lookup_total_fmap_lt by (rewrite ?length_fmap; lia).
        rewrite lookup_total_replicate by lia.
        apply (f_equal (λ l, l !!! k)) in Hzero.
        rewrite lookup_mulVec in Hzero by (rewrite length_pickRows; lia).
        rewrite lookup_total_replicate in Hzero by lia.
        rewrite pickRows_row in Hzero by (try apply HMlen, Hrow; lia).
        rewrite HM in Hzero by (apply Hrow; lia).
        rewrite dot_columns in Hzero by (by rewrite HlenB).
        rewrite HV in Hzero by (apply Hrow; lia). done. }
    rewrite <- (HAB x Hx), HBx, mulVec_zeros. by rewrite HlenTop.
Qed.

(** * The coding matrices *)

Lemma log2_lt_8 a : a < 256 → Nat.log2 a < 8.
Proof.
  intros Ha. destruct (decide (a = 0)) as [->|Hnz]; [vm_compute; lia|].
  apply (proj1 (Nat.log2_lt_pow2 a 8 ltac:(lia))).
  change (2 ^ 8) with 256. lia.
Qed.

Lemma lxor_lt_256 a b : a < 256 → b < 256 → Nat.lxor a b < 256.
Proof.
  intros Ha Hb. destruct (decide (Nat.lxor a b = 0)) as [->|Hnz]; [lia|].
  change 256 with (2 ^ 8).
  apply (proj2 (Nat.log2_lt_pow2 (Nat.lxor a b) 8 ltac:(lia))).
  pose proof (Nat.log2_lxor a b) as Hl.
  pose proof (log2_lt_8 a Ha). pose proof (log2_lt_8 b Hb). lia.
Qed.

Lemma byte_of_nat_nonzero n : 0 < n < 256 → byte_of_nat n ≠ x00.
Proof.
  intros Hn H. apply (f_equal Byte.to_nat) in H.
  rewrite to_nat_byte_of_nat in H by lia. simpl in H. lia.
Qed.

(** The rows of an identity-topped matrix built over [newMatrix]. *)
Lemma topped_rows (D S : nat) (f : nat → nat → byte) r :
  r < S →
  imap (λ r row, if bool_decide (r < D) then <[r := x01]> row
                 else imap (λ c _, f r c) row)
       (replicate S (replicate D x00)) !!! r
  = if decide (r < D) then unitVec D r else f r <$> seq 0 D.
Proof.
  intros Hr. rewrite lookup_total_imap by (rewrite length_replicate; lia).
  rewrite lookup_total_replicate by done.
  case_bool_decide; case_decide; try lia; [done|].
  apply list_eq_total; [by rewrite length_imap, length_replicate, length_fmap, length_seq|].
  intros c Hc. rewrite length_imap, length_replicate in Hc.
  rewrite lookup_total_imap by (rewrite length_replicate; lia).
  rewrite lookup_total_fmap_lt by (rewrite length_seq; lia).
  by rewrite lookup_total_seq.
Qed.

Lemma take_identity (D : nat) (M : matrix) :
  0 < D → D ≤ length M → (∀ r, r < D → M !!! r = unitVec D r) →
  identityMatrix D = Ok (take D M).
Proof.
  intros HD HM Hrows.
  destruct (identityMatrix_ok D HD) as (I & -> & HlenI & HrowsI). f_equal.
  apply list_eq_total; [rewrite length_take; lia|].
  intros r Hr. rewrite HlenI in Hr.
  rewrite lookup_total_take_lt, HrowsI, Hrows by done. done.
Qed.

(** C5.  For every valid (D, P) the default coding matrix is built without
    error and its top D rows are the D×D identity matrix. *)
Theorem buildMatrix_top_identity (D P : nat) :
  1 ≤ D → 1 ≤ P → D + P ≤ 256 →
  ∃ M, buildMatrix D (D + P) = Ok M
       ∧ length M = D + P
       ∧ identityMatrix D = Ok (take D M).
Proof.
  intros HD HP HS.
  destruct (buildMatrix_spec D (D + P)) as (M & HM & (Hlen & Hrows & Htop) & _);
    [lia..|].
  exists M. split; [done|]. split; [done|].
  apply take_identity; [lia|lia|done].
Qed.

Lemma buildMatrix_top_identity_witness :
  ∃ M, buildMatrix 4 (4 + 2) = Ok M
       ∧ length M = 4 + 2
       ∧ identityMatrix 4 = Ok (take 4 M).
Proof. apply (buildMatrix_top_identity 4 2); lia. Defined.

(** C4, as the code has it.  For every valid (D, P) the Cauchy coding matrix
    has the identity in its top D rows, and its entry at row D+r, column c
    is [invTable[(D+r) XOR c]], the inverse in GF(2^8) of (D+r) XOR c: the
    XOR is taken with the row index of the whole matrix. *)
Theorem buildMatrixCauchy_entries (D P : nat) :
  1 ≤ D → 1 ≤ P → D + P ≤ 256 →
  ∃ M, buildMatrixCauchy D (D + P) = Ok M
       ∧ identityMatrix D = Ok (take D M)
       ∧ ∀ r c, r < P → c < D →
           (M !!! (D + r)) !!! c = invTableAt (byte_of_nat (Nat.lxor (D + r) c))
           ∧ galMul (byte_of_nat (Nat.lxor (D + r) c)) ((M !!! (D + r)) !!! c) = x01.
Proof.
  intros HD HP HS. unfold buildMatrixCauchy, newMatrix.
  rewrite bool_decide_eq_false_2 by lia. simpl.
  eexists. split; [done|]. split.
  - apply take_identity; [lia|by rewrite length_imap, length_replicate; lia|].
    intros r Hr. rewrite (topped_rows D (D + P)
      (λ r c, invTableAt (byte_of_nat (Nat.lxor r c)))) by lia.
    by rewrite decide_True.
  - intros r c Hr Hc.
    rewrite (topped_rows D (D + P)
      (λ r c, invTableAt (byte_of_nat (Nat.lxor r c)))) by lia.
    rewrite decide_False by lia.
    rewrite lookup_total_fmap_lt by (rewrite length_seq; lia).
    rewrite lookup_total_seq by done. simpl. split; [done|].
    apply galMul_invTableAt, byte_of_nat_nonzero.
    split; [|apply lxor_lt_256; lia].
    destruct (decide (Nat.lxor (D + r) c = 0)) as [E|]; [|lia].
    apply Nat.lxor_eq in E. lia.
Qed.

Lemma buildMatrixCauchy_entries_witness :
  ∃ M, buildMatrixCauchy 3 (3 + 2) = Ok M
       ∧ identityMatrix 3 = Ok (take 3 M)
       ∧ ∀ r c, r < 2 → c < 3 →
           (M !!! (3 + r)) !!! c = invTableAt (byte_of_nat (Nat.lxor (3 + r) c))
           ∧ galMul (byte_of_nat (Nat.lxor (3 + r) c)) ((M !!! (3 + r)) !!! c) = x01.
Proof. apply (buildMatrixCauchy_entries 3 2); lia. Defined.

(** C4, as the claim words it, fails: with D = 2 and P = 1 the entry at row
    D+0, column 1 is the inverse of 2 XOR 1 = 3, not of 0 XOR 1 = 1. *)
Lemma buildMatrixCauchy_relative_row_fails :
  ∃ M, buildMatrixCauchy 2 (2 + 1) = Ok M
       ∧ (M !!! (2 + 0)) !!! 1 = invTableAt (byte_of_nat (Nat.lxor (2 + 0) 1))
       ∧ (M !!! (2 + 0)) !!! 1 ≠ invTableAt (byte_of_nat (Nat.lxor 0 1))
       ∧ galMul (byte_of_nat (Nat.lxor 0 1)) ((M !!! (2 + 0)) !!! 1) ≠ x01.
Proof.
  eexists. split; [reflexivity|]. split; [reflexivity|].
  split; vm_compute; discriminate.
Qed.

(** * The coding loops *)

Lemma foldl_insert_rows {A} `{!Inhabited A} (f : nat → A → A) n : ∀ (l : list A),
  n ≤ length l →
  foldl (λ l i, <[i := f i (l !!! i)]> l) l (seq 0 n)
  = imap (λ i x, if decide (i < n) then f i x else x) l.
Proof.
  induction n as [|n IH]; intros l Hn.
  - simpl. apply list_eq_total; [by rewrite length_imap|].
    intros i Hi. by rewrite lookup_total_imap.
  - rewrite seq_S, foldl_app. simpl. rewrite IH by lia.
    apply list_eq_total; [by rewrite length_insert, !length_imap|].
    intros i Hi. rewrite length_insert, length_imap in Hi.
    rewrite (lookup_total_imap _ l i) by done.
    destruct (decide (i = n)) as [->|Hne].
    + rewrite list_lookup_total_insert_eq by (rewrite length_imap; lia).
      rewrite lookup_total_imap by done.
      rewrite decide_False, decide_True by lia. done.
    + rewrite list_lookup_total_insert_ne by done.
      rewrite lookup_total_imap by done.
      repeat case_decide; done || lia.
Qed.

Lemma imap_imap {A B C} (f : nat → B → C) (g : nat → A → B) (l : list A) :
  imap f (imap g l) = imap (λ i x, f i (g i x)) l.
Proof.
  apply list_eq. intros i. rewrite !list_lookup_imap.
  by destruct (l !! i).
Qed.

Lemma imap_ext_lt {A B} (f g : nat → A → B) (l : list A) :
  (∀ i, i < length l → ∀ x, f i x = g i x) → imap f l = imap g l.
Proof.
  intros H. apply imap_ext. intros i x Hx. apply H. by eapply lookup_lt_Some.
Qed.

(** Loops with columns outside and rows inside change every row on its
    own. *)
Lemma foldl_columns_rows {A B} `{!Inhabited A} (F : B → nat → A → A) n (cs : list B) :
  ∀ (l : list A), n ≤ length l →
  foldl (λ l c, foldl (λ l i, <[i := F c i (l !!! i)]> l) l (seq 0 n)) l cs
  = imap (λ i x, if decide (i < n) then foldl (λ x c, F c i x) x cs else x) l.
Proof.
  induction cs as [|c cs IH]; intros l Hn.
  - simpl. apply list_eq_total; [by rewrite length_imap|].
    intros i Hi. rewrite lookup_total_imap by done. by case_decide.
  - simpl. rewrite (foldl_insert_rows (F c) n l Hn).
    rewrite IH by (by rewrite length_imap).
    rewrite imap_imap. apply imap_ext_lt. intros i Hi row.
    by case_decide.
Qed.

(** A goroutine changes every output row on its own. *)
Lemma codeSegment_rows r matrixRows inputs n start stop outputs :
  n ≤ length outputs →
  codeSegment r matrixRows inputs n start stop outputs
  = imap (λ i row,
            if decide (i < n)
            then foldl (λ row c, codeColumn matrixRows inputs start stop c i row)
                       row (seq 0 (DataShards r))
            else row)
         outputs.
Proof.
  intros Hn.
  apply (foldl_columns_rows (codeColumn matrixRows inputs start stop) n
           (seq 0 (DataShards r)) outputs Hn).
Qed.

Lemma length_window start stop (s : list byte) :
  stop ≤ length s → length (window start stop s) = stop - start.
Proof. intros H. unfold window. rewrite length_take, length_drop. lia. Qed.

Lemma lookup_window start stop (s : list byte) j :
  j < stop - start → window start stop s !!! j = s !!! (start + j).
Proof.
  intros Hj. unfold window. rewrite lookup_total_take_lt by done.
  by rewrite lookup_total_drop.
Qed.

Lemma length_setWindow start stop (s seg : list byte) :
  start ≤ stop → stop ≤ length s → length seg = stop - start →
  length (setWindow start stop s seg) = length s.
Proof.
  intros H1 H2 H3. unfold setWindow.
  rewrite !length_app, length_take, length_drop. lia.
Qed.

Lemma window_setWindow start stop (s seg : list byte) :
  start ≤ stop → stop ≤ length s → length seg = stop - start →
  window start stop (setWindow start stop s seg) = seg.
Proof.
  intros H1 H2 H3. unfold window, setWindow.
  rewrite drop_app_length' by (rewrite length_take; lia).
  rewrite take_app_length' by done. done.
Qed.

Lemma setWindow_setWindow start stop (s seg seg' : list byte) :
  start ≤ stop → stop ≤ length s → length seg = stop - start →
  setWindow start stop (setWindow start stop s seg) seg'
  = setWindow start stop s seg'.
Proof.
  intros H1 H2 H3. unfold setWindow.
  rewrite take_app_length' by (rewrite length_take; lia).
  f_equal. f_equal.
  rewrite app_assoc, drop_app_length'; [done|].
  rewrite length_app, length_take. lia.
Qed.

Lemma dot_take_S (u v : list byte) c :
  c < length u → c < length v →
  dot (take (S c) u) (take (S c) v)
  = galAdd (dot (take c u) (take c v)) (galMul (u !!! c) (v !!! c)).
Proof.
  intros Hu Hv.
  destruct (lookup_lt_is_Some_2 u c Hu) as [a Ha].
  destruct (lookup_lt_is_Some_2 v c Hv) as [b Hb].
  rewrite (take_S_r u c a Ha), (take_S_r v c b Hb).
  rewrite dot_app by (rewrite !length_take; lia).
  rewrite (list_lookup_total_correct _ _ _ Ha), (list_lookup_total_correct _ _ _ Hb).
  simpl. by rewrite galAdd_0_r.
Qed.

Lemma length_partialRow mrow inputs c start stop :
  length (partialRow mrow inputs c start stop) = stop - start.
Proof. unfold partialRow. by rewrite length_fmap, length_seq. Qed.

Lemma lookup_partialRow mrow inputs c start stop j :
  j < stop - start →
  partialRow mrow inputs c start stop !!! j
  = dot (take c mrow) (take c (column (start + j) inputs)).
Proof.
  intros Hj. unfold partialRow.
  rewrite lookup_total_fmap_lt by (rewrite length_seq; lia).
  by rewrite lookup_total_seq.
Qed.

(** One output row after the columns [0 .. c-1] of one goroutine. *)
Lemma codeColumns_row matrixRows inputs start stop i (row : list byte) D :
  start ≤ stop → stop ≤ length row →
  D ≤ length (matrixRows !!! i) → D ≤ length inputs →
  (∀ c, c < D → stop ≤ length (inputs !!! c)) →
  ∀ c, 1 ≤ c ≤ D →
    foldl (λ row c, codeColumn matrixRows inputs start stop c i row) row (seq 0 c)
    = setWindow start stop row (partialRow (matrixRows !!! i) inputs c start stop).
Proof.
  intros Hss Hrow Hm Hin Hlen c [Hc1 HcD].
  induction c as [|c IH]; [lia|].
  destruct (decide (c = 0)) as [->|Hc0].
  - simpl. unfold codeColumn. rewrite bool_decide_eq_true_2 by done.
    f_equal. apply list_eq_total.
    { unfold galMulSlice. rewrite length_zip_with, !length_window, length_partialRow
        by (done || apply Hlen; lia). lia. }
    intros j Hj. unfold galMulSlice in *.
    rewrite length_zip_with, !length_window in Hj by (done || apply Hlen; lia).
    rewrite lookup_total_zip_with by (rewrite length_window; (done || apply Hlen || lia); lia).
    rewrite lookup_window, lookup_partialRow by lia.
    rewrite (dot_take_S _ _ 0) by (rewrite ?length_column; lia).
    rewrite lookup_column by lia. simpl. by rewrite galAdd_0_l.
  - rewrite seq_S, foldl_app. simpl. rewrite IH by lia.
    unfold codeColumn at 1. rewrite bool_decide_eq_false_2 by done.
    rewrite window_setWindow by (done || apply length_partialRow).
    rewrite setWindow_setWindow by (done || apply length_partialRow).
    f_equal. apply list_eq_total.
    { unfold galMulSliceXor.
      rewrite length_zip_with, !length_window, !length_partialRow
        by (done || apply Hlen; lia). lia. }
    intros j Hj. unfold galMulSliceXor in *.
    rewrite length_zip_with, !length_window, length_partialRow in Hj
      by (done || apply Hlen; lia).
    rewrite lookup_total_zip_with
      by (rewrite ?length_window, ?length_partialRow; (done || apply Hlen || lia); lia).
    rewrite lookup_window, !lookup_partialRow by lia.
    rewrite (dot_take_S _ _ c) by (rewrite ?length_column; lia).
    by rewrite lookup_column by lia.
Qed.

Lemma length_codedRow row inputs n : length (codedRow row inputs n) = n.
Proof. unfold codedRow. by rewrite length_fmap, length_seq. Qed.

Lemma lookup_codedRow row inputs n j :
  j < n → codedRow row inputs n !!! j = dot row (column j inputs).
Proof.
  intros Hj. unfold codedRow.
  rewrite lookup_total_fmap_lt by (rewrite length_seq; lia).
  by rewrite lookup_total_seq.
Qed.

Lemma partialRow_full mrow inputs D start stop byteCount :
  length mrow = D → length inputs = D → start ≤ stop → stop ≤ byteCount →
  partialRow mrow inputs D start stop
  = window start stop (codedRow mrow inputs byteCount).
Proof.
  intros Hm Hin Hss Hstop. apply list_eq_total.
  { by rewrite length_partialRow, length_window by (rewrite length_codedRow; lia). }
  intros j Hj. rewrite length_partialRow in Hj.
  rewrite lookup_partialRow, lookup_window, lookup_codedRow by lia.
  by rewrite !take_ge by (rewrite ?length_column; lia).
Qed.

(** What one goroutine of [codeSomeShardsP] leaves in the outputs. *)
Lemma codeSegment_spec r matrixRows inputs n start stop byteCount outputs :
  0 < DataShards r → n ≤ length outputs →
  length inputs = DataShards r →
  (∀ i, i < n → length (matrixRows !!! i) = DataShards r) →
  (∀ c, c < DataShards r → length (inputs !!! c) = byteCount) →
  (∀ i, i < n → length (outputs !!! i) = byteCount) →
  start ≤ stop → stop ≤ byteCount →
  codeSegment r matrixRows inputs n start stop outputs
  = imap (λ i row,
            if decide (i < n)
            then setWindow start stop row
                   (window start stop (codedRow (matrixRows !!! i) inputs byteCount))
            else row)
         outputs.
Proof.
  intros HD Hn Hin Hm Hlen Hout Hss Hstop.
  rewrite codeSegment_rows by done.
  apply list_eq_total; [by rewrite !length_imap|].
  intros i Hi. rewrite length_imap in Hi.
  rewrite !lookup_total_imap by done.
  case_decide as Hlt; [|done].
  rewrite (codeColumns_row matrixRows inputs start stop i _ (DataShards r)).
  - f_equal. apply partialRow_full; (done || by apply Hm).
  - done.
  - rewrite Hout; done.
  - by rewrite Hm.
  - lia.
  - intros c Hc. rewrite Hlen; done.
  - lia.
Qed.

(** The segment size is positive under valid options. *)
Lemma land_lnot_ones k x :
  (0 ≤ k)%Z → Z.land x (Z.lnot (Z.ones k)) = (x `div` 2 ^ k * 2 ^ k)%Z.
Proof.
  intros Hk. rewrite <- Z.ldiff_land, Z.ldiff_ones_r by done.
  by rewrite Z.shiftl_mul_pow2, Z.shiftr_div_pow2.
Qed.

Lemma splitSize_ok opts byteCount mask :
  validOptions opts → mask = 31%Z ∨ mask = 15%Z →
  ∃ do, splitSize opts byteCount mask = Ok do ∧ (1 ≤ do)%Z.
Proof.
  intros [Hmax Hmin] Hmask. unfold splitSize.
  rewrite bool_decide_eq_false_2 by lia.
  eexists. split; [done|].
  set (d := if bool_decide _ then _ else _).
  assert (Hd : (1 ≤ d)%Z) by (unfold d; case_bool_decide; lia).
  destruct Hmask as [-> | ->].
  - change 31%Z with (Z.ones 5). rewrite land_lnot_ones by lia.
    change (Z.ones 5) with 31%Z. change (2 ^ 5)%Z with 32%Z.
    assert (1 ≤ (d + 31) `div` 32)%Z by (apply Z.div_le_lower_bound; lia). lia.
  - change 15%Z with (Z.ones 4). rewrite land_lnot_ones by lia.
    change (Z.ones 4) with 15%Z. change (2 ^ 4)%Z with 16%Z.
    assert (1 ≤ (d + 15) `div` 16)%Z by (apply Z.div_le_lower_bound; lia). lia.
Qed.

(** The segment loop ends and keeps an invariant of the bytes done. *)
Lemma forSegments_inv {A} (Inv : Z → A → Prop) (byteCount : Z)
    (body : Z → Z → A → result A) :
  (∀ s d a, (0 ≤ s)%Z → (1 ≤ d)%Z → (s + d ≤ byteCount)%Z → Inv s a →
            ∃ a', body s d a = Ok a' ∧ Inv (s + d)%Z a') →
  ∀ fuel start do acc,
    (1 ≤ do)%Z → (0 ≤ start ≤ byteCount)%Z → (byteCount - start < Z.of_nat fuel)%Z →
    Inv start acc →
    ∃ acc', forSegments fuel start do byteCount body acc = Ok acc'
            ∧ Inv byteCount acc'.
Proof.
  intros Hbody fuel. induction fuel as [|fuel IH]; intros start do acc Hdo Hstart Hfuel Hinv.
  - assert (start = byteCount) as -> by lia. simpl.
    rewrite bool_decide_eq_false_2 by lia. by exists acc.
  - simpl. case_bool_decide as Hlt.
    + set (d := if bool_decide _ then _ else _).
      assert (Hd : (1 ≤ d ∧ start + d ≤ byteCount)%Z).
      { unfold d. case_bool_decide; lia. }
      destruct (Hbody start d acc) as (acc' & -> & Hinv'); [lia..|done|].
      simpl. apply IH; [lia|lia|lia|done].
    + assert (start = byteCount) as -> by lia. by exists acc.
Qed.

Lemma setWindow_prefix s e (C row : list byte) :
  s ≤ e → e ≤ length C → length row = length C →
  setWindow s e (take s C ++ drop s row) (window s e C)
  = take e C ++ drop e row.
Proof.
  intros Hse He Hlen. unfold setWindow, window.
  rewrite take_app_length' by (rewrite length_take; lia).
  rewrite drop_app_ge by (rewrite length_take; lia).
  rewrite length_take, drop_drop.
  replace (s + (e - s `min` length C)) with e by lia.
  rewrite app_assoc, take_take_drop. by replace (s + (e - s)) with e by lia.
Qed.

Lemma length_codedRows rows inputs n : length (codedRows rows inputs n) = length rows.
Proof. unfold codedRows. by rewrite length_fmap. Qed.

Lemma lookup_codedRows rows inputs n i :
  i < length rows →
  codedRows rows inputs n !!! i = codedRow (rows !!! i) inputs n.
Proof. intros Hi. unfold codedRows. by rewrite lookup_total_fmap_lt. Qed.

Lemma bind_Ok {A B} (a : A) (f : A → result B) : (Ok a ≫= f) = f a.
Proof. done. Qed.

(** [codeSomeShardsP] returns, and every output is the product of its
    matrix row and the inputs. *)
Lemma codeSomeShardsP_spec r matrixRows inputs outputs byteCount :
  validOptions (o r) → 0 < DataShards r →
  length inputs = DataShards r →
  length matrixRows = length outputs →
  (∀ i, i < length outputs → length (matrixRows !!! i) = DataShards r) →
  (∀ c, c < DataShards r → length (inputs !!! c) = byteCount) →
  (∀ i, i < length outputs → length (outputs !!! i) = byteCount) →
  codeSomeShardsP r matrixRows inputs outputs (length outputs) byteCount
  = Ok (codedRows matrixRows inputs byteCount).
Proof.
  intros Hopt HD Hin Hmr Hm Hlen Hout. unfold codeSomeShardsP.
  destruct (splitSize_ok (o r) byteCount 31 Hopt ltac:(by left)) as (do & -> & Hdo).
  rewrite bind_Ok.
  set (Inv := λ (s : Z) (outs : list (list byte)),
         outs = imap (λ i row,
                        take (Z.to_nat s) (codedRow (matrixRows !!! i) inputs byteCount)
                        ++ drop (Z.to_nat s) row) outputs).
  match goal with
  | |- forSegments _ _ _ _ ?b _ = _ => set (body := b)
  end.
  assert (Hbody : ∀ s d a, (0 ≤ s)%Z → (1 ≤ d)%Z → (s + d ≤ Z.of_nat byteCount)%Z →
            Inv s a → ∃ a', body s d a = Ok a' ∧ Inv (s + d)%Z a').
  { intros s d outs Hs Hd Hsd ->. unfold body.
    rewrite bool_decide_eq_true_2 by lia.
    eexists. split; [done|]. unfold Inv.
    rewrite (codeSegment_spec _ _ _ _ _ _ byteCount); try done; try lia.
    - rewrite imap_imap. apply imap_ext. intros i row Hrow.
      pose proof (lookup_lt_Some _ _ _ Hrow) as Hi.
      rewrite decide_True by done.
      pose proof (Hout i Hi) as Hlrow.
      rewrite (list_lookup_total_correct _ _ _ Hrow) in Hlrow.
      apply setWindow_prefix; rewrite ?length_codedRow; lia.
    - by rewrite length_imap.
    - intros i Hi. rewrite lookup_total_imap by done.
      rewrite length_app, length_take, length_drop, length_codedRow, Hout by done.
      lia. }
  destruct (forSegments_inv Inv _ body Hbody (S byteCount) 0 do outputs)
    as (outs & -> & ->); [lia|lia|lia| |].
  - unfold Inv. apply list_eq_total; [by rewrite length_imap|].
    intros i Hi. rewrite lookup_total_imap by done. done.
  - f_equal. apply list_eq_total; [by rewrite length_imap, length_codedRows|].
    intros i Hi. rewrite length_imap in Hi.
    rewrite lookup_total_imap, lookup_codedRows by lia.
    rewrite Nat2Z.id, take_ge, drop_ge by (rewrite ?length_codedRow, ?Hout; done || lia).
    by rewrite app_nil_r.
Qed.

(** * The coder built by [New] *)

Lemma topped_shape (D S : nat) (f : nat → nat → byte) :
  let M := imap (λ r row, if bool_decide (r < D) then <[r := x01]> row
                          else imap (λ c _, f r c) row)
                (replicate S (replicate D x00)) in
  length M = S ∧ ∀ r, r < S → length (M !!! r) = D.
Proof.
  intros M. split; [unfold M; by rewrite length_imap, length_replicate|].
  intros r Hr. unfold M. rewrite topped_rows by done.
  case_decide; [apply length_unitVec|by rewrite length_fmap, length_seq].
Qed.

Lemma New_wellFormed D P opts r :
  New D P opts = Ok r →
  wellFormed r ∧ o r = opts ∧ tree r = newInversionTree (DataShards r) (ParityShards r)
  ∧ DataShards r = Z.to_nat D ∧ ParityShards r = Z.to_nat P
  ∧ (1 ≤ D)%Z ∧ (1 ≤ P)%Z ∧ (D + P ≤ 256)%Z.
Proof.
  unfold New. case_bool_decide as H1; [done|]. case_bool_decide as H2; [done|].
  set (data := Z.to_nat D). set (par := Z.to_nat P).
  replace (Z.to_nat (D + P)) with (data + par) by lia.
  assert (Hshape : ∀ mat,
    (if useCauchy opts then buildMatrixCauchy data (data + par)
     else if usePAR1Matrix opts then buildMatrixPAR1 data (data + par)
     else buildMatrix data (data + par)) = Ok mat →
    length mat = data + par ∧ ∀ i, i < data + par → length (mat !!! i) = data).
  { intros mat. destruct (useCauchy opts); [|destruct (usePAR1Matrix opts)].
    - unfold buildMatrixCauchy, newMatrix.
      rewrite bool_decide_eq_false_2 by lia. simpl. intros [= <-].
      apply (topped_shape data (data + par)
               (λ r c, invTableAt (byte_of_nat (Nat.lxor r c)))).
    - unfold buildMatrixPAR1, newMatrix.
      rewrite bool_decide_eq_false_2 by lia. simpl. intros [= <-].
      apply (topped_shape data (data + par)
               (λ r c, galExp (byte_of_nat (c + 1)) (r - data))).
    - destruct (buildMatrix_spec data (data + par)) as (M & -> & (? & ? & ?) & _);
        [lia..|]. by intros [= <-]. }
  destruct (if useCauchy opts then _ else _) as [mat| | |] eqn:Hmat; try done.
  simpl. intros [= <-]. unfold wellFormed. simpl.
  destruct (Hshape mat eq_refl) as [Hlen Hrows].
  repeat split; try done; try lia.
  map_to_fmap. apply list_eq_total.
  { rewrite length_fmap, length_seq, length_drop. lia. }
  intros i Hi. rewrite length_fmap, length_seq in Hi.
  rewrite lookup_total_fmap_lt by (rewrite length_seq; lia).
  by rewrite lookup_total_seq, lookup_total_drop.
Qed.

Lemma length_parity r : wellFormed r → length (parity r) = ParityShards r.
Proof. intros (?&?&?&?&?&?&->). rewrite length_drop. lia. Qed.

Lemma lookup_parity r i :
  wellFormed r → i < ParityShards r → parity r !!! i = m r !!! (DataShards r + i).
Proof. intros (?&?&?&?&?&?&->) Hi. by rewrite lookup_total_drop. Qed.

Lemma length_parity_row r i :
  wellFormed r → i < ParityShards r → length (parity r !!! i) = DataShards r.
Proof.
  intros Hwf Hi. rewrite lookup_parity by done.
  destruct Hwf as (?&?&?&?&?&Hrows&?). apply Hrows. lia.
Qed.

(** * Shard checks *)

Lemma shardSize_uniform size shards :
  uniform size shards → 0 < size → shards ≠ [] → shardSize shards = size.
Proof.
  intros Hu Hsize Hne. destruct shards as [|s rest]; [done|].
  apply Forall_cons in Hu as [Hs _]. simpl.
  case_bool_decide; [done|lia].
Qed.

Lemma checkShards_uniform size shards nilok :
  uniform size shards → 0 < size → shards ≠ [] → checkShards shards nilok = None.
Proof.
  intros Hu Hsize Hne. unfold checkShards.
  rewrite (shardSize_uniform size) by done.
  rewrite bool_decide_eq_false_2 by lia.
  rewrite (proj2 (forallb_forall _ _)); [done|].
  intros s Hs. apply list_elem_of_In in Hs.
  unfold uniform in Hu. rewrite Forall_forall in Hu.
  rewrite bool_decide_eq_true_2; [done|]. by apply Hu.
Qed.

Lemma uniform_lookup size shards i :
  uniform size shards → i < length shards → len (shards !!! i) = size.
Proof.
  intros Hu Hi. unfold uniform in Hu. rewrite Forall_lookup in Hu.
  destruct (lookup_lt_is_Some_2 shards i Hi) as [s Hs].
  rewrite (list_lookup_total_correct _ _ _ Hs). by eapply Hu.
Qed.

Lemma length_dataOf r shards :
  DataShards r ≤ length shards → length (dataOf r shards) = DataShards r.
Proof. intros H. unfold dataOf. rewrite length_fmap, length_take. lia. Qed.

Lemma lookup_dataOf r shards c :
  c < DataShards r → DataShards r ≤ length shards →
  dataOf r shards !!! c = bytes (shards !!! c).
Proof.
  intros Hc H. unfold dataOf.
  rewrite lookup_total_fmap_lt by (rewrite length_take; lia).
  by rewrite lookup_total_take_lt.
Qed.

(** * Encode *)

Lemma bytes_setBytes s elems : len s ≠ 0 → bytes (setBytes s elems) = elems.
Proof. by destruct s. Qed.

Lemma length_storeFrom from shards outs :
  length outs = length shards - from →
  length (storeFrom from shards outs) = length shards.
Proof.
  intros H. unfold storeFrom.
  rewrite length_app, length_take, length_zip_with, length_drop. lia.
Qed.

Lemma take_storeFrom from shards outs :
  from ≤ length shards → take from (storeFrom from shards outs) = take from shards.
Proof.
  intros H. unfold storeFrom. rewrite take_app_length'; [done|].
  rewrite length_take. lia.
Qed.

Lemma lookup_storeFrom from shards outs i :
  from ≤ length shards → length outs = length shards - from → i < length outs →
  len (shards !!! (from + i)) ≠ 0 →
  bytes (storeFrom from shards outs !!! (from + i)) = outs !!! i.
Proof.
  intros Hf Hl Hi Hlen. unfold storeFrom.
  rewrite lookup_total_app_r by (rewrite length_take; lia).
  rewrite length_take. replace (from + i - from `min` length shards) with i by lia.
  rewrite lookup_total_zip_with by (rewrite ?length_drop; lia).
  rewrite lookup_total_drop. by apply bytes_setBytes.
Qed.

Lemma length_bytes_uniform size shards i :
  uniform size shards → i < length shards →
  length ((bytes <$> shards) !!! i) = size.
Proof.
  intros Hu Hi. rewrite lookup_total_fmap_lt by done.
  by apply (uniform_lookup size).
Qed.

Lemma uniform_take size n shards : uniform size shards → uniform size (take n shards).
Proof. apply Forall_take. Qed.

Lemma uniform_drop size n shards : uniform size shards → uniform size (drop n shards).
Proof. apply Forall_drop. Qed.

(** [Encode] on shards of a common non-zero length. *)
Lemma Encode_spec r shards size :
  wellFormed r → validOptions (o r) →
  length shards = Shards r → uniform size shards → 0 < size →
  Encode r shards
  = Ok (storeFrom (DataShards r) shards
          (codedRows (parity r) (dataOf r shards) size)).
Proof.
  intros Hwf Hopt Hlen Hu Hsize. pose proof Hwf as (HD & HP & HS & _).
  unfold Encode. rewrite bool_decide_eq_false_2 by (intros ?; lia).
  rewrite (checkShards_uniform size) by (done || (intros ->; simpl in *; lia)).
  rewrite (uniform_lookup size) by (done || lia).
  pose proof (codeSomeShardsP_spec r (parity r) (dataOf r shards)
                (bytes <$> drop (DataShards r) shards) size) as Hcode.
  rewrite length_fmap, length_drop in Hcode.
  replace (length shards - DataShards r) with (ParityShards r) in Hcode by lia.
  unfold dataOf in *. rewrite Hcode; [done|done|done|..].
  - rewrite length_fmap, length_take. lia.
  - by apply length_parity.
  - intros i Hi. by apply length_parity_row.
  - intros c Hc. apply length_bytes_uniform; [by apply uniform_take|].
    rewrite length_take. lia.
  - intros i Hi. apply length_bytes_uniform; [by apply uniform_drop|].
    rewrite length_drop. lia.
Qed.

(** C3.  On a shard array of length D+P whose shards share a non-zero
    length, a successful Encode overwrites byte i of parity shard r with
    the XOR over c in [0,D) of parityRow[r][c] · shards[c][i], and leaves
    the data shards shards[0..D] as they were.  Encode does succeed on such
    an array when the segments of its loop are computed without overflow
    ([segmentSizeFits]). *)
Theorem Encode_overwrites_parity D P opts r shards size :
  New D P opts = Ok r → validOptions opts →
  length shards = Shards r → uniform size shards → 0 < size →
  (∀ shards',
     Encode r shards = Ok shards' →
     length shards' = length shards
     ∧ take (DataShards r) shards' = take (DataShards r) shards
     ∧ ∀ row, row < ParityShards r →
         len (shards' !!! (DataShards r + row)) = size
         ∧ ∀ i, i < size →
             bytes (shards' !!! (DataShards r + row)) !!! i
             = dot (parity r !!! row)
                   (column i (bytes <$> take (DataShards r) shards)))
  ∧ (segmentSizeFits opts size → ∃ shards', Encode r shards = Ok shards').
Proof.
  intros HNew Hopt Hlen Hu Hsize.
  destruct (New_wellFormed D P opts r HNew) as (Hwf & Ho & _).
  pose proof Hwf as (HD & HP & HS & _).
  rewrite <- Ho in Hopt.
  pose proof (Encode_spec r shards size Hwf Hopt Hlen Hu Hsize) as HEnc.
  split; [|intros _; by eexists].
  intros shards' Hrun. rewrite HEnc in Hrun. injection Hrun as <-.
  assert (Hcl : length (codedRows (parity r) (dataOf r shards) size)
                = length shards - DataShards r).
  { rewrite length_codedRows, length_parity by done. lia. }
  split; [by apply length_storeFrom|].
  split; [apply take_storeFrom; lia|].
  intros row Hrow.
  assert (Hb : bytes (storeFrom (DataShards r) shards
                        (codedRows (parity r) (dataOf r shards) size)
                      !!! (DataShards r + row))
               = codedRow (parity r !!! row) (dataOf r shards) size).
  { rewrite lookup_storeFrom; [|lia|done|lia|].
    - apply lookup_codedRows. rewrite length_parity by done. lia.
    - rewrite (uniform_lookup size) by (done || lia). lia. }
  split.
  - unfold len. by rewrite Hb, length_codedRow.
  - intros i Hi. rewrite Hb. by apply lookup_codedRow.
Qed.

Lemma Encode_overwrites_parity_witness :
  ∃ shards',
    Encode exampleCoder exampleShards = Ok shards'
    ∧ length shards' = length exampleShards
    ∧ take (DataShards exampleCoder) shards' = take (DataShards exampleCoder) exampleShards
    ∧ ∀ row, row < ParityShards exampleCoder →
        len (shards' !!! (DataShards exampleCoder + row)) = 2
        ∧ ∀ i, i < 2 →
            bytes (shards' !!! (DataShards exampleCoder + row)) !!! i
            = dot (parity exampleCoder !!! row)
                  (column i (bytes <$> take (DataShards exampleCoder) exampleShards)).
Proof.
  destruct (Encode_overwrites_parity 2 1 exampleOptions exampleCoder exampleShards 2)
    as [Hval Hrun].
  - vm_compute. reflexivity.
  - unfold validOptions. simpl. lia.
  - reflexivity.
  - repeat constructor.
  - lia.
  - destruct Hrun as [shards' Hrun]; [split; vm_compute; discriminate|].
    exists shards'. split; [exact Hrun|]. exact (Hval shards' Hrun).
Defined.

(** * Verify *)

Lemma fmap_seq_S {A} (f : nat → A) n :
  f <$> seq 0 (S n) = (f <$> seq 0 n) ++ [f n].
Proof. by rewrite seq_S, fmap_app. Qed.

(** The accumulation of all columns into a zeroed row of [n] bytes. *)
Lemma xorColumns_row (mrow : list byte) (inp : nat → list byte) n D :
  D ≤ length mrow → (∀ c, c < D → length (inp c) = n) →
  foldl (λ row c, galMulSliceXor (mrow !!! c) (inp c) row) (replicate n x00) (seq 0 D)
  = (λ j, dot (take D mrow) ((λ c, inp c !!! j) <$> seq 0 D)) <$> seq 0 n.
Proof.
  intros Hm Hlen. induction D as [|D IH].
  - simpl. by rewrite fmap_seq_zeros.
  - rewrite seq_S, foldl_app. simpl. rewrite IH by (lia || (intros; apply Hlen; lia)).
    unfold galMulSliceXor. apply list_eq_total.
    { rewrite length_zip_with, !length_fmap, length_seq, Hlen by lia. lia. }
    intros j Hj. rewrite length_zip_with, length_fmap, length_seq, Hlen in Hj by lia.
    rewrite lookup_total_zip_with by (rewrite ?length_fmap, ?length_seq, ?Hlen; lia).
    rewrite !lookup_total_fmap_lt by (rewrite length_seq; lia).
    rewrite lookup_total_seq by lia. cbv beta. rewrite Nat.add_0_l.
    destruct (lookup_lt_is_Some_2 mrow D ltac:(lia)) as [a Ha].
    rewrite (take_S_r mrow D a Ha), fmap_app.
    rewrite dot_app by (rewrite length_take, length_fmap, length_seq; lia).
    rewrite (list_lookup_total_correct _ _ _ Ha). simpl.
    by rewrite galAdd_0_r.
Qed.

Lemma column_seq (inputs : list (list byte)) j :
  (λ c, (inputs !!! c) !!! j) <$> seq 0 (length inputs) = column j inputs.
Proof.
  apply list_eq_total; [by rewrite length_fmap, length_seq, length_column|].
  intros c Hc. rewrite length_fmap, length_seq in Hc.
  rewrite lookup_total_fmap_lt by (rewrite length_seq; lia).
  by rewrite lookup_total_seq, lookup_column.
Qed.

Lemma window_codedRow row inputs byteCount start stop :
  start ≤ stop → stop ≤ byteCount →
  window start stop (codedRow row inputs byteCount)
  = (λ j, dot row (column (start + j) inputs)) <$> seq 0 (stop - start).
Proof.
  intros Hss Hstop. apply list_eq_total.
  { by rewrite length_window, length_fmap, length_seq by (rewrite length_codedRow; lia). }
  intros j Hj. rewrite length_window in Hj by (rewrite length_codedRow; lia).
  rewrite lookup_window, lookup_codedRow by lia.
  rewrite lookup_total_fmap_lt by (rewrite length_seq; lia).
  by rewrite lookup_total_seq.
Qed.

(** The rows that a goroutine of [checkSomeShardsP], or the loop of
    [checkSomeShards], computes into its scratch buffers. *)
Lemma checkRows_spec (matrixRows inputs : list (list byte)) D n start stop byteCount :
  length matrixRows = n → length inputs = D →
  (∀ i, i < n → length (matrixRows !!! i) = D) →
  (∀ c, c < D → length (inputs !!! c) = byteCount) →
  start ≤ stop → stop ≤ byteCount →
  foldl (λ outputs c,
           foldl (λ l i, <[i := galMulSliceXor ((matrixRows !!! i) !!! c)
                                  (window start stop (inputs !!! c)) (l !!! i)]> l)
                 outputs (seq 0 n))
        (replicate n (replicate (stop - start) x00)) (seq 0 D)
  = window start stop <$> codedRows matrixRows inputs byteCount.
Proof.
  intros Hmr Hin Hm Hlen Hss Hstop.
  rewrite (foldl_columns_rows
             (λ c i row, galMulSliceXor ((matrixRows !!! i) !!! c)
                           (window start stop (inputs !!! c)) row))
    by (by rewrite length_replicate).
  apply list_eq_total.
  { by rewrite length_imap, length_replicate, length_fmap, length_codedRows. }
  intros i Hi. rewrite length_imap, length_replicate in Hi.
  rewrite lookup_total_imap by (by rewrite length_replicate).
  rewrite lookup_total_replicate, decide_True by done.
  rewrite lookup_total_fmap_lt by (rewrite length_codedRows; lia).
  rewrite lookup_codedRows by lia.
  rewrite (xorColumns_row (matrixRows !!! i)
             (λ c, window start stop (inputs !!! c)) (stop - start) D).
  - rewrite window_codedRow by done. apply list_fmap_ext. intros k j Hj.
    apply lookup_seq in Hj as [-> Hj].
    rewrite take_ge by (rewrite Hm; done). f_equal.
    rewrite <- column_seq, Hin. apply list_fmap_ext. intros k' c Hc.
    apply lookup_seq in Hc as [-> Hc]. simpl.
    by rewrite lookup_window.
  - rewrite Hm; done.
  - intros c Hc. rewrite length_window; [done|]. rewrite Hlen; done.
Qed.

Lemma checkRows_whole (matrixRows inputs : list (list byte)) D n byteCount :
  length matrixRows = n → length inputs = D →
  (∀ i, i < n → length (matrixRows !!! i) = D) →
  (∀ c, c < D → length (inputs !!! c) = byteCount) →
  foldl (λ outputs c,
           foldl (λ l i, <[i := galMulSliceXor ((matrixRows !!! i) !!! c)
                                  (inputs !!! c) (l !!! i)]> l)
                 outputs (seq 0 n))
        (replicate n (replicate byteCount x00)) (seq 0 D)
  = codedRows matrixRows inputs byteCount.
Proof.
  intros Hmr Hin Hm Hlen.
  rewrite (foldl_columns_rows
             (λ c i row, galMulSliceXor ((matrixRows !!! i) !!! c) (inputs !!! c) row))
    by (by rewrite length_replicate).
  apply list_eq_total.
  { by rewrite length_imap, length_replicate, length_codedRows. }
  intros i Hi. rewrite length_imap, length_replicate in Hi.
  rewrite lookup_total_imap by (by rewrite length_replicate).
  rewrite lookup_total_replicate, decide_True by done.
  rewrite lookup_codedRows by lia.
  rewrite (xorColumns_row (matrixRows !!! i) (λ c, inputs !!! c) byteCount D)
    by (done || rewrite Hm; done).
  unfold codedRow. apply list_fmap_ext. intros k j Hj.
  rewrite take_ge by (rewrite Hm; done). f_equal.
  by rewrite <- column_seq, Hin.
Qed.

Lemma rowsEqual_true (outputs toCheck : list (list byte)) :
  length outputs = length toCheck →
  rowsEqual outputs toCheck = true ↔ outputs = toCheck.
Proof.
  intros Hlen. unfold rowsEqual. rewrite forallb_forall. split.
  - intros H. apply list_eq_total; [done|]. intros i Hi.
    destruct (lookup_lt_is_Some_2 outputs i Hi) as [calc Hcalc].
    rewrite (list_lookup_total_correct _ _ _ Hcalc).
    assert (Hin : In (i, calc) (imap pair outputs)).
    { apply list_elem_of_In, list_elem_of_lookup. exists i.
      by rewrite list_lookup_imap, Hcalc. }
    apply H in Hin. by apply bool_decide_eq_true in Hin.
  - intros -> [i calc] Hin. apply list_elem_of_In, list_elem_of_lookup in Hin as [k Hk].
    rewrite list_lookup_imap in Hk.
    destruct (toCheck !! k) as [row|] eqn:Hrow; simplify_eq/=.
    apply bool_decide_eq_true_2. symmetry. by apply list_lookup_total_correct.
Qed.

Lemma fmap_take_full (X : list (list byte)) n :
  (∀ i, i < length X → length (X !!! i) = n) → take n <$> X = X.
Proof.
  intros H. apply list_eq_total; [by rewrite length_fmap|].
  intros i Hi. rewrite length_fmap in Hi.
  rewrite lookup_total_fmap_lt by done. apply take_ge. by rewrite H.
Qed.

Lemma window_take s e (x : list byte) : window s e x = drop s (take e x).
Proof.
  unfold window. destruct (decide (s ≤ e)) as [Hse|Hse].
  - rewrite take_drop_commute. replace (s + (e - s)) with e by lia. done.
  - replace (e - s) with 0 by lia.
    by rewrite (drop_ge (take e x)) by (rewrite length_take; lia).
Qed.

Lemma take_split s e (x : list byte) :
  s ≤ e → take e x = take s x ++ window s e x.
Proof.
  intros Hse. unfold window. rewrite take_take_drop.
  replace (s + (e - s)) with e by lia. done.
Qed.

Lemma prefix_step (X Y : list (list byte)) s e :
  s ≤ e → length X = length Y →
  take e <$> X = take e <$> Y
  ↔ take s <$> X = take s <$> Y ∧ window s e <$> X = window s e <$> Y.
Proof.
  intros Hse Hlen. split.
  - intros H. split.
    + apply list_eq_total; [by rewrite !length_fmap|].
      intros i Hi. rewrite length_fmap in Hi.
      apply (f_equal (λ l, l !!! i)) in H.
      rewrite !lookup_total_fmap_lt in H by lia.
      rewrite !lookup_total_fmap_lt by lia.
      apply (f_equal (take s)) in H. rewrite !take_take in H.
      by rewrite !Nat.min_l in H by lia.
    + apply list_eq_total; [by rewrite !length_fmap|].
      intros i Hi. rewrite length_fmap in Hi.
      apply (f_equal (λ l, l !!! i)) in H.
      rewrite !lookup_total_fmap_lt in H by lia.
      rewrite !lookup_total_fmap_lt by lia.
      rewrite !window_take. by rewrite H.
  - intros [H1 H2]. apply list_eq_total; [by rewrite !length_fmap|].
    intros i Hi. rewrite length_fmap in Hi.
    apply (f_equal (λ l, l !!! i)) in H1, H2.
    rewrite !lookup_total_fmap_lt in H1, H2 by lia.
    rewrite !lookup_total_fmap_lt by lia.
    rewrite !(take_split s e) by done. by rewrite H1, H2.
Qed.

(** [checkSomeShards] returns whether the rows to check are the products of
    the matrix rows and the inputs. *)
Lemma checkSomeShards_spec r matrixRows inputs toCheck byteCount :
  validOptions (o r) → 0 < DataShards r →
  length inputs = DataShards r →
  length matrixRows = length toCheck →
  (∀ i, i < length toCheck → length (matrixRows !!! i) = DataShards r) →
  (∀ c, c < DataShards r → length (inputs !!! c) = byteCount) →
  (∀ i, i < length toCheck → length (toCheck !!! i) = byteCount) →
  checkSomeShards r matrixRows inputs toCheck (length toCheck) byteCount
  = Ok (bool_decide (toCheck = codedRows matrixRows inputs byteCount)).
Proof.
  intros Hopt HD Hin Hmr Hm Hlen Hchk.
  set (C := codedRows matrixRows inputs byteCount).
  assert (HC : ∀ i, i < length C → length (C !!! i) = byteCount).
  { intros i Hi. unfold C in *. rewrite length_codedRows in Hi.
    by rewrite lookup_codedRows, length_codedRow. }
  assert (HlenC : length C = length toCheck) by (unfold C; by rewrite length_codedRows).
  unfold checkSomeShards. destruct (_ && _).
  - unfold checkSomeShardsP.
    destruct (splitSize_ok (o r) byteCount 15 Hopt ltac:(by right)) as (do & -> & Hdo).
    rewrite bind_Ok.
    set (Inv := λ (s : Z) (same : bool),
           same = true ↔ take (Z.to_nat s) <$> toCheck = take (Z.to_nat s) <$> C).
    match goal with
    | |- forSegments _ _ _ _ ?b _ = _ => set (body := b)
    end.
    assert (Hbody : ∀ s d a, (0 ≤ s)%Z → (1 ≤ d)%Z → (s + d ≤ Z.of_nat byteCount)%Z →
              Inv s a → ∃ a', body s d a = Ok a' ∧ Inv (s + d)%Z a').
    { intros s d same Hs Hd Hsd Hinv. unfold body.
      rewrite bool_decide_eq_true_2 by lia.
      rewrite (bool_decide_eq_true_2 (0 < DataShards r)) by done.
      pose proof (prefix_step toCheck C (Z.to_nat s) (Z.to_nat (s + d))
                    ltac:(lia) ltac:(done)) as Hstep.
      destruct same; simpl.
      - replace (replicate (length toCheck) (replicate (Z.to_nat d) x00))
          with (replicate (length toCheck)
                  (replicate (Z.to_nat s + Z.to_nat d - Z.to_nat s) x00))
          by (f_equal; f_equal; lia).
        rewrite (checkRows_spec matrixRows inputs (DataShards r) (length toCheck)
                   (Z.to_nat s) (Z.to_nat s + Z.to_nat d) byteCount)
          by (done || lia).
        fold C. replace (Z.to_nat s + Z.to_nat d) with (Z.to_nat (s + d)) by lia.
        destruct (rowsEqual _ _) eqn:Heq.
        + exists true. split; [done|]. unfold Inv. split; [|done]. intros _.
          apply rowsEqual_true in Heq; [|by rewrite !length_fmap].
          apply Hstep. split; [by apply Hinv|done].
        + exists false. split; [done|]. unfold Inv. split; [done|]. intros Hpre.
          apply Hstep in Hpre as [_ Hw].
          assert (rowsEqual (window (Z.to_nat s) (Z.to_nat (s + d)) <$> C)
                    (window (Z.to_nat s) (Z.to_nat (s + d)) <$> toCheck) = true)
            by (apply rowsEqual_true; [by rewrite !length_fmap|done]).
          congruence.
      - exists false. split; [done|]. unfold Inv. split; [done|]. intros Hpre.
        apply Hstep in Hpre as [Hp _]. by apply Hinv in Hp. }
    destruct (forSegments_inv Inv _ body Hbody (S byteCount) 0 do true)
      as (same & -> & Hsame); [lia|lia|lia| |].
    + unfold Inv. split; [|done]. intros _. simpl.
      apply list_eq_total; [by rewrite !length_fmap|].
      intros i Hi. rewrite length_fmap in Hi.
      by rewrite !lookup_total_fmap_lt by lia.
    + f_equal. unfold Inv in Hsame.
      rewrite Nat2Z.id, !fmap_take_full in Hsame by done.
      destruct same; [by rewrite bool_decide_eq_true_2 by (by apply Hsame)|].
      rewrite bool_decide_eq_false_2; [done|]. intros E. by apply Hsame in E.
  - f_equal.
    rewrite (checkRows_whole matrixRows inputs (DataShards r) (length toCheck) byteCount)
      by done.
    fold C. destruct (rowsEqual C toCheck) eqn:Heq.
    + apply rowsEqual_true in Heq; [|done]. by rewrite bool_decide_eq_true_2.
    + rewrite bool_decide_eq_false_2; [done|]. intros E.
      assert (rowsEqual C toCheck = true) by (by apply rowsEqual_true).
      congruence.
Qed.

Lemma Verify_spec r shards size :
  wellFormed r → validOptions (o r) →
  length shards = Shards r → uniform size shards → 0 < size →
  Verify r shards
  = Ok (bool_decide (bytes <$> drop (DataShards r) shards
                     = codedRows (parity r) (dataOf r shards) size)).
Proof.
  intros Hwf Hopt Hlen Hu Hsize. pose proof Hwf as (HD & HP & HS & _).
  unfold Verify. rewrite bool_decide_eq_false_2 by (intros ?; lia).
  rewrite (checkShards_uniform size) by (done || (intros ->; simpl in *; lia)).
  rewrite (uniform_lookup size) by (done || lia).
  pose proof (checkSomeShards_spec r (parity r) (dataOf r shards)
                (bytes <$> drop (DataShards r) shards) size) as Hchk.
  rewrite length_fmap, length_drop in Hchk.
  replace (length shards - DataShards r) with (ParityShards r) in Hchk by lia.
  unfold dataOf in *. apply Hchk; [done|done|..].
  - rewrite length_fmap, length_take. lia.
  - by apply length_parity.
  - intros i Hi. by apply length_parity_row.
  - intros c Hc. apply length_bytes_uniform; [by apply uniform_take|].
    rewrite length_take. lia.
  - intros i Hi. apply length_bytes_uniform; [by apply uniform_drop|].
    rewrite length_drop. lia.
Qed.

Lemma bytes_storeFrom from shards outs size :
  from ≤ length shards → length outs = length shards - from →
  uniform size shards → 0 < size →
  bytes <$> drop from (storeFrom from shards outs) = outs.
Proof.
  intros Hf Hl Hu Hsize. unfold storeFrom.
  rewrite drop_app_length' by (rewrite length_take; lia).
  apply list_eq_total.
  { rewrite length_fmap, length_zip_with, length_drop. lia. }
  intros i Hi. rewrite length_fmap, length_zip_with, length_drop in Hi.
  rewrite lookup_total_fmap_lt by (rewrite length_zip_with, length_drop; lia).
  rewrite lookup_total_zip_with by (rewrite ?length_drop; lia).
  apply bytes_setBytes. rewrite lookup_total_drop.
  rewrite (uniform_lookup size) by (done || lia). lia.
Qed.

Lemma uniform_storeFrom from shards outs size :
  from ≤ length shards → length outs = length shards - from →
  uniform size shards → 0 < size →
  (∀ i, i < length outs → length (outs !!! i) = size) →
  uniform size (storeFrom from shards outs).
Proof.
  intros Hf Hl Hu Hsize Houts.
  pose proof (bytes_storeFrom from shards outs size Hf Hl Hu Hsize) as Hb.
  pose proof (take_storeFrom from shards outs Hf) as Ht.
  rewrite <- (take_drop from (storeFrom from shards outs)).
  apply Forall_app. split.
  - rewrite Ht. by apply uniform_take.
  - apply Forall_lookup. intros i s Hs.
    pose proof (lookup_lt_Some _ _ _ Hs) as Hi.
    apply (f_equal (λ l, l !!! i)) in Hb.
    rewrite lookup_total_fmap_lt in Hb by done.
    rewrite (list_lookup_total_correct _ _ _ Hs) in Hb.
    unfold len. rewrite Hb. apply Houts.
    rewrite length_drop, length_storeFrom in Hi by done. lia.
Qed.

(** C2.  On a shard array of length D+P whose shards share a non-zero
    length, Verify returns true exactly when shards[D..S] equal, byte for
    byte, the parity that the parity rows compute from shards[0..D]; and
    Verify returns true on what Encode produced.  Encode does produce an
    array when the segments of its loop are computed without overflow
    ([segmentSizeFits]). *)
Theorem Verify_iff_parity D P opts r shards size :
  New D P opts = Ok r → validOptions opts →
  length shards = Shards r → uniform size shards → 0 < size →
  (∃ same, Verify r shards = Ok same
           ∧ (same = true ↔
              bytes <$> drop (DataShards r) shards
              = codedRows (parity r) (bytes <$> take (DataShards r) shards) size))
  ∧ (∀ encoded, Encode r shards = Ok encoded → Verify r encoded = Ok true)
  ∧ (segmentSizeFits opts size →
     ∃ encoded, Encode r shards = Ok encoded ∧ Verify r encoded = Ok true).
Proof.
  intros HNew Hopt Hlen Hu Hsize.
  destruct (New_wellFormed D P opts r HNew) as (Hwf & Ho & _).
  pose proof Hwf as (HD & HP & HS & _).
  rewrite <- Ho in Hopt.
  pose proof (Encode_spec r shards size Hwf Hopt Hlen Hu Hsize) as HEnc.
  assert (Hver : ∀ encoded, Encode r shards = Ok encoded → Verify r encoded = Ok true).
  { intros encoded Hrun. rewrite HEnc in Hrun. injection Hrun as <-.
    set (C := codedRows (parity r) (dataOf r shards) size).
    assert (HlenC : length C = length shards - DataShards r).
    { unfold C. rewrite length_codedRows, length_parity by done. lia. }
    assert (HrowC : ∀ i, i < length C → length (C !!! i) = size).
    { intros i Hi. unfold C in *. rewrite length_codedRows in Hi.
      by rewrite lookup_codedRows, length_codedRow. }
    rewrite (Verify_spec _ _ size); try done.
    + f_equal. apply bool_decide_eq_true_2.
      rewrite (bytes_storeFrom _ _ _ size) by (done || lia).
      unfold dataOf. rewrite take_storeFrom by lia. done.
    + rewrite length_storeFrom by done. done.
    + apply uniform_storeFrom; done || lia. }
  split; [|split].
  - eexists. split; [by apply (Verify_spec r shards size)|].
    apply bool_decide_eq_true.
  - exact Hver.
  - intros _. eexists. split; [exact HEnc|]. by apply Hver.
Qed.

Lemma Verify_iff_parity_witness :
  (∃ same, Verify exampleCoder exampleShards = Ok same
           ∧ (same = true ↔
              bytes <$> drop (DataShards exampleCoder) exampleShards
              = codedRows (parity exampleCoder)
                  (bytes <$> take (DataShards exampleCoder) exampleShards) 2))
  ∧ (∃ encoded, Encode exampleCoder exampleShards = Ok encoded
                ∧ Verify exampleCoder encoded = Ok true).
Proof.
  destruct (Verify_iff_parity 2 1 exampleOptions exampleCoder exampleShards 2)
    as (Hiff & _ & Hrun).
  - vm_compute. reflexivity.
  - unfold validOptions. simpl. lia.
  - reflexivity.
  - repeat constructor.
  - lia.
  - split; [exact Hiff|]. apply Hrun. split; vm_compute; discriminate.
Defined.

(** * The loops of reconstruct *)

Lemma take_S_total {A} `{!Inhabited A} (l : list A) n :
  n < length l → take (S n) l = take n l ++ [l !!! n].
Proof.
  intros Hn. destruct (lookup_lt_is_Some_2 l n Hn) as [x Hx].
  by rewrite (take_S_r l n x Hx), (list_lookup_total_correct _ _ _ Hx).
Qed.

Lemma present_snoc shards s :
  present (shards ++ [s])
  = present shards ++ (if bool_decide (len s ≠ 0) then [s] else []).
Proof.
  unfold present. rewrite filter_app. f_equal.
  rewrite filter_cons, filter_nil. by case_bool_decide; case_decide.
Qed.

Lemma countPresent_spec r shards :
  Shards r ≤ length shards →
  countPresent r shards
  = (length (present (take (Shards r) shards)),
     length (present (take (Shards r) (take (DataShards r) shards)))).
Proof.
  unfold countPresent. generalize (Shards r) as n.
  induction n as [|n IH]; intros Hn; [done|].
  rewrite seq_S, foldl_app, IH by lia.
  rewrite (take_S_total shards), present_snoc, length_app by lia.
  assert (Hd : take (S n) (take (DataShards r) shards)
               = take n (take (DataShards r) shards)
                 ++ (if bool_decide (n < DataShards r) then [shards !!! n] else [])).
  { case_bool_decide as Hd.
    - rewrite take_S_total by (rewrite length_take; lia).
      by rewrite lookup_total_take_lt.
    - rewrite app_nil_r.
      rewrite (take_ge _ (S n)), (take_ge _ n) by (rewrite length_take; lia). done. }
  rewrite Hd. cbn [foldl]. replace (0 + n) with n by done.
  destruct (bool_decide (len (shards !!! n) ≠ 0)) eqn:Hp;
    destruct (bool_decide (n < DataShards r)) eqn:Hlt;
    rewrite ?present_snoc, ?app_nil_r, ?length_app, ?Hp; simpl; f_equal; lia.
Qed.

Lemma length_present_le shards : length (present shards) ≤ length shards.
Proof. apply length_filter. Qed.

Lemma present_take_le n shards :
  length (present (take n shards)) ≤ length (present shards).
Proof.
  rewrite <- (take_drop n shards) at 2. unfold present.
  rewrite filter_app, length_app. lia.
Qed.

Lemma shardSize_emptyOr size shards :
  emptyOr size shards → 0 < size → 0 < length (present shards) →
  shardSize shards = size.
Proof.
  intros He Hsize. induction shards as [|s rest IH]; simpl; [lia|].
  apply Forall_cons in He as [Hs He]. unfold present. rewrite filter_cons.
  case_bool_decide as Hp; case_decide; try done; try lia.
  intros Hrest. by apply IH.
Qed.

Lemma checkShards_emptyOr size shards :
  emptyOr size shards → 0 < size → 0 < length (present shards) →
  checkShards shards true = None.
Proof.
  intros He Hsize Hp. unfold checkShards.
  rewrite (shardSize_emptyOr size) by done.
  rewrite bool_decide_eq_false_2 by lia.
  rewrite (proj2 (forallb_forall _ _)); [done|].
  intros s Hs. apply list_elem_of_In in Hs.
  unfold emptyOr in He. rewrite Forall_forall in He.
  destruct (He s Hs) as [H0|Hsz].
  - rewrite (bool_decide_eq_true_2 (len s = 0)) by done. by rewrite orb_true_r.
  - by rewrite (bool_decide_eq_true_2 (len s = size)) by done.
Qed.

Lemma checkShards_all_empty shards nilok :
  length (present shards) = 0 → checkShards shards nilok = Some ErrShardNoData.
Proof.
  intros Hp. unfold checkShards.
  assert (H0 : shardSize shards = 0).
  { induction shards as [|s rest IH]; [done|]. simpl.
    unfold present in Hp. rewrite filter_cons in Hp.
    case_bool_decide; case_decide; try done; simpl in Hp; try lia.
    by apply IH. }
  by rewrite H0.
Qed.

(** * The stages of reconstruct *)

Lemma lookup_total_ge {A} `{!Inhabited A} (l : list A) i :
  length l ≤ i → l !!! i = inhabitant.
Proof. intros H. by rewrite list_lookup_total_alt, lookup_ge_None_2. Qed.

Lemma lookup_total_same_length {A} `{!Inhabited A} (l k : list A) i :
  length l = length k → (i < length k → l !!! i = k !!! i) → l !!! i = k !!! i.
Proof.
  intros Hlen H. destruct (decide (i < length k)); [by apply H|].
  by rewrite !lookup_total_ge by lia.
Qed.

(** The missing shards among [indices]. *)
Lemma prepareOutputs_spec size indices shards :
  NoDup indices →
  ∃ sh, prepareOutputs size indices shards
        = (sh, filter (λ i, len (shards !!! i) = 0) indices)
        ∧ length sh = length shards
        ∧ ∀ i, i < length shards →
            sh !!! i = if decide (i ∈ indices ∧ len (shards !!! i) = 0)
                       then sizedBuffer size (shards !!! i)
                       else shards !!! i.
Proof.
  unfold prepareOutputs.
  induction indices as [|x indices IH] using rev_ind; intros Hnd.
  - exists shards. split; [done|]. split; [done|]. intros i Hi.
    rewrite decide_False; [done|]. intros [H _]. by apply elem_of_nil in H.
  - apply NoDup_app in Hnd as (Hnd & Hx & _).
    destruct (IH Hnd) as (sh & Hrun & Hlen & Hlook).
    rewrite foldl_app, Hrun. cbn [foldl].
    assert (Hshx : sh !!! x = shards !!! x).
    { apply lookup_total_same_length; [done|]. intros Hlt.
      rewrite Hlook by done. rewrite decide_False; [done|].
      intros [Hin _]. apply (Hx x); [done|]. by apply list_elem_of_singleton. }
    rewrite Hshx, filter_app, filter_cons, filter_nil.
    case_bool_decide as H0.
    + rewrite decide_True by done. eexists. split; [done|].
      split; [by rewrite length_insert|]. intros i Hi.
      destruct (decide (i = x)) as [->|Hne].
      * rewrite list_lookup_total_insert_eq by lia.
        rewrite decide_True; [done|]. split; [|done].
        apply elem_of_app. right. by apply list_elem_of_singleton.
      * rewrite list_lookup_total_insert_ne by done. rewrite Hlook by done.
        apply decide_ext. rewrite elem_of_app, list_elem_of_singleton.
        split; intros [H1 H2]; (split; [|done]); [by left|by destruct H1].
    + rewrite decide_False by done. rewrite app_nil_r.
      exists sh. split; [done|]. split; [done|]. intros i Hi.
      rewrite Hlook by done. apply decide_ext.
      rewrite elem_of_app, list_elem_of_singleton.
      split; intros [H1 H2]; (split; [|done]); [by left|].
      destruct H1 as [?| ->]; done.
Qed.

Lemma length_storeOutputs : ∀ outIndices outs shards,
  length (storeOutputs shards outIndices outs) = length shards.
Proof.
  unfold storeOutputs.
  induction outIndices as [|i out IH]; intros [|o outs] shards; try done.
  simpl. rewrite IH. by rewrite length_insert.
Qed.

Lemma storeOutputs_other : ∀ outIndices outs shards i,
  i ∉ outIndices → storeOutputs shards outIndices outs !!! i = shards !!! i.
Proof.
  unfold storeOutputs.
  induction outIndices as [|i0 out IH]; intros [|o outs] shards i Hi; try done.
  simpl. apply not_elem_of_cons in Hi as [Hne Hi].
  rewrite IH by done. by rewrite list_lookup_total_insert_ne.
Qed.

Lemma storeOutputs_at : ∀ outIndices outs shards k i,
  NoDup outIndices → outIndices !! k = Some i → k < length outs →
  i < length shards →
  storeOutputs shards outIndices outs !!! i
  = setBytes (shards !!! i) (outs !!! k).
Proof.
  induction outIndices as [|i0 out IH]; intros [|o outs] shards k i Hnd Hk Hlt Hi;
    try done; try (simpl in Hlt; lia).
  apply NoDup_cons in Hnd as [Hi0 Hnd].
  destruct k as [|k]; simplify_eq/=.
  - change (storeOutputs (<[i := setBytes (shards !!! i) o]> shards) out outs !!! i
            = setBytes (shards !!! i) o).
    rewrite storeOutputs_other by done.
    by rewrite list_lookup_total_insert_eq.
  - change (storeOutputs (<[i0 := setBytes (shards !!! i0) o]> shards) out outs !!! i
            = setBytes (shards !!! i) (outs !!! k)).
    rewrite (IH outs _ k i) by (done || lia || (rewrite length_insert; done)).
    rewrite list_lookup_total_insert_ne; [done|].
    intros ->. apply Hi0. by eapply list_elem_of_lookup_2.
Qed.

Lemma sizedBuffer_shape size s :
  0 < size → len s = 0 →
  ∃ elems spare, sizedBuffer size s = mkSlice elems spare ∧ length elems = size.
Proof.
  intros Hsize Hlen. unfold sizedBuffer. case_bool_decide as Hcap.
  - destruct s as [|elems spare]; [unfold cap in Hcap; simpl in Hcap; lia|].
    unfold cap, len in *. simpl in *. eexists _, _. split; [done|].
    rewrite length_take. lia.
  - unfold make. eexists _, _. split; [done|]. by rewrite length_replicate.
Qed.

(** A stage changes no shard outside [indices], whatever it returns. *)
Lemma recoverShards_frame r size indices rowOf inputs shards shards' :
  NoDup indices →
  recoverShards r size indices rowOf inputs shards = Ok shards' →
  length shards' = length shards
  ∧ ∀ i, i ∉ indices → shards' !!! i = shards !!! i.
Proof.
  intros Hnd. unfold recoverShards.
  destruct (prepareOutputs_spec size indices shards Hnd) as (sh & -> & Hlen & Hlook).
  destruct (codeSomeShardsP _ _ _ _ _ _) as [outs| | |]; try done.
  rewrite bind_Ok. intros [= <-]. split.
  - by rewrite length_storeOutputs.
  - intros i Hi. rewrite storeOutputs_other.
    + apply lookup_total_same_length; [done|]. intros Hlt.
      rewrite Hlook by done. rewrite decide_False; [done|]. by intros [? _].
    + intros Hin. apply list_elem_of_filter in Hin as [_ Hin]. done.
Qed.

(** A stage returns, and every missing shard among [indices] holds the
    product of its matrix row and the inputs. *)
Lemma recoverShards_spec r size indices rowOf inputs X shards :
  validOptions (o r) → 0 < DataShards r → 0 < size →
  NoDup indices → (∀ i, i ∈ indices → i < length shards) →
  (∀ sh, length sh = length shards →
         (∀ i, i ∉ indices → sh !!! i = shards !!! i) → inputs sh = X) →
  length X = DataShards r →
  (∀ c, c < DataShards r → length (X !!! c) = size) →
  (∀ i, i ∈ indices → len (shards !!! i) = 0 → length (rowOf i) = DataShards r) →
  ∃ shards',
    recoverShards r size indices rowOf inputs shards = Ok shards'
    ∧ length shards' = length shards
    ∧ ∀ i, i < length shards →
        shards' !!! i
        = if decide (i ∈ indices ∧ len (shards !!! i) = 0)
          then setBytes (sizedBuffer size (shards !!! i)) (codedRow (rowOf i) X size)
          else shards !!! i.
Proof.
  intros Hopt HD Hsize Hnd Hin HX HlenX HrowX Hrow. unfold recoverShards.
  destruct (prepareOutputs_spec size indices shards Hnd) as (sh & -> & Hlen & Hlook).
  set (out := filter (λ i, len (shards !!! i) = 0) indices).
  assert (Hout : ∀ i, i ∈ out ↔ i ∈ indices ∧ len (shards !!! i) = 0).
  { intros i. unfold out. rewrite list_elem_of_filter. tauto. }
  assert (Hndout : NoDup out) by (by apply NoDup_filter).
  rewrite (HX sh Hlen).
  2:{ intros i Hi. apply lookup_total_same_length; [done|]. intros Hlt.
      rewrite Hlook by done. rewrite decide_False; [done|]. by intros [? _]. }
  pose proof (codeSomeShardsP_spec r (rowOf <$> out) X
                ((λ iShard, bytes (sh !!! iShard)) <$> out) size) as Hcode.
  rewrite !length_fmap in Hcode. rewrite Hcode; clear Hcode; try done.
  - rewrite bind_Ok. eexists. split; [done|].
    split; [by rewrite length_storeOutputs|]. intros i Hi.
    destruct (decide (i ∈ indices ∧ len (shards !!! i) = 0)) as [Hmiss|Hmiss].
    + apply Hout in Hmiss as Hio. apply list_elem_of_lookup in Hio as [k Hk].
      pose proof (lookup_lt_Some _ _ _ Hk) as Hklt.
      rewrite (storeOutputs_at out _ sh k i)
        by (done || lia || (by rewrite length_codedRows, length_fmap)).
      rewrite Hlook, decide_True by done.
      rewrite lookup_codedRows by (by rewrite length_fmap).
      rewrite lookup_total_fmap_lt by done.
      by rewrite (list_lookup_total_correct _ _ _ Hk).
    + rewrite storeOutputs_other by (by rewrite Hout).
      rewrite Hlook by done. by rewrite decide_False.
  - intros k Hk. rewrite lookup_total_fmap_lt by done.
    assert (Hel : out !!! k ∈ out) by (by apply list_elem_of_lookup_total_2).
    apply Hout in Hel as [? ?]. by apply Hrow.
  - intros k Hk. rewrite lookup_total_fmap_lt by done.
    assert (Hel : out !!! k ∈ out) by (by apply list_elem_of_lookup_total_2).
    apply Hout in Hel as [Hel1 Hel2].
    rewrite Hlook by (by apply Hin). rewrite decide_True by done.
    destruct (sizedBuffer_shape size (shards !!! (out !!! k)) Hsize Hel2)
      as (elems & spare & -> & Hl). done.
Qed.

Lemma bytes_sizedBuffer size s elems :
  0 < size → len s = 0 → bytes (setBytes (sizedBuffer size s) elems) = elems.
Proof.
  intros Hsize Hlen.
  by destruct (sizedBuffer_shape size s Hsize Hlen) as (e & sp & -> & _).
Qed.

(** * What a call of reconstruct returns *)

Lemma withTree_eta r : withTree r (tree r) = r.
Proof. by destruct r. Qed.

(** The two ways in which [reconstruct] succeeds: nothing to do, or a
    decode matrix and one or two stages. *)
Lemma reconstruct_Ok r shards dataOnly r' shards' :
  reconstruct r shards dataOnly = Ok (r', shards') →
  length shards = Shards r
  ∧ ((r' = r ∧ shards' = shards)
     ∨ ∃ sub valid invalid tree' ddm shards1,
         scanRows (DataShards r) shards 0 [] [] [] = (sub, valid, invalid)
         ∧ DataShards r ≤ (countPresent r shards).1
         ∧ decodeMatrix r valid invalid = Ok (tree', ddm)
         ∧ r' = withTree r tree'
         ∧ recoverShards r' (shardSize shards) (seq 0 (DataShards r))
             (λ iShard, ddm !!! iShard) (λ _, sub) shards = Ok shards1
         ∧ (if dataOnly then shards' = shards1
            else recoverShards r' (shardSize shards)
                   (seq (DataShards r) (Shards r - DataShards r))
                   (λ iShard, parity r !!! (iShard - DataShards r))
                   (λ shards, bytes <$> take (DataShards r) shards) shards1
                 = Ok shards')).
Proof.
  unfold reconstruct. case_bool_decide as Hlen; [done|].
  destruct (checkShards shards true); [done|].
  destruct (countPresent r shards) as [np dp].
  destruct (_ || _); [intros [= <- <-]; by split; [|left]|].
  case_bool_decide as Hnp; [done|].
  destruct (scanRows _ _ _ _ _ _) as [[sub valid] invalid].
  destruct (decodeMatrix r valid invalid) as [[tree' ddm]| | |] eqn:Hdec; try done.
  rewrite bind_Ok.
  destruct (recoverShards (withTree r tree') _ (seq 0 _) _ _ shards)
    as [shards1| | |] eqn:Hdata; try done.
  rewrite bind_Ok. intros H. split; [done|]. right.
  exists sub, valid, invalid, tree', ddm, shards1.
  split; [done|]. split; [simpl; lia|]. split; [done|].
  destruct dataOnly.
  - injection H as <- <-. done.
  - destruct (recoverShards (withTree r tree') _ (seq _ _) _ _ shards1)
      as [shards2| | |] eqn:Hpar; try done.
    rewrite bind_Ok in H. injection H as <- <-. done.
Qed.

(** A successful call changes nothing in the coder but its tree. *)
Lemma reconstruct_coder r shards dataOnly r' shards' :
  reconstruct r shards dataOnly = Ok (r', shards') →
  ∃ tree', r' = withTree r tree'.
Proof.
  intros H. apply reconstruct_Ok in H
    as [_ [[-> _]|(sub & valid & invalid & tree' & ddm & shards1 & _ & _ & _ & -> & _)]].
  - exists (tree r). by rewrite withTree_eta.
  - by exists tree'.
Qed.

Lemma reachable_fields r0 r :
  reachable r0 r → ∃ t, r = withTree r0 t.
Proof.
  induction 1 as [|r shards dataOnly r' shards' _ [t ->] Hrec].
  - exists (tree r0). by rewrite withTree_eta.
  - apply reconstruct_coder in Hrec as [t' ->]. by exists t'.
Qed.

Lemma reachable_wellFormed D P opts r0 r :
  New D P opts = Ok r0 → reachable r0 r →
  wellFormed r ∧ o r = opts ∧ m r = m r0.
Proof.
  intros HNew Hr. destruct (New_wellFormed D P opts r0 HNew) as (Hwf & Ho & _).
  apply reachable_fields in Hr as [t ->]. done.
Qed.

(** C10.  When ReconstructData succeeds, the parity entries shards[D..S]
    are exactly the slices that were supplied: same bytes, same length,
    same capacity. *)
Theorem ReconstructData_keeps_parity r shards r' shards' :
  ReconstructData r shards = Ok (r', shards') →
  drop (DataShards r) shards' = drop (DataShards r) shards.
Proof.
  unfold ReconstructData. intros H. apply reconstruct_Ok in H
    as [_ [[_ ->]|(sub & valid & invalid & tree' & ddm & shards1
                   & _ & _ & _ & _ & Hdata & ->)]]; [done|].
  apply recoverShards_frame in Hdata as [Hlen Hother]; [|apply NoDup_seq].
  apply list_eq_total; [by rewrite !length_drop, Hlen|].
  intros i _. rewrite !lookup_total_drop. apply Hother.
  rewrite elem_of_seq. lia.
Qed.
Lemma ReconstructData_keeps_parity_witness :
  drop (DataShards exampleCoder) exampleDataRecovered.2
  = drop (DataShards exampleCoder) exampleLost.
Proof.
  apply (ReconstructData_keeps_parity exampleCoder exampleLost
           exampleDataRecovered.1 exampleDataRecovered.2).
  vm_compute. reflexivity.
Defined.

Lemma shardSize_no_present shards :
  length (present shards) = 0 → shardSize shards = 0.
Proof.
  induction shards as [|s shards IH]; [done|].
  unfold present in *. rewrite filter_cons. cbn [shardSize].
  destruct (decide (len s ≠ 0)) as [Hs|Hs]; [simpl; lia|].
  intros Hp. rewrite bool_decide_eq_false_2 by done. by apply IH.
Qed.

(** C8, as the code has it.  On a shard array of length D+P in which every
    shard is empty or of the common non-zero length, Reconstruct and
    ReconstructData fail with TooFewShards whenever at least one shard but
    fewer than D shards are non-empty; when every shard is empty they fail
    with ShardNoData. *)
Theorem reconstruct_too_few_shards D P opts r0 r shards size :
  New D P opts = Ok r0 → reachable r0 r →
  length shards = Shards r → emptyOr size shards → 0 < size →
  (0 < length (present shards) → length (present shards) < DataShards r →
   Reconstruct r shards = Err ErrTooFewShards
   ∧ ReconstructData r shards = Err ErrTooFewShards)
  ∧ (length (present shards) = 0 →
     Reconstruct r shards = Err ErrShardNoData
     ∧ ReconstructData r shards = Err ErrShardNoData).
Proof.
  intros HNew Hr Hlen He Hsize.
  destruct (reachable_wellFormed D P opts r0 r HNew Hr) as ((HD & HP & HS & _) & _).
  split.
  - intros Hp0 HpD.
    assert (H : ∀ dataOnly, reconstruct r shards dataOnly = Err ErrTooFewShards).
    { intros dataOnly. unfold reconstruct.
      rewrite bool_decide_eq_false_2 by (intros ?; lia).
      rewrite (checkShards_emptyOr size) by done.
      rewrite countPresent_spec by lia.
      rewrite <- Hlen, firstn_all.
      pose proof (present_take_le (length shards) (take (DataShards r) shards)).
      pose proof (present_take_le (DataShards r) shards).
      pose proof (length_present_le shards).
      rewrite (bool_decide_eq_false_2 (_ = length shards)) by lia.
      rewrite (bool_decide_eq_false_2 (_ = DataShards r)) by lia.
      rewrite andb_false_r. simpl.
      by rewrite bool_decide_eq_true_2 by done. }
    split; apply H.
  - intros Hnone.
    assert (H : ∀ dataOnly, reconstruct r shards dataOnly = Err ErrShardNoData).
    { intros dataOnly. unfold reconstruct.
      rewrite bool_decide_eq_false_2 by (intros ?; lia).
      unfold checkShards. rewrite shardSize_no_present by done.
      by rewrite bool_decide_eq_true_2. }
    split; apply H.
Qed.

Lemma reconstruct_too_few_shards_witness :
  (Reconstruct exampleCoder [mkSlice [x01; x02] []; nilSlice; nilSlice]
     = Err ErrTooFewShards
   ∧ ReconstructData exampleCoder [mkSlice [x01; x02] []; nilSlice; nilSlice]
     = Err ErrTooFewShards)
  ∧ (Reconstruct exampleCoder [mkSlice [] [x01; x02]; nilSlice; nilSlice]
       = Err ErrShardNoData
     ∧ ReconstructData exampleCoder [mkSlice [] [x01; x02]; nilSlice; nilSlice]
       = Err ErrShardNoData).
Proof.
  split.
  - destruct (reconstruct_too_few_shards 2 1 exampleOptions exampleCoder exampleCoder
                [mkSlice [x01; x02] []; nilSlice; nilSlice] 2) as [Hfew _].
    + vm_compute. reflexivity.
    + constructor.
    + reflexivity.
    + unfold emptyOr. repeat (apply Forall_cons; split); try apply Forall_nil;
        vm_compute; auto.
    + lia.
    + apply Hfew; vm_compute; lia.
  - destruct (reconstruct_too_few_shards 2 1 exampleOptions exampleCoder exampleCoder
                [mkSlice [] [x01; x02]; nilSlice; nilSlice] 2) as [_ Hnone].
    + vm_compute. reflexivity.
    + constructor.
    + reflexivity.
    + unfold emptyOr. repeat (apply Forall_cons; split); try apply Forall_nil;
        vm_compute; auto.
    + lia.
    + apply Hnone. reflexivity.
Defined.

(** C8, as the claim words it, fails: when every shard is empty, fewer than
    D shards are non-empty, and both calls fail with ShardNoData. *)
Lemma reconstruct_all_empty_fails_ShardNoData :
  let shards := [nilSlice; nilSlice; nilSlice] in
  length shards = Shards exampleCoder
  ∧ emptyOr 2 shards
  ∧ length (present shards) < DataShards exampleCoder
  ∧ Reconstruct exampleCoder shards = Err ErrShardNoData
  ∧ ReconstructData exampleCoder shards = Err ErrShardNoData
  ∧ Reconstruct exampleCoder shards ≠ Err ErrTooFewShards
  ∧ ReconstructData exampleCoder shards ≠ Err ErrTooFewShards.
Proof.
  simpl. split; [reflexivity|].
  split; [unfold emptyOr; repeat (apply Forall_cons; split); try apply Forall_nil;
          vm_compute; auto|].
  split; [vm_compute; lia|]. repeat split; try reflexivity; discriminate.
Qed.

(** * The scan for valid rows *)

Lemma presentIndices_S shards n :
  presentIndices shards (S n)
  = presentIndices shards n
    ++ (if bool_decide (len (shards !!! n) ≠ 0) then [n] else []).
Proof.
  unfold presentIndices. rewrite seq_S, filter_app, filter_cons, filter_nil.
  simpl. by case_decide; case_bool_decide.
Qed.

Lemma missingIndices_S shards n :
  missingIndices shards (S n)
  = missingIndices shards n
    ++ (if bool_decide (len (shards !!! n) ≠ 0) then [] else [n]).
Proof.
  unfold missingIndices. rewrite seq_S, filter_app, filter_cons, filter_nil.
  simpl. case_decide; case_bool_decide; done || lia.
Qed.

Lemma length_indices shards n :
  length (presentIndices shards n) + length (missingIndices shards n) = n.
Proof.
  induction n as [|n IH]; [done|].
  rewrite presentIndices_S, missingIndices_S, !length_app.
  case_bool_decide; simpl; lia.
Qed.

Lemma length_presentIndices shards n :
  n ≤ length shards →
  length (presentIndices shards n) = length (present (take n shards)).
Proof.
  induction n as [|n IH]; intros Hn; [done|].
  rewrite presentIndices_S, take_S_total, present_snoc, !length_app, IH by lia.
  by case_bool_decide.
Qed.

Lemma length_indices_mono_present shards n k :
  n ≤ k → length (presentIndices shards n) ≤ length (presentIndices shards k).
Proof.
  induction 1 as [|k _ IH]; [done|].
  rewrite presentIndices_S, length_app. lia.
Qed.

Lemma length_indices_mono_missing shards n k :
  n ≤ k → length (missingIndices shards n) ≤ length (missingIndices shards k).
Proof.
  induction 1 as [|k _ IH]; [done|].
  rewrite missingIndices_S, length_app. lia.
Qed.

(** The scan stops after [t] rows: the valid rows are the present ones
    below [t], the invalid rows the missing ones below [t]. *)
Lemma scanRows_spec D shards : ∀ rest k sub valid invalid,
  rest = drop k shards → k ≤ length shards →
  valid = presentIndices shards k → invalid = missingIndices shards k →
  sub = (λ v, bytes (shards !!! v)) <$> valid →
  length valid ≤ D →
  ∃ t, scanRows D rest k sub valid invalid
       = ((λ v, bytes (shards !!! v)) <$> presentIndices shards t,
          presentIndices shards t, missingIndices shards t)
       ∧ t ≤ length shards
       ∧ length (presentIndices shards t) ≤ D
       ∧ (length (presentIndices shards t) = D ∨ t = length shards).
Proof.
  induction rest as [|s rest IH]; intros k sub valid invalid Hrest Hk -> -> -> HD.
  - exists k. simpl. split; [done|]. split; [done|]. split; [done|]. right.
    apply (f_equal length) in Hrest. rewrite length_drop in Hrest. simpl in Hrest. lia.
  - assert (Hklt : k < length shards).
    { apply (f_equal length) in Hrest. rewrite length_drop in Hrest. simpl in Hrest. lia. }
    assert (Hs : s = shards !!! k ∧ rest = drop (S k) shards).
    { rewrite (drop_S shards (shards !!! k) k) in Hrest.
      - by injection Hrest as -> ->.
      - by apply list_lookup_lookup_total_lt. }
    destruct Hs as [-> Hrest'].
    simpl. case_bool_decide as Hlt.
    + case_bool_decide as Hp.
      * apply IH; [done|lia|..].
        -- rewrite presentIndices_S, bool_decide_eq_true_2 by done. done.
        -- rewrite missingIndices_S, bool_decide_eq_true_2, app_nil_r by done. done.
        -- by rewrite fmap_app.
        -- rewrite length_app. simpl. lia.
      * apply IH; [done|lia|..].
        -- rewrite presentIndices_S, bool_decide_eq_false_2, app_nil_r by tauto. done.
        -- rewrite missingIndices_S, bool_decide_eq_false_2 by tauto. done.
        -- done.
        -- lia.
    + exists k. split; [done|]. split; [lia|]. split; [done|]. left. lia.
Qed.

Lemma NoDup_presentIndices shards n : NoDup (presentIndices shards n).
Proof. apply NoDup_filter, NoDup_seq. Qed.

Lemma NoDup_missingIndices shards n : NoDup (missingIndices shards n).
Proof. apply NoDup_filter, NoDup_seq. Qed.

Lemma elem_of_presentIndices shards n i :
  i ∈ presentIndices shards n ↔ len (shards !!! i) ≠ 0 ∧ i < n.
Proof.
  unfold presentIndices. rewrite list_elem_of_filter, elem_of_seq. intuition lia.
Qed.

Lemma elem_of_missingIndices shards n i :
  i ∈ missingIndices shards n ↔ len (shards !!! i) = 0 ∧ i < n.
Proof.
  unfold missingIndices. rewrite list_elem_of_filter, elem_of_seq. intuition lia.
Qed.

Lemma length_presentIndices_le shards n : length (presentIndices shards n) ≤ n.
Proof. pose proof (length_indices shards n). lia. Qed.

(** When enough shards are present the scan ends with [D] valid rows. *)
Lemma scanRows_run D shards :
  D ≤ length (presentIndices shards (length shards)) →
  ∃ t, scanRows D shards 0 [] [] []
       = ((λ v, bytes (shards !!! v)) <$> presentIndices shards t,
          presentIndices shards t, missingIndices shards t)
       ∧ t ≤ length shards
       ∧ length (presentIndices shards t) = D.
Proof.
  intros HD.
  destruct (scanRows_spec D shards shards 0 [] [] []) as (t & Hscan & Ht & Hle & Hend);
    try done; [simpl; lia..|].
  exists t. split; [done|]. split; [done|].
  destruct Hend as [?| ->]; [done|lia].
Qed.

Lemma filter_ext_in {A} (P1 P2 : A → Prop)
    `{!∀ x, Decision (P1 x), !∀ x, Decision (P2 x)} (l : list A) :
  (∀ x, x ∈ l → P1 x ↔ P2 x) → filter P1 l = filter P2 l.
Proof.
  induction l as [|a l IH]; intros Hl; [done|].
  rewrite !filter_cons, IH by (intros x Hx; apply Hl; by right).
  destruct (Hl a) as [H1 H2]; [by left|].
  repeat case_decide; done || tauto.
Qed.

(** The valid rows are determined by the invalid ones. *)
Lemma validFor_indices D shards t :
  length (presentIndices shards t) = D →
  validFor D (missingIndices shards t) = presentIndices shards t.
Proof.
  intros HD. unfold validFor.
  replace (D + length (missingIndices shards t)) with t
    by (pose proof (length_indices shards t); lia).
  unfold presentIndices. apply filter_ext_in.
  intros i Hi%elem_of_seq.
  rewrite elem_of_missingIndices. split; [|tauto].
  intros H1 H2. apply H1. split; [done|lia].
Qed.

(** * The decoding matrix *)

Lemma fmap_lookup_seq {A} `{!Inhabited A} (l : list A) n :
  length l = n → (λ c, l !!! c) <$> seq 0 n = l.
Proof.
  intros Hlen. apply list_eq_total; [by rewrite length_fmap, length_seq|].
  intros c Hc. rewrite length_fmap, length_seq in Hc.
  rewrite lookup_total_fmap_lt by (rewrite length_seq; lia).
  by rewrite lookup_total_seq.
Qed.

Lemma pickRows_square (M : matrix) D rows :
  length rows = D → squareShape D (pickRows M D rows).
Proof.
  intros Hlen. split; [by rewrite length_pickRows|].
  intros i Hi. unfold pickRows. map_to_fmap.
  rewrite lookup_total_fmap_lt by lia.
  by rewrite length_fmap, length_seq.
Qed.

Lemma mulVec_pickRows (M : matrix) D rows x :
  (∀ v, v ∈ rows → length (M !!! v) = D) →
  mulVec (pickRows M D rows) x = (λ v, dot (M !!! v) x) <$> rows.
Proof.
  intros Hrows. unfold mulVec, pickRows. map_to_fmap.
  rewrite <- list_fmap_compose. apply list_fmap_ext.
  intros k v Hv. simpl. rewrite fmap_lookup_seq; [done|].
  apply Hrows. by eapply list_elem_of_lookup_2.
Qed.

(** The rows of the inverse recover the data from the coded rows of the
    valid indices. *)
Lemma decoded_row (M B : matrix) D (valid : list nat) (data : list (list byte))
    size i :
  (∀ v, v ∈ valid → length (M !!! v) = D) →
  length data = D → (∀ c, c < D → length (data !!! c) = size) →
  (∀ d, length d = D → mulVec B (mulVec (pickRows M D valid) d) = d) →
  length B = D → i < D →
  codedRow (B !!! i) ((λ v, codedRow (M !!! v) data size) <$> valid) size
  = data !!! i.
Proof.
  intros Hrows Hdata Hsize Hinv HB Hi.
  apply list_eq_total; [rewrite length_codedRow; symmetry; by apply Hsize|].
  intros j Hj. rewrite length_codedRow in Hj. rewrite lookup_codedRow by done.
  assert (Hcol : column j ((λ v, codedRow (M !!! v) data size) <$> valid)
                 = mulVec (pickRows M D valid) (column j data)).
  { rewrite mulVec_pickRows by done. unfold column.
    rewrite <- list_fmap_compose. apply list_fmap_ext. intros k v Hv. simpl.
    by rewrite lookup_codedRow. }
  rewrite Hcol, <- lookup_mulVec by lia.
  rewrite Hinv by (by rewrite length_column).
  by rewrite lookup_column by lia.
Qed.

Lemma decodeMatrix_tree r valid invalid tree' ddm :
  decodeMatrix r valid invalid = Ok (tree', ddm) →
  treeOk r → valid = validFor (DataShards r) invalid →
  treeOk (withTree r tree') ∧ maxDepth tree' = maxDepth (tree r).
Proof.
  intros Hdec Hok ->. unfold decodeMatrix in Hdec.
  destruct (GetInvertedMatrix (tree r) invalid) as [cached|] eqn:Hget.
  - injection Hdec as <- <-. by rewrite withTree_eta.
  - fold (pickRows (m r) (DataShards r) (validFor (DataShards r) invalid)) in Hdec.
    destruct (Invert _) as [B| | |] eqn:Hinv; try done.
    rewrite bind_Ok in Hdec. unfold InsertInvertedMatrix in Hdec.
    rewrite Hget in Hdec. case_bool_decide; [done|].
    rewrite bind_Ok in Hdec. injection Hdec as <- <-. split; [|done].
    intros key cached. unfold withTree. simpl.
    destruct (decide (key = invalid)) as [->|Hne].
    + rewrite lookup_insert_eq. by intros [= <-].
    + rewrite lookup_insert_ne by done. apply Hok.
Qed.

Lemma decodeMatrix_ok r valid invalid :
  wellFormed r → anyRowsInvertible (DataShards r) (Shards r) (m r) →
  treeOk r → length invalid ≤ maxDepth (tree r) →
  valid = validFor (DataShards r) invalid →
  NoDup valid → length valid = DataShards r → (∀ v, v ∈ valid → v < Shards r) →
  ∃ tree' ddm,
    decodeMatrix r valid invalid = Ok (tree', ddm)
    ∧ (invalid ≠ [] →
       length ddm = DataShards r
       ∧ (∀ i, i < DataShards r → length (ddm !!! i) = DataShards r)
       ∧ ∀ d, length d = DataShards r →
           mulVec ddm (mulVec (pickRows (m r) (DataShards r) valid) d) = d).
Proof.
  intros Hwf Hany Hok Hdepth Hvalid Hnd Hlen Hlt. unfold decodeMatrix.
  pose proof Hwf as (HD & _).
  pose proof (pickRows_square (m r) (DataShards r) valid Hlen) as Hsq.
  destruct (GetInvertedMatrix (tree r) invalid) as [cached|] eqn:Hget.
  - do 2 eexists. split; [done|]. intros Hne.
    destruct invalid as [|a invalid]; [done|]. simpl in Hget.
    apply Hok in Hget. rewrite <- Hvalid in Hget.
    destruct (Invert_Ok _ _ _ HD Hsq Hget) as ((? & ?) & ? & _). done.
  - fold (pickRows (m r) (DataShards r) valid).
    destruct (Invert_nonsingular _ _ HD Hsq (Hany valid Hnd Hlen Hlt))
      as (B & -> & (? & ?) & ? & _).
    rewrite bind_Ok. unfold InsertInvertedMatrix. rewrite Hget.
    rewrite bool_decide_eq_false_2 by lia. rewrite bind_Ok.
    do 2 eexists. split; [done|]. done.
Qed.

(** * Coder states *)

Lemma New_default_matrix D P opts r :
  New D P opts = Ok r → useCauchy opts = false → usePAR1Matrix opts = false →
  systematic (DataShards r) (Shards r) (m r)
  ∧ anyRowsInvertible (DataShards r) (Shards r) (m r).
Proof.
  intros HNew HC HP. unfold New in HNew.
  repeat case_bool_decide; try done. rewrite HC, HP in HNew.
  destruct (buildMatrix_spec (Z.to_nat D) (Z.to_nat (D + P))) as (M & HM & ? & ?);
    [lia..|].
  rewrite HM, bind_Ok in HNew. by injection HNew as <-.
Qed.

(** Every inverse that [reconstruct] caches is the inverse for its key. *)
Lemma reachable_treeOk D P opts r0 r :
  New D P opts = Ok r0 → reachable r0 r →
  treeOk r ∧ maxDepth (tree r) = ParityShards r.
Proof.
  intros HNew Hr. induction Hr as [|r shards dataOnly r' shards' Hr IH Hrec].
  - destruct (New_wellFormed D P opts r0 HNew) as (_ & _ & Htree & _).
    unfold treeOk. rewrite Htree. split; [|done].
    intros key cached. simpl. by rewrite lookup_empty.
  - destruct IH as [Hok Hdepth].
    destruct (reachable_wellFormed D P opts r0 r HNew Hr) as (Hwf & _).
    destruct (reconstruct_Ok _ _ _ _ _ Hrec)
      as (Hlen & [[-> _]|(sub & valid & invalid & tree' & ddm & sh1
                          & Hscan & Hcount & Hdec & -> & _)]); [done|].
    rewrite countPresent_spec in Hcount by lia. simpl in Hcount.
    rewrite <- length_presentIndices, <- Hlen in Hcount by lia.
    destruct (scanRows_run (DataShards r) shards) as (t & Hscan' & Ht & HD); [done|].
    rewrite Hscan' in Hscan. injection Hscan as <- <- <-.
    destruct (decodeMatrix_tree _ _ _ _ _ Hdec Hok) as [? ?].
    { symmetry. by apply validFor_indices. }
    split; [done|]. simpl. congruence.
Qed.

(** * Encoded shards *)

(** Every shard of an encoded array is the product of its matrix row and
    the data. *)
Lemma encoded_rows r shards size encoded i :
  wellFormed r → validOptions (o r) →
  systematic (DataShards r) (Shards r) (m r) →
  length shards = Shards r → uniform size shards → 0 < size →
  Encode r shards = Ok encoded → i < Shards r →
  bytes (encoded !!! i) = codedRow (m r !!! i) (dataOf r shards) size.
Proof.
  intros Hwf Hopt (_ & _ & Htop) Hlen Hu Hsize HEnc Hi.
  pose proof Hwf as (HD & HP & HS & _).
  rewrite (Encode_spec r shards size) in HEnc by done. injection HEnc as <-.
  destruct (decide (i < DataShards r)) as [Hlt|Hge].
  - assert (Hsame : storeFrom (DataShards r) shards
                      (codedRows (parity r) (dataOf r shards) size) !!! i
                    = shards !!! i).
    { unfold storeFrom. rewrite lookup_total_app_l by (rewrite length_take; lia).
      rewrite lookup_total_take_lt; [done|lia]. }
    rewrite Hsame, Htop by done.
    apply list_eq_total.
    + rewrite length_codedRow. apply (uniform_lookup size shards i); [done|lia].
    + intros j Hj.
      assert (Hjs : j < size).
      { pose proof (uniform_lookup size shards i Hu). unfold len in *. lia. }
      rewrite lookup_codedRow by done.
      rewrite dot_unitVec by (done || rewrite length_column, length_dataOf; lia).
      rewrite lookup_column by (rewrite length_dataOf; lia).
      by rewrite lookup_dataOf by lia.
  - replace i with (DataShards r + (i - DataShards r)) at 1 by lia.
    rewrite lookup_storeFrom.
    + rewrite lookup_codedRows by (rewrite length_parity by done; lia).
      rewrite lookup_parity by (done || lia).
      by replace (DataShards r + (i - DataShards r)) with i by lia.
    + lia.
    + rewrite length_codedRows, length_parity by done. lia.
    + rewrite length_codedRows, length_parity by done. lia.
    + rewrite (uniform_lookup size) by (done || lia). lia.
Qed.

Lemma codedRow_unitVec D i (data : list (list byte)) size :
  i < D → length data = D → length (data !!! i) = size →
  codedRow (unitVec D i) data size = data !!! i.
Proof.
  intros Hi Hdata Hsize. apply list_eq_total; [by rewrite length_codedRow|].
  intros j Hj. rewrite length_codedRow in Hj.
  rewrite lookup_codedRow by done.
  rewrite dot_unitVec by (done || by rewrite length_column).
  by rewrite lookup_column by lia.
Qed.

(** * A run of reconstruct *)

Lemma present_all shards :
  length (present shards) = length shards → Forall (λ s, len s ≠ 0) shards.
Proof.
  induction shards as [|s shards IH]; intros H; [done|].
  unfold present in *. rewrite filter_cons in H. case_decide as Hs.
  - simpl in H. constructor; [done|]. apply IH. lia.
  - pose proof (length_filter (λ shard, len shard ≠ 0) shards). simpl in H. lia.
Qed.

Lemma present_whole shards :
  length (present shards) = length (presentIndices shards (length shards)).
Proof. by rewrite length_presentIndices, take_ge by done. Qed.

(** What [reconstruct] does to an array that it accepts: the shards that
    are present stay, the missing data shards are computed with the rows of
    a left inverse [B] of the sub-matrix of the first [DataShards] present
    rows, and, unless [dataOnly], the missing parity is computed from the
    data. *)
Lemma reconstruct_run r lost size dataOnly :
  wellFormed r → validOptions (o r) →
  anyRowsInvertible (DataShards r) (Shards r) (m r) →
  treeOk r → maxDepth (tree r) = ParityShards r →
  length lost = Shards r → emptyOr size lost → 0 < size →
  DataShards r ≤ length (present lost) →
  ∃ tree' recovered t B,
    reconstruct r lost dataOnly = Ok (withTree r tree', recovered)
    ∧ length recovered = Shards r
    ∧ t ≤ Shards r
    ∧ length (presentIndices lost t) = DataShards r
    ∧ (missingIndices lost t ≠ [] →
       length B = DataShards r
       ∧ ∀ d, length d = DataShards r →
           mulVec B (mulVec (pickRows (m r) (DataShards r) (presentIndices lost t)) d)
           = d)
    ∧ ∀ i, i < Shards r →
        recovered !!! i
        = if decide (len (lost !!! i) ≠ 0) then lost !!! i
          else if decide (i < DataShards r) then
            setBytes (sizedBuffer size (lost !!! i))
              (codedRow (B !!! i)
                 ((λ v, bytes (lost !!! v)) <$> presentIndices lost t) size)
          else if dataOnly then lost !!! i
          else
            setBytes (sizedBuffer size (lost !!! i))
              (codedRow (parity r !!! (i - DataShards r))
                 (bytes <$> take (DataShards r) recovered) size).
Proof.
  intros Hwf Hopt Hany Htree Hdepth Hll Hemp Hsize Hpg.
  pose proof Hwf as (HD & HP & HS & _).
  assert (Hpos : 0 < length (present lost)) by lia.
  rewrite present_whole in Hpg.
  destruct (scanRows_run (DataShards r) lost Hpg) as (t & Hscan & Ht & Hvalid).
  remember (presentIndices lost t) as valid eqn:Evalid.
  remember (missingIndices lost t) as invalid eqn:Einvalid.
  assert (HDt : DataShards r ≤ t).
  { rewrite <- Hvalid, Evalid. apply length_presentIndices_le. }
  assert (Hvlt : ∀ v, v ∈ valid → len (lost !!! v) ≠ 0 ∧ v < Shards r).
  { intros v Hv. rewrite Evalid in Hv.
    apply elem_of_presentIndices in Hv as [? ?]. split; [done|lia]. }
  assert (Hmiss : length invalid ≤ ParityShards r).
  { pose proof (length_indices lost t) as Hsum.
    rewrite <- Evalid, <- Einvalid in Hsum. lia. }
  destruct (decodeMatrix_ok r valid invalid) as (tree' & B & Hdec & HB); try done.
  { by rewrite Hdepth. }
  { rewrite Evalid, Einvalid. symmetry. apply validFor_indices. by rewrite <- Evalid. }
  { rewrite Evalid. apply NoDup_presentIndices. }
  { intros v Hv. by apply Hvlt. }
  assert (HB' : invalid ≠ [] →
            length B = DataShards r
            ∧ ∀ d, length d = DataShards r →
                mulVec B (mulVec (pickRows (m r) (DataShards r) valid) d) = d).
  { intros Hne. destruct (HB Hne) as (? & _ & ?). done. }
  unfold reconstruct.
  rewrite bool_decide_eq_false_2 by (intros ?; done).
  rewrite (checkShards_emptyOr size), (shardSize_emptyOr size) by done.
  rewrite countPresent_spec by lia.
  rewrite (take_ge lost (Shards r)) by lia.
  rewrite (take_ge (take (DataShards r) lost)) by (rewrite length_take; lia).
  cbv beta iota zeta.
  destruct (bool_decide (length (present lost) = Shards r)
            || dataOnly && bool_decide (length (present (take (DataShards r) lost))
                                        = DataShards r)) eqn:Hearly.
  { exists (tree r), lost, t, B. rewrite withTree_eta, <- Evalid, <- Einvalid.
    split; [done|]. split; [done|]. split; [lia|]. split; [done|]. split; [done|].
    intros i Hi. destruct (decide (len (lost !!! i) ≠ 0)) as [Hp|Hp]; [done|].
    apply orb_true_iff in Hearly as [Hall|Hdata].
    - apply bool_decide_eq_true in Hall. rewrite <- Hll in Hall.
      apply present_all in Hall.
      assert (Hi' : i < length lost) by lia.
      pose proof (Forall_lookup_1 _ _ i _ Hall (list_lookup_lookup_total_lt _ _ Hi')).
      done.
    - apply andb_true_iff in Hdata as [-> Hdata].
      apply bool_decide_eq_true in Hdata.
      destruct (decide (i < DataShards r)) as [Hlt|Hlt]; [|done]. exfalso.
      assert (Hlt' : length (take (DataShards r) lost) = DataShards r)
        by (rewrite length_take; lia).
      rewrite <- Hlt' in Hdata at 2. apply present_all in Hdata.
      assert (Hi' : i < length (take (DataShards r) lost)) by lia.
      pose proof (Forall_lookup_1 _ _ i _ Hdata (list_lookup_lookup_total_lt _ _ Hi'))
        as Hpi.
      simpl in Hpi. rewrite lookup_total_take_lt in Hpi by lia. done. }
  rewrite bool_decide_eq_false_2 by (rewrite present_whole; lia).
  rewrite Hscan. cbv beta iota zeta. rewrite Hdec, bind_Ok. cbv beta iota.
  cbn [DataShards Shards parity withTree].
  remember (withTree r tree') as r' eqn:Er'.
  assert (Hor' : o r' = o r) by (by subst r').
  assert (HDr' : DataShards r' = DataShards r) by (by subst r').
  remember ((λ v, bytes (lost !!! v)) <$> valid) as sub eqn:Esub.
  destruct (recoverShards_spec r' size (seq 0 (DataShards r))
              (λ iShard, B !!! iShard) (λ _, sub) sub lost)
    as (sh1 & Hrec1 & Hlen1 & Hlook1); try done.
  { by rewrite Hor'. }
  { by rewrite HDr'. }
  { apply NoDup_seq. }
  { intros i Hi%elem_of_seq. lia. }
  { rewrite HDr', Esub, length_fmap. done. }
  { intros c Hc. rewrite HDr' in Hc. rewrite Esub.
    rewrite lookup_total_fmap_lt by (by rewrite Hvalid).
    assert (Hel : valid !!! c ∈ valid)
      by (apply list_elem_of_lookup_total_2; by rewrite Hvalid).
    apply Hvlt in Hel as [Hp Hlt].
    assert (Hlt' : valid !!! c < length lost) by lia.
    pose proof (Forall_lookup_1 _ _ _ _ Hemp (list_lookup_lookup_total_lt _ _ Hlt'))
      as Hv.
    simpl in Hv. unfold len in *. lia. }
  { intros i Hi%elem_of_seq Hz. rewrite HDr'.
    destruct (HB ltac:(intros Hnil;
                assert (Hin : i ∈ invalid)
                  by (rewrite Einvalid; apply elem_of_missingIndices; split; [done|lia]);
                rewrite Hnil in Hin; by apply elem_of_nil in Hin)) as (_ & Hrow & _).
    apply Hrow. lia. }
  rewrite Hrec1, bind_Ok.
  assert (Hdata1 : ∀ i, i < DataShards r →
            sh1 !!! i
            = if decide (len (lost !!! i) ≠ 0) then lost !!! i
              else setBytes (sizedBuffer size (lost !!! i))
                     (codedRow (B !!! i) sub size)).
  { intros i Hi. rewrite Hlook1 by lia.
    destruct (decide (len (lost !!! i) ≠ 0)) as [Hp|Hp].
    - rewrite decide_False; [done|]. by intros [_ ?].
    - rewrite decide_True; [done|]. split; [apply elem_of_seq; lia|lia]. }
  assert (Hpar1 : ∀ i, DataShards r ≤ i → i < Shards r → sh1 !!! i = lost !!! i).
  { intros i Hi1 Hi2. rewrite Hlook1 by lia. rewrite decide_False; [done|].
    intros [Hin%elem_of_seq _]. lia. }
  destruct dataOnly.
  { exists tree', sh1, t, B. rewrite <- Evalid, <- Einvalid, <- Esub, <- Er'.
    split; [done|]. split; [lia|]. split; [lia|].
    split; [done|]. split; [done|]. intros i Hi.
    destruct (decide (i < DataShards r)) as [Hlt|Hge].
    - rewrite Hdata1 by done. by destruct (decide (len (lost !!! i) ≠ 0)).
    - rewrite Hpar1 by lia. by destruct (decide (len (lost !!! i) ≠ 0)). }
  assert (Hlen1' : ∀ c, c < DataShards r → len (sh1 !!! c) = size).
  { intros c Hc. rewrite Hdata1 by done.
    destruct (decide (len (lost !!! c) ≠ 0)) as [Hp|Hp].
    - assert (Hc' : c < length lost) by lia.
      pose proof (Forall_lookup_1 _ _ _ _ Hemp (list_lookup_lookup_total_lt _ _ Hc'))
        as Hv.
      simpl in Hv. lia.
    - destruct (sizedBuffer_shape size (lost !!! c) Hsize) as (e & sp & -> & _); [lia|].
      unfold len. simpl. apply length_codedRow. }
  destruct (recoverShards_spec r' size (seq (DataShards r) (Shards r - DataShards r))
              (λ iShard, parity r !!! (iShard - DataShards r))
              (λ shards0, bytes <$> take (DataShards r) shards0)
              (bytes <$> take (DataShards r) sh1) sh1)
    as (sh2 & Hrec2 & Hlen2 & Hlook2); try done.
  { by rewrite Hor'. }
  { by rewrite HDr'. }
  { apply NoDup_seq. }
  { intros i Hi%elem_of_seq. lia. }
  { intros sh Hlsh Hsame. f_equal. apply list_eq_total.
    - rewrite !length_take. lia.
    - intros c Hc. rewrite length_take in Hc.
      rewrite !lookup_total_take_lt by lia.
      apply Hsame. rewrite elem_of_seq. lia. }
  { rewrite HDr', length_fmap, length_take. lia. }
  { intros c Hc. rewrite HDr' in Hc.
    rewrite lookup_total_fmap_lt by (rewrite length_take; lia).
    rewrite lookup_total_take_lt by lia. by apply Hlen1'. }
  { intros i Hi%elem_of_seq _. rewrite HDr'.
    apply (length_parity_row r); [done|lia]. }
  rewrite Hrec2, bind_Ok. exists tree', sh2, t, B.
  rewrite <- Evalid, <- Einvalid, <- Esub, <- Er'.
  split; [done|]. split; [lia|]. split; [lia|]. split; [done|]. split; [done|].
  assert (Htake : take (DataShards r) sh2 = take (DataShards r) sh1).
  { apply list_eq_total; [rewrite !length_take; lia|].
    intros c Hc. rewrite length_take in Hc.
    rewrite !lookup_total_take_lt by lia. rewrite Hlook2 by lia.
    rewrite decide_False; [done|]. intros [Hin%elem_of_seq _]. lia. }
  rewrite Htake. intros i Hi. rewrite Hlook2 by lia.
  destruct (decide (i < DataShards r)) as [Hlt|Hge].
  - rewrite decide_False by (intros [Hin%elem_of_seq _]; lia).
    rewrite Hdata1 by done. by destruct (decide (len (lost !!! i) ≠ 0)).
  - rewrite Hpar1 by lia.
    destruct (decide (len (lost !!! i) ≠ 0)) as [Hp|Hp].
    + rewrite decide_False; [done|]. by intros [_ ?].
    + rewrite decide_True; [done|]. split; [apply elem_of_seq; lia|lia].
Qed.

(** * Reconstruction *)

Section reconstruction.
Variables (r : ReedSolomon) (shards encoded : list slice) (size : nat).
Hypothesis Hwf : wellFormed r.
Hypothesis Hopt : validOptions (o r).
Hypothesis Hlen : length shards = Shards r.
Hypothesis Hu : uniform size shards.
Hypothesis Hsize : 0 < size.
Hypothesis HEnc : Encode r shards = Ok encoded.

Lemma length_encoded : length encoded = Shards r.
Proof.
  rewrite (Encode_spec r shards size) in HEnc by done. injection HEnc as <-.
  rewrite length_storeFrom; [done|].
  rewrite length_codedRows, length_parity by done.
  destruct Hwf as (? & ? & ? & _). lia.
Qed.

Lemma length_data : length (dataOf r shards) = DataShards r.
Proof. apply length_dataOf. destruct Hwf as (? & ? & ? & _). lia. Qed.

Lemma length_data_row c :
  c < DataShards r → length (dataOf r shards !!! c) = size.
Proof.
  intros Hc. destruct Hwf as (? & ? & ? & _).
  rewrite lookup_dataOf by lia. apply (uniform_lookup size shards c Hu). lia.
Qed.

Hypothesis Hsys : systematic (DataShards r) (Shards r) (m r).

Lemma bytes_encoded i :
  i < Shards r →
  bytes (encoded !!! i) = codedRow (m r !!! i) (dataOf r shards) size.
Proof. intros Hi. by apply (encoded_rows r shards size encoded i). Qed.

Lemma bytes_encoded_data i :
  i < DataShards r → bytes (encoded !!! i) = dataOf r shards !!! i.
Proof.
  intros Hi. destruct Hwf as (? & ? & ? & _). destruct Hsys as (_ & _ & Htop).
  rewrite bytes_encoded by lia. rewrite Htop by done.
  apply codedRow_unitVec; [done|apply length_data|by apply length_data_row].
Qed.

Lemma len_encoded i : i < Shards r → len (encoded !!! i) = size.
Proof.
  intros Hi. unfold len. by rewrite bytes_encoded, length_codedRow.
Qed.

Variables (lost : list slice) (E : list nat).
Hypothesis HE : length E ≤ ParityShards r.
Hypothesis Hlost : erased E encoded lost.

Lemma length_lost : length lost = Shards r.
Proof. destruct Hlost as [-> _]. apply length_encoded. Qed.

Lemma lost_present i :
  i < Shards r → len (lost !!! i) ≠ 0 → lost !!! i = encoded !!! i.
Proof.
  intros Hi Hp. destruct Hlost as [_ Hl].
  specialize (Hl i). rewrite length_encoded in Hl. specialize (Hl Hi).
  by case_decide.
Qed.

Lemma lost_emptyOr : emptyOr size lost.
Proof.
  apply Forall_lookup. intros i s Hs.
  pose proof (lookup_lt_Some _ _ _ Hs) as Hi. rewrite length_lost in Hi.
  apply list_lookup_total_correct in Hs as <-.
  destruct (decide (len (lost !!! i) = 0)) as [?|Hp]; [by left|right].
  rewrite lost_present by done. by apply len_encoded.
Qed.

Lemma missing_le n :
  n ≤ Shards r → length (missingIndices lost n) ≤ ParityShards r.
Proof.
  intros Hn. etrans; [|apply HE]. apply submseteq_length, NoDup_submseteq.
  - apply NoDup_missingIndices.
  - intros i [Hi Hin]%elem_of_missingIndices. destruct Hlost as [_ Hl].
    specialize (Hl i). rewrite length_encoded in Hl.
    destruct (decide (i ∈ E)) as [|Hni]; [done|].
    rewrite Hl, len_encoded in Hi by lia. lia.
Qed.

Lemma present_ge :
  DataShards r ≤ length (presentIndices lost (length lost)).
Proof.
  rewrite length_lost. pose proof (length_indices lost (Shards r)).
  pose proof (missing_le (Shards r)). destruct Hwf as (? & ? & ? & _). lia.
Qed.

Lemma present_count :
  length (present lost) = length (presentIndices lost (length lost)).
Proof. by rewrite length_presentIndices, take_ge by done. Qed.

Hypothesis Hany : anyRowsInvertible (DataShards r) (Shards r) (m r).
Hypothesis Htree : treeOk r.
Hypothesis Hdepth : maxDepth (tree r) = ParityShards r.

Lemma reconstruct_restores :
  ∃ tree' recovered,
    reconstruct r lost false = Ok (withTree r tree', recovered)
    ∧ length recovered = Shards r
    ∧ ∀ i, i < Shards r → bytes (recovered !!! i) = bytes (encoded !!! i).
Proof using All.
  pose proof Hwf as (HD & HP & HS & _).
  pose proof length_lost as Hll. pose proof present_ge as Hpg.
  pose proof lost_emptyOr as Hemp.
  assert (Hpos : 0 < length (present lost)) by (rewrite present_count; lia).
  unfold reconstruct.
  rewrite bool_decide_eq_false_2 by (intros ?; done).
  rewrite (checkShards_emptyOr size), (shardSize_emptyOr size) by done.
  rewrite countPresent_spec by lia.
  rewrite (take_ge lost (Shards r)) by lia. cbv beta iota zeta.
  cbn [andb]. rewrite orb_false_r.
  case_bool_decide as Hall.
  { exists (tree r), lost. rewrite withTree_eta. split; [done|]. split; [done|].
    intros i Hi. rewrite lost_present; [done..|].
    rewrite present_count in Hall.
    pose proof (length_indices lost (length lost)) as Hsum.
    assert (Hnil : missingIndices lost (length lost) = [])
      by (apply length_zero_iff_nil; lia).
    intros Hz. assert (Hin : i ∈ missingIndices lost (length lost))
      by (apply elem_of_missingIndices; split; [done|lia]).
    rewrite Hnil in Hin. by apply elem_of_nil in Hin. }
  rewrite bool_decide_eq_false_2 by (rewrite present_count; lia).
  destruct (scanRows_run (DataShards r) lost Hpg) as (t & -> & Ht & Hvalid).
  cbv beta iota zeta.
  set (valid := presentIndices lost t) in *.
  set (invalid := missingIndices lost t) in *.
  set (data := dataOf r shards).
  assert (HDt : DataShards r ≤ t).
  { rewrite <- Hvalid. apply length_presentIndices_le. }
  assert (Hvlt : ∀ v, v ∈ valid → len (lost !!! v) ≠ 0 ∧ v < Shards r).
  { intros v [? ?]%elem_of_presentIndices. split; [done|lia]. }
  destruct (decodeMatrix_ok r valid invalid) as (tree' & ddm & -> & Hddm); try done.
  { rewrite Hdepth. apply missing_le. lia. }
  { symmetry. by apply validFor_indices. }
  { apply NoDup_presentIndices. }
  { intros v Hv. by apply Hvlt. }
  rewrite bind_Ok. cbv beta iota. cbn [DataShards Shards parity withTree].
  set (r' := withTree r tree').
  assert (Hsub : (λ v, bytes (lost !!! v)) <$> valid
                 = (λ v, codedRow (m r !!! v) data size) <$> valid).
  { apply list_fmap_ext. intros k v Hv%list_elem_of_lookup_2.
    apply Hvlt in Hv as [? ?]. rewrite lost_present by done.
    by apply bytes_encoded. }
  rewrite Hsub.
  set (sub := (λ v, codedRow (m r !!! v) data size) <$> valid).
  destruct (recoverShards_spec r' size (seq 0 (DataShards r))
              (λ iShard, ddm !!! iShard) (λ _, sub) sub lost)
    as (sh1 & -> & Hlen1 & Hlook1); try done.
  { apply NoDup_seq. }
  { intros i Hi%elem_of_seq. lia. }
  { unfold sub. by rewrite length_fmap. }
  { intros c Hc. unfold sub. rewrite lookup_total_fmap_lt by (by rewrite Hvalid).
    apply length_codedRow. }
  { intros i Hi%elem_of_seq Hz. apply Hddm; [|lia].
    intros Hnil. assert (Hin : i ∈ invalid)
      by (apply elem_of_missingIndices; split; [done|lia]).
    rewrite Hnil in Hin. by apply elem_of_nil in Hin. }
  rewrite bind_Ok.
  assert (Hset : ∀ s x, len s = 0 → bytes (setBytes (sizedBuffer size s) x) = x).
  { intros s x Hz. by destruct (sizedBuffer_shape size s Hsize Hz) as (? & ? & -> & _). }
  assert (Hdata1 : ∀ i, i < DataShards r → bytes (sh1 !!! i) = data !!! i).
  { intros i Hi. rewrite Hlook1 by lia. case_decide as Hmiss.
    - destruct Hmiss as [_ Hz]. rewrite Hset by done.
      destruct Hddm as (HlenB & _ & Hinv).
      { intros Hnil. assert (Hin : i ∈ invalid)
          by (apply elem_of_missingIndices; split; [done|lia]).
        rewrite Hnil in Hin. by apply elem_of_nil in Hin. }
      apply (decoded_row (m r) ddm (DataShards r)); try done.
      + intros v Hv. destruct Hwf as (_ & _ & _ & _ & _ & Hrow & _).
        apply Hrow. by apply Hvlt.
      + apply length_data.
      + apply length_data_row.
    - rewrite lost_present, bytes_encoded_data; [done|done|lia|].
      intros Hz. apply Hmiss. split; [|done]. apply elem_of_seq. lia. }
  assert (Hpar1 : ∀ i, DataShards r ≤ i → i < Shards r → sh1 !!! i = lost !!! i).
  { intros i Hi1 Hi2. rewrite Hlook1 by lia. rewrite decide_False; [done|].
    intros [Hin%elem_of_seq _]. lia. }
  destruct (recoverShards_spec r' size (seq (DataShards r) (Shards r - DataShards r))
              (λ iShard, parity r !!! (iShard - DataShards r))
              (λ shards0, bytes <$> take (DataShards r) shards0) data sh1)
    as (sh2 & -> & Hlen2 & Hlook2); try done.
  { apply NoDup_seq. }
  { intros i Hi%elem_of_seq. lia. }
  { intros sh Hlsh Hsame. apply list_eq_total.
    - unfold data. rewrite length_fmap, length_take, length_data. lia.
    - intros c Hc. rewrite length_fmap, length_take in Hc.
      rewrite lookup_total_fmap_lt by (rewrite length_take; lia).
      rewrite lookup_total_take_lt by lia.
      rewrite Hsame by (rewrite elem_of_seq; lia). apply Hdata1. lia. }
  { apply length_data. }
  { apply length_data_row. }
  { intros i Hi%elem_of_seq _. apply (length_parity_row r); [done|lia]. }
  rewrite bind_Ok. exists tree', sh2. split; [done|].
  split; [lia|]. intros i Hi. rewrite Hlook2 by lia. case_decide as Hmiss.
  - destruct Hmiss as [Hin%elem_of_seq Hz]. rewrite Hset by done.
    rewrite bytes_encoded, lookup_parity by (done || lia).
    by replace (DataShards r + (i - DataShards r)) with i by lia.
  - destruct (decide (i < DataShards r)) as [Hlt|Hge].
    + by rewrite Hdata1, bytes_encoded_data.
    + rewrite Hpar1 by lia. rewrite lost_present; [done|done|].
      intros Hz. apply Hmiss. split; [apply elem_of_seq; lia|].
      by rewrite Hpar1 by lia.
Qed.

(** With [dataOnly] the data shards are restored and the parity entries
    are returned as they were given. *)
Lemma reconstruct_restores_data :
  ∃ tree' recovered,
    reconstruct r lost true = Ok (withTree r tree', recovered)
    ∧ length recovered = Shards r
    ∧ (∀ i, i < DataShards r → bytes (recovered !!! i) = bytes (encoded !!! i))
    ∧ ∀ i, DataShards r ≤ i → i < Shards r → recovered !!! i = lost !!! i.
Proof using All.
  pose proof Hwf as (HD & HP & HS & _ & _ & Hrows & _).
  pose proof length_lost as Hll. pose proof present_ge as Hpg.
  pose proof lost_emptyOr as Hemp. rewrite <- present_count in Hpg.
  destruct (reconstruct_run r lost size true)
    as (tree' & recovered & t & B & Hrun & Hlen' & Ht & Hvalid & HB & Hlook);
    try done.
  exists tree', recovered. split; [done|]. split; [done|]. split.
  - intros i Hi. rewrite Hlook by lia.
    destruct (decide (len (lost !!! i) ≠ 0)) as [Hp|Hp].
    { by rewrite lost_present by (done || lia). }
    rewrite decide_True by done.
    rewrite bytes_sizedBuffer by (done || lia).
    assert (HDt : DataShards r ≤ t).
    { rewrite <- Hvalid. apply length_presentIndices_le. }
    destruct HB as [HlenB Hinv].
    { intros Hnil. assert (Hin : i ∈ missingIndices lost t)
        by (apply elem_of_missingIndices; split; [lia|lia]).
      rewrite Hnil in Hin. by apply elem_of_nil in Hin. }
    assert (Hsub : (λ v, bytes (lost !!! v)) <$> presentIndices lost t
                   = (λ v, codedRow (m r !!! v) (dataOf r shards) size)
                     <$> presentIndices lost t).
    { apply list_fmap_ext. intros k v Hv%list_elem_of_lookup_2.
      apply elem_of_presentIndices in Hv as [? ?].
      rewrite lost_present by (done || lia). apply bytes_encoded. lia. }
    rewrite Hsub, bytes_encoded_data by done.
    apply (decoded_row (m r) B (DataShards r)); try done.
    + intros v [? ?]%elem_of_presentIndices. apply Hrows. lia.
    + apply length_data.
    + apply length_data_row.
  - intros i Hi1 Hi2. rewrite Hlook by done.
    destruct (decide (len (lost !!! i) ≠ 0)); [done|].
    by rewrite decide_False by lia.
Qed.

End reconstruction.

Lemma fmap_bytes_eq (xs ys : list slice) :
  length xs = length ys →
  (∀ i, i < length ys → bytes (xs !!! i) = bytes (ys !!! i)) →
  bytes <$> xs = bytes <$> ys.
Proof.
  intros Hlen Hb. apply list_eq_total; [by rewrite !length_fmap|].
  intros i Hi. rewrite length_fmap in Hi.
  rewrite !lookup_total_fmap_lt by lia. apply Hb. lia.
Qed.

Lemma uniform_bytes size (xs ys : list slice) :
  bytes <$> xs = bytes <$> ys → uniform size ys → uniform size xs.
Proof.
  unfold uniform, len. intros Hb Hu. apply Forall_lookup. intros i x Hx.
  assert (Hi : (bytes <$> xs) !! i = Some (bytes x))
    by (by rewrite list_lookup_fmap, Hx).
  rewrite Hb, list_lookup_fmap in Hi.
  destruct (ys !! i) as [y|] eqn:Hy; [|done]. injection Hi as <-.
  by apply (Forall_lookup_1 _ _ _ _ Hu Hy).
Qed.

(** C1.  With the default matrix, take a shard array of length D+P with
    all shards of a common non-zero length and let Encode produce its
    parity.  Replace the shards at any at most P indices by empty shards.
    Then Reconstruct succeeds, every shard has its original bytes again,
    and Verify returns true.  This holds in every state of the coder's
    inversion tree that earlier reconstructions can have left. *)
Theorem Reconstruct_restores D P opts r0 r shards size encoded E lost :
  New D P opts = Ok r0 →
  useCauchy opts = false → usePAR1Matrix opts = false → validOptions opts →
  reachable r0 r →
  length shards = Shards r → uniform size shards → 0 < size →
  Encode r shards = Ok encoded →
  length E ≤ ParityShards r → erased E encoded lost →
  ∃ r' recovered,
    Reconstruct r lost = Ok (r', recovered)
    ∧ bytes <$> recovered = bytes <$> encoded
    ∧ Verify r' recovered = Ok true.
Proof.
  intros HNew HC HP Hopt Hr Hlen Hu Hsize HEnc HE Hlost.
  destruct (reachable_wellFormed D P opts r0 r HNew Hr) as (Hwf & Ho & Hm).
  destruct (reachable_treeOk D P opts r0 r HNew Hr) as (Htree & Hdepth).
  destruct (New_default_matrix D P opts r0 HNew HC HP) as (Hsys & Hany).
  apply reachable_fields in Hr as Hfields. destruct Hfields as [t0 Hr0].
  assert (Hsys' : systematic (DataShards r) (Shards r) (m r)) by (by subst r).
  assert (Hany' : anyRowsInvertible (DataShards r) (Shards r) (m r)) by (by subst r).
  rewrite <- Ho in Hopt.
  destruct (reconstruct_restores r shards encoded size)
    with (lost := lost) (E := E)
    as (tree' & recovered & Hrec & Hlenrec & Hbytes); try done.
  assert (Hlenenc : length encoded = Shards r)
    by (by apply (length_encoded r shards encoded size)).
  assert (Heq : bytes <$> recovered = bytes <$> encoded).
  { apply fmap_bytes_eq; [lia|]. intros i Hi. apply Hbytes. lia. }
  exists (withTree r tree'), recovered. split; [done|]. split; [done|].
  pose proof Hwf as (HD & HPar & HS & _).
  rewrite (Encode_spec r shards size) in HEnc by done. injection HEnc as HEnc.
  set (C := codedRows (parity r) (dataOf r shards) size) in *.
  assert (HlenC : length C = length shards - DataShards r).
  { unfold C. rewrite length_codedRows, length_parity by done. lia. }
  assert (Huenc : uniform size encoded).
  { subst encoded. apply uniform_storeFrom; try done; [lia|].
    intros i Hi. unfold C in *. rewrite length_codedRows in Hi.
    by rewrite lookup_codedRows, length_codedRow. }
  rewrite (Verify_spec _ _ size); try done.
  - f_equal. apply bool_decide_eq_true_2. cbn [DataShards parity withTree].
    unfold dataOf. cbn [DataShards withTree].
    rewrite fmap_drop, fmap_take, Heq, <- fmap_drop, <- fmap_take.
    subst encoded. rewrite (bytes_storeFrom _ _ _ size) by (done || lia).
    by rewrite take_storeFrom by lia.
  - by apply (uniform_bytes size recovered encoded).
Qed.

Lemma Reconstruct_restores_witness :
  ∃ r' recovered,
    Reconstruct exampleCoder exampleLost = Ok (r', recovered)
    ∧ bytes <$> recovered = bytes <$> exampleEncoded
    ∧ Verify r' recovered = Ok true.
Proof.
  apply (Reconstruct_restores 2 1 exampleOptions exampleCoder exampleCoder
           exampleShards 2 exampleEncoded [0] exampleLost).
  - vm_compute. reflexivity.
  - reflexivity.
  - reflexivity.
  - vm_compute. split; discriminate.
  - constructor.
  - reflexivity.
  - unfold uniform. repeat (apply Forall_cons; split); try apply Forall_nil;
      reflexivity.
  - lia.
  - vm_compute. reflexivity.
  - vm_compute. lia.
  - split; [reflexivity|]. intros [|[|[|i]]] Hi; vm_compute; reflexivity.
Defined.

(** * Split and Join *)

Lemma length_splitShards k p : ∀ B, length (splitShards k p B) = k.
Proof. induction k as [|k IH]; intros B; simpl; [done|by rewrite IH]. Qed.

Lemma concat_splitShards k p : ∀ B,
  concat (bytes <$> splitShards k p B) = take (k * p) B.
Proof.
  induction k as [|k IH]; intros B; [done|].
  simpl. rewrite IH. apply take_take_drop.
Qed.

Lemma take_splitShards n p : ∀ k B,
  n ≤ k → take n (splitShards k p B) = splitShards n p B.
Proof.
  induction n as [|n IH]; intros k B Hk; [done|].
  destruct k as [|k]; [lia|]. simpl. f_equal. apply IH. lia.
Qed.

Lemma splitShards_nonnil k p : ∀ B,
  Forall (λ s, isNil s = false) (splitShards k p B).
Proof. induction k as [|k IH]; intros B; simpl; constructor; [done|apply IH]. Qed.

Lemma len_splitShards k p : ∀ B,
  k * p ≤ length B → Forall (λ s, len s = p) (splitShards k p B).
Proof.
  induction k as [|k IH]; intros B HB; simpl; constructor.
  - unfold len. simpl. rewrite length_take. lia.
  - apply IH. rewrite length_drop. lia.
Qed.

Lemma totalLen_concat shards :
  totalLen shards = Z.of_nat (length (concat (bytes <$> shards))).
Proof.
  unfold totalLen. f_equal.
  induction shards as [|s shards IH]; [done|].
  rewrite !fmap_cons. simpl. rewrite length_app. f_equal. exact IH.
Qed.

Lemma totalLen_cons s shards :
  totalLen (s :: shards) = (Z.of_nat (len s) + totalLen shards)%Z.
Proof.
  unfold totalLen. rewrite fmap_cons.
  change (sum_list (len s :: (len <$> shards)))
    with (len s + sum_list (len <$> shards)).
  lia.
Qed.

Lemma totalLen_nonneg shards : (0 ≤ totalLen shards)%Z.
Proof. unfold totalLen. lia. Qed.

(** The first loop of [Join] on shards none of which is nil. *)
Lemma joinSize_nonnil shards : ∀ size out,
  Forall (λ s, isNil s = false) shards →
  ∃ size', joinSize shards size out = Ok size'
           ∧ ((size + totalLen shards >= out)%Z → (size' >= out)%Z)
           ∧ ((size + totalLen shards < out)%Z
              → size' = (size + totalLen shards)%Z).
Proof.
  induction shards as [|s shards IH]; intros size out Hnn.
  - exists size. unfold totalLen. simpl. split; [done|]. split; lia.
  - apply Forall_cons in Hnn as [Hs Hnn]. simpl. rewrite Hs.
    rewrite totalLen_cons. pose proof (totalLen_nonneg shards).
    case_bool_decide.
    + eexists. split; [done|]. split; lia.
    + destruct (IH (size + Z.of_nat (len s))%Z out Hnn) as (size' & -> & H1 & H2).
      exists size'. split; [done|]. split; intros ?; [apply H1|rewrite H2]; lia.
Qed.

(** The first loop of [Join] stops at a nil shard that comes before
    [outSize] bytes were seen. *)
Lemma joinSize_nil shards : ∀ size out k,
  k < length shards → isNil (shards !!! k) = true →
  (size + totalLen (take k shards) < out)%Z →
  joinSize shards size out = Err ErrReconstructRequired.
Proof.
  induction shards as [|s shards IH]; intros size out k Hk Hnil Hlt;
    [simpl in Hk; lia|].
  simpl. destruct (isNil s) eqn:Hs; [done|].
  destruct k as [|k]; [simpl in Hnil; congruence|].
  simpl in Hk, Hnil, Hlt. rewrite totalLen_cons in Hlt.
  pose proof (totalLen_nonneg (take k shards)).
  rewrite bool_decide_eq_false_2 by lia.
  apply (IH _ _ k); [lia|done|lia].
Qed.

(** The second loop of [Join] into a buffer: it appends the first [write]
    bytes of the shards. *)
Lemma joinWrite_buffer shards : ∀ (w : list byte) write,
  (0 ≤ write)%Z →
  joinWrite w shards write
  = Ok (w ++ take (Z.to_nat write) (concat (bytes <$> shards))).
Proof.
  induction shards as [|s shards IH]; intros w write Hw.
  - simpl. by rewrite take_nil, app_nil_r.
  - simpl. case_bool_decide as Hlt; unfold len in Hlt.
    + rewrite bool_decide_eq_false_2 by lia.
      rewrite take_app_le by lia. done.
    + rewrite IH by lia. rewrite take_app_ge by lia.
      rewrite <- app_assoc. repeat f_equal. lia.
Qed.

Lemma perShard_bounds n d :
  0 < d → 0 < n → 0 < (n + d - 1) / d ∧ n ≤ d * ((n + d - 1) / d).
Proof.
  intros Hd Hn.
  pose proof (Nat.div_mod_eq (n + d - 1) d) as Hdm.
  pose proof (Nat.mod_upper_bound (n + d - 1) d) as Hmod.
  split; nia.
Qed.

(** The buffer that [Split] cuts: the backing array of [data], padded with
    zeros to [Shards · perShard] bytes. *)
Lemma Split_Ok r data :
  0 < DataShards r → len data ≠ 0 →
  Split r data
  = Ok (splitShards (Shards r) ((len data + DataShards r - 1) / DataShards r)
          (backing data
           ++ replicate (Shards r * ((len data + DataShards r - 1) / DataShards r)
                         - cap data) x00)).
Proof.
  intros HD Hlen. unfold Split.
  rewrite !bool_decide_eq_false_2 by lia.
  assert (Hb : (if bool_decide (len data < cap data) then backing data else bytes data)
               = backing data).
  { case_bool_decide as Hc; [done|]. destruct data as [|elems spare]; [done|].
    unfold len, cap in Hc. simpl in *. rewrite length_app in Hc.
    destruct spare; [by rewrite app_nil_r|simpl in Hc; lia]. }
  rewrite Hb. clear Hb. fold (cap data). f_equal. f_equal.
  case_bool_decide as Hc; [done|].
  replace (_ - cap data) with 0 by lia. by rewrite app_nil_r.
Qed.

Lemma take_backing data n : n ≤ len data → take n (backing data) = take n (bytes data).
Proof.
  intros Hn. destruct data as [|elems spare]; [done|]. simpl.
  unfold len in Hn. simpl in Hn. by rewrite take_app_le.
Qed.

Lemma nonnil_of_len s : len s ≠ 0 → isNil s = false.
Proof. by destruct s. Qed.



(** C7, as the code has it.  Join fails with TooFewShards when fewer than D
    shards are supplied.  When at least D are supplied it fails with
    ReconstructRequired when shard 0 is nil, or when another of the first
    D shards is nil and the shards before it hold fewer than outSize bytes;
    and it fails with ShortData when none of the first D shards is nil and
    together they hold fewer than outSize bytes.  This is so for every
    writer. *)
Theorem Join_errors {W : Type} `{Writer W} r (dst : W) shards outSize :
  (length shards < DataShards r → Join r dst shards outSize = Err ErrTooFewShards)
  ∧ (0 < DataShards r → DataShards r ≤ length shards →
     isNil (shards !!! 0) = true →
     Join r dst shards outSize = Err ErrReconstructRequired)
  ∧ (∀ k, DataShards r ≤ length shards → k < DataShards r →
          isNil (shards !!! k) = true →
          (totalLen (take k shards) < outSize)%Z →
          Join r dst shards outSize = Err ErrReconstructRequired)
  ∧ (DataShards r ≤ length shards →
     Forall (λ s, isNil s = false) (take (DataShards r) shards) →
     (totalLen (take (DataShards r) shards) < outSize)%Z →
     Join r dst shards outSize = Err ErrShortData).
Proof.
  unfold Join. split; [|split; [|split]].
  - intros Hlt. by rewrite bool_decide_eq_true_2.
  - intros HD Hlen Hnil. rewrite bool_decide_eq_false_2 by lia.
    destruct shards as [|s shards]; [simpl in Hlen; lia|].
    destruct (DataShards r) as [|d]; [lia|].
    simpl in Hnil. simpl. by rewrite Hnil.
  - intros k Hlen Hk Hnil Hlt. rewrite bool_decide_eq_false_2 by lia.
    rewrite (joinSize_nil _ 0 outSize k); [done|..].
    + rewrite length_take. lia.
    + by rewrite lookup_total_take_lt.
    + rewrite take_take. by replace (k `min` DataShards r) with k by lia.
  - intros Hlen Hnn Hlt. rewrite bool_decide_eq_false_2 by lia.
    destruct (joinSize_nonnil _ 0 outSize Hnn) as (size' & -> & _ & Hsz).
    rewrite bind_Ok, Hsz by lia. by rewrite bool_decide_eq_true_2 by lia.
Qed.

Lemma Join_errors_witness :
  Join exampleCoder ([] : list byte) [mkSlice [x01] []] 2 = Err ErrTooFewShards
  ∧ Join exampleCoder ([] : list byte) [nilSlice; mkSlice [x01] []] 0
    = Err ErrReconstructRequired
  ∧ Join exampleCoder ([] : list byte) [mkSlice [x01] []; nilSlice] 2
    = Err ErrReconstructRequired
  ∧ Join exampleCoder ([] : list byte) [mkSlice [x01] []; mkSlice [x02] []] 3
    = Err ErrShortData.
Proof.
  split; [|split; [|split]].
  - apply (Join_errors exampleCoder ([] : list byte) [mkSlice [x01] []] 2).
    vm_compute. lia.
  - apply (Join_errors exampleCoder ([] : list byte) [nilSlice; mkSlice [x01] []] 0).
    + vm_compute. lia.
    + vm_compute. lia.
    + reflexivity.
  - apply (Join_errors exampleCoder ([] : list byte) [mkSlice [x01] []; nilSlice] 2)
      with (k := 1); vm_compute; reflexivity || lia.
  - apply (Join_errors exampleCoder ([] : list byte)
             [mkSlice [x01] []; mkSlice [x02] []] 3).
    + vm_compute. lia.
    + repeat constructor.
    + vm_compute. reflexivity.
Defined.

(** C7, as the claim words it, fails: a nil shard among the first D is no
    error once the shards before it hold outSize bytes, and a shard that
    is empty but not nil is no error at all. *)
Lemma Join_passes_nil_and_empty_shards :
  DataShards exampleCoder = 2
  ∧ isNil ([mkSlice [x01; x02] []; nilSlice] !!! 1) = true
  ∧ Join exampleCoder ([] : list byte) [mkSlice [x01; x02] []; nilSlice] 2
    = Ok [x01; x02]
  ∧ len ([mkSlice [] []; mkSlice [x01] []] !!! 0) = 0
  ∧ Join exampleCoder ([] : list byte) [mkSlice [] []; mkSlice [x01] []] 1
    = Ok [x01].
Proof. repeat split. Qed.

(** What [Join] appends to a buffer. *)
Lemma Join_buffer r (w : list byte) shards outSize :
  DataShards r ≤ length shards →
  Forall (λ s, isNil s = false) (take (DataShards r) shards) →
  (0 ≤ outSize ≤ totalLen (take (DataShards r) shards))%Z →
  Join r w shards outSize
  = Ok (w ++ take (Z.to_nat outSize)
               (concat (bytes <$> take (DataShards r) shards))).
Proof.
  intros Hlen Hnn Hout. unfold Join. rewrite bool_decide_eq_false_2 by lia.
  destruct (joinSize_nonnil _ 0 outSize Hnn) as (size' & -> & Hsz & _).
  rewrite bind_Ok, bool_decide_eq_false_2 by lia.
  apply joinWrite_buffer. lia.
Qed.

(** X3.  When none of the first DataShards shards is
    nil and they hold at least outSize ≥ 0 bytes, Join appends to a buffer
    exactly the first outSize bytes of these shards read one after the
    other; the shards after the first DataShards are not looked at. *)
Theorem Join_writes_prefix r (w : list byte) shards outSize :
  DataShards r ≤ length shards →
  Forall (λ s, isNil s = false) (take (DataShards r) shards) →
  (0 ≤ outSize ≤ totalLen (take (DataShards r) shards))%Z →
  Join r w shards outSize
  = Ok (w ++ take (Z.to_nat outSize)
               (concat (bytes <$> take (DataShards r) shards))).
Proof. apply Join_buffer. Qed.

Lemma Join_writes_prefix_witness :
  Join exampleCoder [xff]
    [mkSlice [x01; x02] []; mkSlice [x03; x04] []; nilSlice] 3
  = Ok [xff; x01; x02; x03].
Proof.
  apply (Join_writes_prefix exampleCoder [xff]
           [mkSlice [x01; x02] []; mkSlice [x03; x04] []; nilSlice] 3).
  - vm_compute. lia.
  - repeat constructor.
  - vm_compute. split; discriminate.
Defined.

(** What [Join] appends to a buffer when it is given what [Split] made of
    [data]. *)
Lemma Split_Join_buffer r data (w : list byte) :
  0 < DataShards r → DataShards r ≤ Shards r → len data ≠ 0 →
  ∃ shards,
    Split r data = Ok shards
    ∧ Join r w shards (Z.of_nat (len data)) = Ok (w ++ bytes data).
Proof.
  intros HD HS Hlen. rewrite Split_Ok by done.
  set (p := (len data + DataShards r - 1) / DataShards r).
  set (B := backing data ++ _).
  destruct (perShard_bounds (len data) (DataShards r)) as [Hp Hfit]; [lia..|].
  fold p in Hp, Hfit.
  assert (HB : Shards r * p ≤ length B).
  { unfold B. rewrite length_app, length_replicate. fold (cap data). lia. }
  assert (Hcap : len data ≤ cap data).
  { destruct data; unfold len, cap; simpl; rewrite ?length_app; lia. }
  eexists. split; [done|].
  assert (Htake : take (DataShards r) (splitShards (Shards r) p B)
                  = splitShards (DataShards r) p B) by (by apply take_splitShards).
  assert (HDB : DataShards r * p ≤ length B) by nia.
  unfold Join. rewrite length_splitShards, bool_decide_eq_false_2 by lia.
  rewrite Htake.
  destruct (joinSize_nonnil (splitShards (DataShards r) p B) 0
              (Z.of_nat (len data)) (splitShards_nonnil _ _ _))
    as (size' & -> & Hsz & _).
  rewrite bind_Ok. rewrite bool_decide_eq_false_2.
  2:{ rewrite totalLen_concat, concat_splitShards, length_take in Hsz. lia. }
  rewrite joinWrite_buffer by lia. do 2 f_equal.
  rewrite concat_splitShards, Nat2Z.id, take_take.
  replace (len data `min` (DataShards r * p)) with (len data) by lia.
  unfold B. rewrite take_app_le by (fold (cap data); lia).
  rewrite take_backing by done. by apply take_ge.
Qed.



(** C6.  For every coder that New has returned, in whatever state of its
    inversion tree, and every non-empty data, Split followed by Join with
    outSize = len(data) writes exactly the bytes of data to the sink. *)
Theorem Split_then_Join D P opts r0 r data (w : list byte) :
  New D P opts = Ok r0 → reachable r0 r → len data ≠ 0 →
  ∃ shards,
    Split r data = Ok shards
    ∧ Join r w shards (Z.of_nat (len data)) = Ok (w ++ bytes data).
Proof.
  intros HNew Hr Hlen.
  destruct (reachable_wellFormed D P opts r0 r HNew Hr) as ((HD & HP & HS & _) & _).
  apply Split_Join_buffer; [done|lia|done].
Qed.

Lemma Split_then_Join_witness :
  ∃ shards,
    Split exampleCoder (mkSlice [x01; x02; x03; x04; x05] []) = Ok shards
    ∧ Join exampleCoder [xff] shards 5 = Ok [xff; x01; x02; x03; x04; x05].
Proof.
  apply (Split_then_Join 2 1 exampleOptions exampleCoder exampleCoder
           (mkSlice [x01; x02; x03; x04; x05] []) [xff]).
  - vm_compute. reflexivity.
  - constructor.
  - vm_compute. lia.
Defined.

(** * SplitMulti *)

Lemma chunkCount_quot D subsize n :
  (0 < Z.of_nat D * subsize)%Z →
  (if bool_decide (Z.of_nat n `rem` (Z.of_nat D * subsize) ≠ 0)%Z
   then (Z.of_nat n `quot` (Z.of_nat D * subsize) + 1)%Z
   else (Z.of_nat n `quot` (Z.of_nat D * subsize))%Z)
  = chunkCount D subsize n.
Proof.
  intros Hc. unfold chunkCount. set (c := (Z.of_nat D * subsize)%Z) in *.
  rewrite Z.quot_div_nonneg, Z.rem_mod_nonneg by lia.
  pose proof (Z.div_mod (Z.of_nat n) c ltac:(lia)) as Hdm.
  pose proof (Z.mod_pos_bound (Z.of_nat n) c Hc) as Hm.
  case_bool_decide as Hr.
  - apply (Z.div_unique_pos _ _ _ (Z.of_nat n `mod` c - 1)); lia.
  - apply (Z.div_unique_pos _ _ _ (c - 1)); lia.
Qed.

Lemma chunkCount_nonneg D subsize n :
  (0 < Z.of_nat D * subsize)%Z → (0 ≤ chunkCount D subsize n)%Z.
Proof. intros Hc. unfold chunkCount. apply Z.div_pos; lia. Qed.

(** One round of the copy loop takes a whole chunk off the buffer, or all
    that is left of it. *)
Lemma chunkCount_drop D subsize n :
  (0 < Z.of_nat D * subsize)%Z → 0 < n →
  chunkCount D subsize (n - Z.to_nat (Z.of_nat D * subsize))
  = (chunkCount D subsize n - 1)%Z.
Proof.
  intros Hc Hn. unfold chunkCount. set (c := (Z.of_nat D * subsize)%Z) in *.
  destruct (decide (Z.of_nat n ≤ c)%Z) as [Hle|Hgt].
  - replace (n - Z.to_nat c) with 0 by lia.
    rewrite (Z.div_small (Z.of_nat 0 + c - 1)) by lia.
    assert (H1 : (1 = (Z.of_nat n + c - 1) `div` c)%Z)
      by (apply (Z.div_unique_pos _ _ _ (Z.of_nat n - 1)); lia).
    lia.
  - replace (Z.of_nat (n - Z.to_nat c)) with (Z.of_nat n - c)%Z by lia.
    replace (Z.of_nat n + c - 1)%Z with ((Z.of_nat n - c + c - 1) + 1 * c)%Z by lia.
    rewrite Z.div_add by lia. lia.
Qed.

Lemma extendShards_Err shardSize : ∀ shards,
  Exists (λ s, (Z.of_nat (cap s) < shardSize)%Z) shards →
  (0 ≤ shardSize)%Z →
  extendShards shardSize shards
  = Err (errorsNew "each shard must have capacity of at least len(data)/m").
Proof.
  induction shards as [|s shards IH]; intros Hex Hs.
  - by apply Exists_nil in Hex.
  - simpl. case_bool_decide as Hc; [done|].
    rewrite bool_decide_eq_false_2 by lia.
    apply Exists_cons in Hex as [?|Hex]; [done|]. by rewrite IH.
Qed.

Lemma len_resliceTo s n : n ≤ cap s → len (resliceTo s n) = n.
Proof.
  destruct s as [|elems spare]; unfold cap, len; simpl.
  - lia.
  - rewrite length_take. lia.
Qed.

Lemma cap_resliceTo s n : cap (resliceTo s n) = cap s.
Proof.
  destruct s as [|elems spare]; unfold cap; simpl; [done|].
  by rewrite take_drop.
Qed.

Lemma extendShards_Ok shardSize : ∀ shards,
  Forall (λ s, (shardSize ≤ Z.of_nat (cap s))%Z) shards →
  (0 ≤ shardSize)%Z →
  extendShards shardSize shards
  = Ok ((λ s, resliceTo s (Z.to_nat shardSize)) <$> shards).
Proof.
  induction shards as [|s shards IH]; intros Hall Hs; [done|].
  apply Forall_cons in Hall as [Hc Hall]. simpl.
  rewrite !bool_decide_eq_false_2 by lia. by rewrite IH.
Qed.

(** ** Stripes *)

Lemma stripe_ext sub q (l1 l2 : list byte) :
  (∀ j, q * sub ≤ j → j < q * sub + sub → l1 !! j = l2 !! j) →
  stripe sub q l1 = stripe sub q l2.
Proof.
  intros H. unfold stripe. apply list_eq. intros j.
  destruct (decide (j < sub)) as [Hj|Hj].
  - rewrite !lookup_take_lt, !lookup_drop by done. apply H; lia.
  - by rewrite !lookup_take_ge by lia.
Qed.

Lemma length_stripe sub q (l : list byte) :
  q * sub + sub ≤ length l → length (stripe sub q l) = sub.
Proof. intros H. unfold stripe. rewrite length_take, length_drop. lia. Qed.

Lemma stripe_beyond sub q (l : list byte) :
  length l ≤ q * sub → stripe sub q l = [].
Proof. intros H. unfold stripe. by rewrite drop_ge, take_nil. Qed.

Lemma drop_min {A} n (l : list A) : drop (n `min` length l) l = drop n l.
Proof.
  destruct (decide (n ≤ length l)) as [H|H].
  - by replace (n `min` length l) with n by lia.
  - replace (n `min` length l) with (length l) by lia.
    by rewrite !drop_ge by lia.
Qed.

Lemma take_min {A} n (l : list A) : take (n `min` length l) l = take n l.
Proof.
  destruct (decide (n ≤ length l)) as [H|H].
  - by replace (n `min` length l) with n by lia.
  - replace (n `min` length l) with (length l) by lia.
    by rewrite !take_ge by lia.
Qed.

(** [copy(dst[off:], src)] when [src] fits. *)
Lemma copyAt_fits (dst src : list byte) off :
  off + length src ≤ length dst →
  copyAt dst off src = Some (take off dst ++ src ++ drop (off + length src) dst).
Proof.
  intros H. unfold copyAt. rewrite bool_decide_eq_true_2 by lia.
  replace (length src `min` (length dst - off)) with (length src) by lia.
  rewrite (take_ge src) by lia. done.
Qed.

Lemma stripe_copy_other sub k q (dst src : list byte) :
  length src ≤ sub → k * sub + sub ≤ length dst → q ≠ k →
  stripe sub q (take (k * sub) dst ++ src ++ drop (k * sub + length src) dst)
  = stripe sub q dst.
Proof.
  intros Hsrc Hdst Hq. apply stripe_ext. intros j Hj1 Hj2.
  assert (Htk : length (take (k * sub) dst) = k * sub) by (rewrite length_take; lia).
  destruct (decide (q < k)) as [Hlt|Hge].
  - assert (q * sub + sub ≤ k * sub) by nia.
    rewrite lookup_app_l by lia. apply lookup_take_lt. lia.
  - assert (k * sub + sub ≤ q * sub) by nia.
    rewrite lookup_app_r by lia. rewrite Htk.
    rewrite lookup_app_r by lia. rewrite lookup_drop. f_equal. lia.
Qed.

Lemma stripe_copy_at sub k (dst src : list byte) :
  length src ≤ sub → k * sub + sub ≤ length dst →
  stripe sub k (take (k * sub) dst ++ src ++ drop (k * sub + length src) dst)
  = src ++ drop (length src) (stripe sub k dst).
Proof.
  intros Hsrc Hdst. unfold stripe.
  rewrite drop_app_length' by (rewrite length_take; lia).
  rewrite take_app_ge by done. f_equal.
  rewrite skipn_firstn_comm, drop_drop. done.
Qed.

(** ** The copy loops of SplitMulti *)

Lemma len_setBytes s elems : isNil s = false → len (setBytes s elems) = length elems.
Proof. by destruct s. Qed.

Lemma bytes_setBytes' s elems : isNil s = false → bytes (setBytes s elems) = elems.
Proof. by destruct s. Qed.

(** The inner loop: in round [k], after the shards before [i']. *)
Lemma splitRound D sub N data orig k :
  0 < sub → k < N → D ≤ length orig →
  ∀ i' cur, i' ≤ D →
    splitInv D sub N data orig k 0 cur →
    ∃ cur',
      foldl (λ acc i,
               '(buf, shards) ← acc;
               match shards !! i with
               | None => Panic
               | Some shard =>
                   if bool_decide (Z.of_nat sub < 0 ∨ Z.of_nat (k * sub) < 0)%Z then Panic
                   else
                     let n := Z.to_nat (Z.of_nat sub) `min` length buf in
                     match copyAt (bytes shard) (Z.to_nat (Z.of_nat (k * sub)))
                                  (take n buf) with
                     | None => Panic
                     | Some elems =>
                         Ok (drop n buf, <[i := setBytes shard elems]> shards)
                     end
               end)
            (Ok (drop (k * D * sub) data, cur)) (seq 0 i')
      = Ok (drop ((k * D + i') * sub) data, cur')
      ∧ splitInv D sub N data orig k i' cur'.
Proof.
  intros Hsub Hk HD. induction i' as [|i' IH]; intros cur Hi' Hinv.
  - exists cur. split; [|done]. simpl. do 3 f_equal. lia.
  - destruct (IH cur) as (cur' & Hfold & Hlen & Hsz & Hrest & Hstr); [lia|done|].
    rewrite seq_S, foldl_app, Hfold. cbn [foldl]. rewrite bind_Ok. cbv beta iota.
    rewrite !Nat2Z.id. simpl plus.
    assert (Hi : i' < length cur') by lia.
    rewrite (list_lookup_lookup_total_lt _ _ Hi).
    rewrite bool_decide_eq_false_2 by lia.
    set (shard := cur' !!! i'). set (buf := drop ((k * D + i') * sub) data).
    assert (Hshard : len shard = N * sub) by (apply Hsz; lia).
    assert (Hnn : isNil shard = false).
    { apply nonnil_of_len. rewrite Hshard. nia. }
    rewrite take_min, drop_min.
    assert (Hsrc : length (take sub buf) ≤ sub) by (rewrite length_take; lia).
    assert (Hfit : k * sub + sub ≤ length (bytes shard)).
    { fold (len shard). rewrite Hshard. nia. }
    rewrite copyAt_fits by lia.
    eexists. split.
    { do 2 f_equal. unfold buf. rewrite drop_drop. f_equal. lia. }
    split; [by rewrite length_insert|]. split; [|split].
    + intros i Hlt. destruct (decide (i = i')) as [->|Hne].
      * rewrite list_lookup_total_insert_eq by done.
        rewrite len_setBytes by done.
        rewrite !length_app, length_take, length_drop.
        unfold len in Hshard. lia.
      * rewrite list_lookup_total_insert_ne by done. by apply Hsz.
    + intros i Hge. rewrite list_lookup_total_insert_ne by lia. by apply Hrest.
    + intros i q Hlt Hq. destruct (decide (i = i')) as [->|Hne].
      * rewrite list_lookup_total_insert_eq by done.
        rewrite bytes_setBytes' by done.
        destruct (decide (q = k)) as [->|Hqk].
        -- rewrite stripe_copy_at by done. unfold shard.
           rewrite (Hstr i' k) by done. rewrite decide_False by lia.
           rewrite decide_True by lia. done.
        -- rewrite stripe_copy_other by done. unfold shard.
           rewrite (Hstr i' q) by done.
           repeat case_decide; done || lia.
      * rewrite list_lookup_total_insert_ne by done. rewrite Hstr by done.
        repeat case_decide; done || lia.
Qed.

Lemma splitInv_next D sub N data orig k cur :
  splitInv D sub N data orig k D cur → splitInv D sub N data orig (S k) 0 cur.
Proof.
  intros (Hlen & Hsz & Hrest & Hstr). repeat split; try done.
  intros i q Hi Hq. rewrite Hstr by done. repeat case_decide; done || lia.
Qed.

(** The outer loop: it ends, after [k'] rounds that cover [data]. *)
Lemma splitMultiCopy_spec D sub N data orig :
  0 < D → 0 < sub → D ≤ length orig → length data ≤ N * (D * sub) →
  ∀ fuel k cur,
    length data - k * (D * sub) < fuel →
    splitInv D sub N data orig k 0 cur →
    ∃ final k',
      splitMultiCopy fuel D (Z.of_nat sub) (drop (k * D * sub) data)
        (Z.of_nat (k * sub)) cur = Ok final
      ∧ splitInv D sub N data orig k' 0 final
      ∧ length data ≤ k' * (D * sub).
Proof.
  intros HD Hsub Horig Hdata.
  induction fuel as [|fuel IH]; intros k cur Hfuel Hinv; [lia|].
  cbn [splitMultiCopy]. rewrite length_drop. case_bool_decide as Hbuf.
  - assert (Hk : k < N).
    { destruct (decide (k < N)) as [|Hn]; [done|].
      assert (N * (D * sub) ≤ k * (D * sub)) by (apply Nat.mul_le_mono_r; lia).
      lia. }
    destruct (splitRound D sub N data orig k Hsub Hk Horig D cur)
      as (cur' & Hround & Hinv'); [done..|].
    match goal with |- context [foldl ?f ?a ?l] => set (F := foldl f a l) end.
    assert (HF : F = Ok (drop ((k * D + D) * sub) data, cur')) by exact Hround.
    rewrite HF. clear F HF Hround. rewrite bind_Ok. cbv beta iota.
    destruct (IH (S k) cur') as (final & k' & Hrun & Hfinal & Hk').
    { nia. }
    { by apply splitInv_next. }
    exists final, k'. split; [|done]. rewrite <- Hrun. f_equal.
    + f_equal. lia.
    + lia.
  - exists cur, k. split; [done|]. split; [done|]. nia.
Qed.

Lemma chunkCount_covers D subsize n :
  (0 < Z.of_nat D * subsize)%Z →
  (Z.of_nat n ≤ chunkCount D subsize n * (Z.of_nat D * subsize))%Z.
Proof.
  intros Hc. unfold chunkCount. set (c := (Z.of_nat D * subsize)%Z) in *.
  pose proof (Z.div_mod (Z.of_nat n + c - 1) c ltac:(lia)) as Hdm.
  pose proof (Z.mod_pos_bound (Z.of_nat n + c - 1) c Hc) as Hm.
  nia.
Qed.

Lemma filled_beyond D sub data orig i q :
  length data ≤ (q * D + i) * sub →
  filled D sub data orig i q = stripe sub q (bytes (orig !!! i)).
Proof. intros H. unfold filled. by rewrite (stripe_beyond _ _ data). Qed.

(** What [SplitMulti] returns when every shard has the capacity. *)
Lemma SplitMulti_Ok r data shards subsize :
  0 < DataShards r → (1 ≤ subsize)%Z → DataShards r ≤ length shards →
  Forall (λ s, (neededCapacity (DataShards r) subsize (length data)
                ≤ Z.of_nat (cap s))%Z) shards →
  let sub := Z.to_nat subsize in
  let N := Z.to_nat (chunkCount (DataShards r) subsize (length data)) in
  let orig := (λ s, resliceTo s (N * sub)) <$> shards in
  ∃ shards',
    SplitMulti r data shards subsize = Ok shards'
    ∧ length data ≤ N * (DataShards r * sub)
    ∧ splitInv (DataShards r) sub N data orig N 0 shards'.
Proof.
  intros HD Hsub Hlen Hcap sub N orig.
  assert (Hc : (0 < Z.of_nat (DataShards r) * subsize)%Z) by lia.
  pose proof (chunkCount_nonneg (DataShards r) subsize (length data) Hc) as HN.
  pose proof (chunkCount_covers (DataShards r) subsize (length data) Hc) as Hcov.
  assert (Hdata : length data ≤ N * (DataShards r * sub)) by (unfold N, sub; nia).
  unfold SplitMulti. rewrite bool_decide_eq_false_2 by lia.
  rewrite chunkCount_quot by done. cbv zeta.
  fold (neededCapacity (DataShards r) subsize (length data)).
  assert (Hneed : neededCapacity (DataShards r) subsize (length data)
                  = Z.of_nat (N * sub)) by (unfold neededCapacity, N, sub; nia).
  rewrite extendShards_Ok by (done || lia). rewrite bind_Ok, Hneed, Nat2Z.id.
  fold orig.
  assert (Hinv0 : splitInv (DataShards r) sub N data orig 0 0 orig).
  { split; [done|]. split; [|split; [done|]].
    - intros i Hi. unfold orig in *. rewrite length_fmap in Hi.
      rewrite lookup_total_fmap_lt by done. apply len_resliceTo.
      pose proof (Forall_lookup_1 _ _ i _ Hcap (list_lookup_lookup_total_lt _ _ Hi)).
      simpl in *. lia.
    - intros i q Hi Hq. by rewrite decide_False by lia. }
  destruct (splitMultiCopy_spec (DataShards r) sub N data orig) with
    (fuel := S (length data)) (k := 0) (cur := orig)
    as (final & k' & Hrun & Hfinal & Hk'); try done; try lia.
  { unfold orig. by rewrite length_fmap. }
  assert (Hrun' : splitMultiCopy (S (length data)) (DataShards r) subsize data 0 orig
                  = Ok final).
  { replace subsize with (Z.of_nat sub) by lia. exact Hrun. }
  rewrite Hrun'. exists final. split; [done|]. split; [done|].
  destruct Hfinal as (H1 & H2 & H3 & H4). repeat split; try done.
  intros i q Hi Hq. rewrite H4 by done.
  case_decide as Hk; case_decide as HNq; try done; try lia.
  symmetry. apply filled_beyond. nia.
Qed.

(** C9, as the code has it.  SplitMulti panics (division by zero) when
    subsize is 0.  For subsize ≥ 1, with D·subsize and
    need = ⌈len(data)/(D·subsize)⌉·subsize not above the largest int, it
    fails whenever some shard, data shard or not, has a capacity below
    need, with an error made by errors.New at the call, which is not
    InvalidInput; and it succeeds, giving every shard the length need, when
    every shard has the capacity need and at least D shards are supplied. *)
Theorem SplitMulti_outcome r data shards subsize :
  0 < DataShards r →
  (subsize = 0%Z → SplitMulti r data shards subsize = Panic)
  ∧ ((1 ≤ subsize)%Z →
     (Z.of_nat (DataShards r) * subsize ≤ maxInt)%Z →
     (neededCapacity (DataShards r) subsize (length data) ≤ maxInt)%Z →
     (Exists (λ s, (Z.of_nat (cap s)
                    < neededCapacity (DataShards r) subsize (length data))%Z) shards →
      SplitMulti r data shards subsize
      = Err (errorsNew "each shard must have capacity of at least len(data)/m")
      ∧ SplitMulti r data shards subsize ≠ Err ErrInvalidInput)
     ∧ (Forall (λ s, (neededCapacity (DataShards r) subsize (length data)
                      ≤ Z.of_nat (cap s))%Z) shards →
        DataShards r ≤ length shards →
        ∃ shards',
          SplitMulti r data shards subsize = Ok shards'
          ∧ length shards' = length shards
          ∧ ∀ i, i < length shards →
              Z.of_nat (len (shards' !!! i))
              = neededCapacity (DataShards r) subsize (length data))).
Proof.
  intros HD. split.
  - intros ->. unfold SplitMulti. by rewrite bool_decide_eq_true_2 by lia.
  - intros Hsub _ _.
    assert (Hc : (0 < Z.of_nat (DataShards r) * subsize)%Z) by lia.
    pose proof (chunkCount_nonneg (DataShards r) subsize (length data) Hc) as HN.
    split.
    + intros Hex.
      assert (HE : SplitMulti r data shards subsize
                   = Err (errorsNew "each shard must have capacity of at least len(data)/m")).
      { unfold SplitMulti. rewrite bool_decide_eq_false_2 by lia.
        rewrite chunkCount_quot by done. cbv zeta.
        fold (neededCapacity (DataShards r) subsize (length data)).
        rewrite extendShards_Err; [done|done|]. unfold neededCapacity. nia. }
      split; [done|]. by rewrite HE.
    + intros Hcap Hlen.
      destruct (SplitMulti_Ok r data shards subsize HD Hsub Hlen Hcap)
        as (shards' & Hrun & _ & Hl & Hsz & _).
      rewrite length_fmap in Hl, Hsz.
      exists shards'. split; [done|]. split; [done|].
      intros i Hi. rewrite Hsz by lia. unfold neededCapacity. nia.
Qed.

Lemma SplitMulti_outcome_witness :
  SplitMulti exampleCoder [x01; x02; x03] [make 2; make 1; make 2] 0 = Panic
  ∧ SplitMulti exampleCoder [x01; x02; x03] [make 2; make 1; make 2] 1
    = Err (errorsNew "each shard must have capacity of at least len(data)/m")
  ∧ ∃ shards',
      SplitMulti exampleCoder [x01; x02; x03] [make 2; make 2; make 2] 1 = Ok shards'
      ∧ length shards' = 3
      ∧ ∀ i, i < 3 → Z.of_nat (len (shards' !!! i)) = 2%Z.
Proof.
  destruct (SplitMulti_outcome exampleCoder [x01; x02; x03] [make 2; make 1; make 2] 0)
    as [H0 _]; [vm_compute; lia|].
  destruct (SplitMulti_outcome exampleCoder [x01; x02; x03] [make 2; make 1; make 2] 1)
    as [_ H1]; [vm_compute; lia|].
  destruct (SplitMulti_outcome exampleCoder [x01; x02; x03] [make 2; make 2; make 2] 1)
    as [_ H2]; [vm_compute; lia|].
  split; [apply H0; reflexivity|]. split.
  - apply H1; [lia|vm_compute; discriminate|vm_compute; discriminate|].
    apply Exists_cons_tl, Exists_cons_hd. vm_compute. reflexivity.
  - apply H2; [lia|vm_compute; discriminate|vm_compute; discriminate| |vm_compute; lia].
    repeat constructor; vm_compute; discriminate.
Defined.

(** C9, as the claim words it, fails: the error for a shard of too small a
    capacity is not InvalidInput, and with every shard of the capacity
    asked for SplitMulti need not succeed: given fewer than D shards it
    panics. *)
Lemma SplitMulti_not_InvalidInput_nor_success :
  SplitMulti exampleCoder [x01; x02; x03] [make 2; make 1; make 2] 1
  = Err (errorsNew "each shard must have capacity of at least len(data)/m")
  ∧ SplitMulti exampleCoder [x01; x02; x03] [make 2; make 1; make 2] 1
    ≠ Err ErrInvalidInput
  ∧ neededCapacity (DataShards exampleCoder) 1 (length [x01]) = 1%Z
  ∧ cap (make 1) = 1
  ∧ SplitMulti exampleCoder [x01] [make 1] 1 = Panic.
Proof. repeat split. discriminate. Qed.

(** X6.  For subsize ≥ 1, at least DataShards shards
    and every shard of capacity at least
    need = ⌈len(data)/(DataShards·subsize)⌉·subsize, with
    DataShards·subsize and need not above the largest int, SplitMulti
    succeeds.
    Every shard then has length need; the shards after the first
    DataShards are only resliced; and stripe q of data shard i holds the
    bytes [(q·DataShards+i)·subsize, +subsize) of data, as far as data
    reaches, followed by what the shard's memory held there. *)
Theorem SplitMulti_layout r data shards subsize :
  0 < DataShards r → (1 ≤ subsize)%Z → DataShards r ≤ length shards →
  (Z.of_nat (DataShards r) * subsize ≤ maxInt)%Z →
  (neededCapacity (DataShards r) subsize (length data) ≤ maxInt)%Z →
  Forall (λ s, (neededCapacity (DataShards r) subsize (length data)
                ≤ Z.of_nat (cap s))%Z) shards →
  let sub := Z.to_nat subsize in
  let need := Z.to_nat (neededCapacity (DataShards r) subsize (length data)) in
  ∃ shards',
    SplitMulti r data shards subsize = Ok shards'
    ∧ length shards' = length shards
    ∧ (∀ i, i < length shards → len (shards' !!! i) = need)
    ∧ (∀ i, DataShards r ≤ i → i < length shards →
            shards' !!! i = resliceTo (shards !!! i) need)
    ∧ ∀ i q, i < DataShards r →
        stripe sub q (bytes (shards' !!! i))
        = filled (DataShards r) sub data ((λ s, resliceTo s need) <$> shards) i q.
Proof.
  intros HD Hsub Hlen _ _ Hcap sub need.
  destruct (SplitMulti_Ok r data shards subsize HD Hsub Hlen Hcap)
    as (shards' & Hrun & Hdata & Hl & Hsz & Hrest & Hstr).
  assert (Hc : (0 < Z.of_nat (DataShards r) * subsize)%Z) by lia.
  pose proof (chunkCount_nonneg (DataShards r) subsize (length data) Hc) as HN.
  set (N := Z.to_nat (chunkCount (DataShards r) subsize (length data))) in *.
  assert (Hneed : need = N * sub) by (unfold need, neededCapacity, N, sub; nia).
  fold sub in Hdata, Hl, Hsz, Hrest, Hstr. rewrite <- Hneed in *.
  rewrite length_fmap in Hl, Hsz.
  exists shards'. split; [done|]. split; [done|]. split; [done|]. split.
  - intros i Hi1 Hi2. rewrite Hrest by done. by rewrite lookup_total_fmap_lt.
  - intros i q Hi. destruct (decide (q < N)) as [Hq|Hq].
    + rewrite Hstr by done. by rewrite decide_True by lia.
    + assert (N * sub ≤ q * sub) by (apply Nat.mul_le_mono_r; lia).
      assert (N * (DataShards r * sub) ≤ q * (DataShards r * sub))
        by (apply Nat.mul_le_mono_r; lia).
      rewrite filled_beyond by lia.
      rewrite (stripe_beyond sub q (bytes (shards' !!! i))).
      2:{ fold (len (shards' !!! i)). rewrite Hsz by lia. lia. }
      rewrite stripe_beyond; [done|].
      rewrite lookup_total_fmap_lt by lia.
      fold (len (resliceTo (shards !!! i) need)).
      rewrite len_resliceTo; [lia|].
      assert (Hi' : i < length shards) by lia.
      pose proof (Forall_lookup_1 _ _ i _ Hcap
                    (list_lookup_lookup_total_lt _ _ Hi')) as Hci.
      simpl in Hci. lia.
Qed.

Lemma SplitMulti_layout_witness :
  ∃ shards',
    SplitMulti exampleCoder [x01; x02; x03; x04; x05] [make 4; make 4; make 4] 2
    = Ok shards'
    ∧ length shards' = 3
    ∧ (∀ i, i < 3 → len (shards' !!! i) = 4)
    ∧ (∀ i, 2 ≤ i → i < 3 →
            shards' !!! i = resliceTo ([make 4; make 4; make 4] !!! i) 4)
    ∧ ∀ i q, i < 2 →
        stripe 2 q (bytes (shards' !!! i))
        = filled 2 2 [x01; x02; x03; x04; x05]
            ((λ s, resliceTo s 4) <$> [make 4; make 4; make 4]) i q.
Proof.
  refine (SplitMulti_layout exampleCoder [x01; x02; x03; x04; x05]
            [make 4; make 4; make 4] 2 _ _ _ _ _ _).
  - vm_compute. lia.
  - lia.
  - vm_compute. lia.
  - vm_compute. discriminate.
  - vm_compute. discriminate.
  - repeat constructor; vm_compute; discriminate.
Defined.

(** * JoinMulti *)

Lemma joinMultiSize_present shards : ∀ size out,
  Forall (λ s, len s ≠ 0) shards →
  ∃ size', joinMultiSize shards size out = Ok size'
           ∧ ((size + totalLen shards >= out)%Z → (size' >= out)%Z)
           ∧ ((size + totalLen shards < out)%Z
              → size' = (size + totalLen shards)%Z).
Proof.
  induction shards as [|s shards IH]; intros size out Hnn.
  - exists size. unfold totalLen. simpl. split; [done|]. split; lia.
  - apply Forall_cons in Hnn as [Hs Hnn]. simpl.
    rewrite bool_decide_eq_false_2 by done.
    rewrite totalLen_cons. pose proof (totalLen_nonneg shards).
    case_bool_decide.
    + eexists. split; [done|]. split; lia.
    + destruct (IH (size + Z.of_nat (len s))%Z out Hnn) as (size' & -> & H1 & H2).
      exists size'. split; [done|]. split; intros ?; [apply H1|rewrite H2]; lia.
Qed.

Lemma joinMultiSize_empty shards : ∀ size out k,
  k < length shards → len (shards !!! k) = 0 →
  (size + totalLen (take k shards) < out)%Z →
  joinMultiSize shards size out = Err ErrReconstructRequired.
Proof.
  induction shards as [|s shards IH]; intros size out k Hk Hnil Hlt;
    [simpl in Hk; lia|].
  simpl. case_bool_decide as Hs; [done|].
  destruct k as [|k]; [simpl in Hnil; congruence|].
  simpl in Hk, Hnil, Hlt. rewrite totalLen_cons in Hlt.
  pose proof (totalLen_nonneg (take k shards)).
  rewrite bool_decide_eq_false_2 by lia.
  apply (IH _ _ k); [lia|done|lia].
Qed.

Lemma len_le_cap s : len s ≤ cap s.
Proof. destruct s; unfold len, cap; simpl; rewrite ?length_app; lia. Qed.

Lemma stripe_backing sub k s :
  k * sub + sub ≤ len s →
  take sub (drop (k * sub) (backing s)) = stripe sub k (bytes s).
Proof.
  intros H. unfold stripe. destruct s as [|elems spare]; [done|].
  unfold len in H. simpl in *.
  rewrite drop_app_le by lia. rewrite take_app_le; [done|].
  rewrite length_drop. lia.
Qed.

Lemma take_drop_app {A} (p Q : list A) sk wl :
  take wl (drop sk (p ++ Q))
  = take wl (drop sk p)
    ++ take (wl - length (take wl (drop sk p))) (drop (sk - length p) Q).
Proof.
  rewrite skipn_app, firstn_app. f_equal. f_equal.
  rewrite length_take. lia.
Qed.

(** One piece of one shard, read into a buffer. *)
Lemma joinMultiShard_buffer (k sub : nat) shard (w : list byte) (sk wl : nat) :
  k * sub + sub ≤ len shard →
  joinMultiShard (Z.of_nat (k * sub)) (Z.of_nat sub) shard
    (w, Z.of_nat sk, Z.of_nat wl)
  = Ok (w ++ take wl (drop sk (stripe sub k (bytes shard))),
        Z.of_nat (sk - length (stripe sub k (bytes shard))),
        Z.of_nat (wl - length (take wl (drop sk (stripe sub k (bytes shard)))))).
Proof.
  intros Hfit. pose proof (len_le_cap shard) as Hcap.
  unfold joinMultiShard. rewrite !bool_decide_eq_false_2 by lia.
  rewrite !Nat2Z.id. rewrite stripe_backing by done.
  set (piece := stripe sub k (bytes shard)).
  assert (Hp : length piece = sub) by (by apply length_stripe).
  case_bool_decide as Hsk.
  - rewrite drop_ge by lia. rewrite take_nil, app_nil_r. simpl.
    repeat f_equal; lia.
  - assert (Hpair : (if bool_decide (Z.of_nat sk > 0)%Z
                     then (drop sk piece, 0%Z)
                     else (piece, Z.of_nat sk))
                    = (drop sk piece, 0%Z)).
    { case_bool_decide; [done|]. replace sk with 0 by lia. done. }
    rewrite Hpair. clear Hpair.
    rewrite (bool_decide_eq_false_2 (_ < 0)%Z), andb_false_r by lia.
    assert (Hcut : (if bool_decide (Z.of_nat wl < Z.of_nat (length (drop sk piece)))%Z
                    then take wl (drop sk piece)
                    else drop sk piece)
                   = take wl (drop sk piece)).
    { case_bool_decide; [done|]. rewrite take_ge; [done|lia]. }
    rewrite Hcut. clear Hcut. unfold Write, bufferWriter.
    assert (Hout : length (take wl (drop sk piece)) ≤ wl) by (rewrite length_take; lia).
    repeat f_equal; lia.
Qed.

(** One round of the inner loop, read into a buffer. *)
Lemma joinMultiRound (k sub : nat) : ∀ (ss : list slice) (w : list byte) (sk wl : nat),
  Forall (λ s, k * sub + sub ≤ len s) ss →
  foldl (λ acc shard,
           st ← acc; joinMultiShard (Z.of_nat (k * sub)) (Z.of_nat sub) shard st)
        (Ok (w, Z.of_nat sk, Z.of_nat wl)) ss
  = Ok (w ++ take wl (drop sk (concat ((λ s, stripe sub k (bytes s)) <$> ss))),
        Z.of_nat (sk - length (concat ((λ s, stripe sub k (bytes s)) <$> ss))),
        Z.of_nat (wl - length (take wl (drop sk
                    (concat ((λ s, stripe sub k (bytes s)) <$> ss)))))).
Proof.
  induction ss as [|s ss IH]; intros w sk wl Hfit.
  - rewrite fmap_nil. cbn [foldl concat].
    rewrite drop_nil, take_nil, app_nil_r. cbn [length].
    by rewrite !Nat.sub_0_r.
  - apply Forall_cons in Hfit as [Hs Hfit].
    cbn [foldl]. rewrite bind_Ok, joinMultiShard_buffer by done.
    rewrite IH by done. rewrite fmap_cons. cbn [concat].
    set (p := stripe sub k (bytes s)).
    set (Q := concat ((λ s0, stripe sub k (bytes s0)) <$> ss)).
    rewrite (take_drop_app p Q sk wl), <- app_assoc.
    rewrite !length_app.
    f_equal. rewrite !pair_equal_spec. split; [split|]; [done|lia|lia].
Qed.

Lemma length_round (k sub : nat) (ss : list slice) :
  Forall (λ s, k * sub + sub ≤ len s) ss →
  length (concat ((λ s, stripe sub k (bytes s)) <$> ss)) = length ss * sub.
Proof.
  induction ss as [|s ss IH]; intros Hfit; [done|].
  apply Forall_cons in Hfit as [Hs Hfit].
  rewrite fmap_cons. cbn [concat]. rewrite length_app, IH by done.
  rewrite length_stripe by done. simpl. lia.
Qed.

(** The outer loop, read into a buffer: the rounds from [k] on. *)
Lemma joinMultiLoop_buffer (sub N : nat) (ss : list slice) :
  0 < sub → ss ≠ [] → Forall (λ s, len s = N * sub) ss →
  ∀ fuel k (w : list byte) sk wl,
    N - k < fuel → k ≤ N →
    sk + wl ≤ (N - k) * (length ss * sub) →
    joinMultiLoop fuel ss (Z.of_nat sub) (Z.of_nat (k * sub))
      (w, Z.of_nat sk, Z.of_nat wl)
    = Ok (w ++ take wl (drop sk
            (concat ((λ q, concat ((λ s, stripe sub q (bytes s)) <$> ss))
                     <$> seq k (N - k))))).
Proof.
  intros Hsub Hne Hlen.
  assert (HD : 0 < length ss) by (destruct ss; [done|simpl; lia]).
  induction fuel as [|fuel IH]; intros k w sk wl Hfuel Hk Hfits; [lia|].
  cbn [joinMultiLoop]. cbn [snd fst]. case_bool_decide as Hwl.
  - assert (HkN : k < N).
    { destruct (decide (k < N)) as [|Hn]; [done|].
      replace (N - k) with 0 in Hfits by lia. lia. }
    assert (Hfit : Forall (λ s, k * sub + sub ≤ len s) ss).
    { eapply Forall_impl; [exact Hlen|]. intros s Hs. simpl in *. rewrite Hs.
      assert (S k * sub ≤ N * sub) by (apply Nat.mul_le_mono_r; lia). lia. }
    rewrite joinMultiRound by done. rewrite bind_Ok.
    pose proof (length_round k sub ss Hfit) as HP.
    set (P := concat ((λ s, stripe sub k (bytes s)) <$> ss)) in *.
    replace (Z.of_nat (k * sub) + Z.of_nat sub)%Z with (Z.of_nat (S k * sub)) by lia.
    replace (N - k) with (S (N - S k)) by lia.
    cbn [seq]. rewrite fmap_cons. cbn [concat]. fold P. clearbody P.
    assert (Hout : length (take wl (drop sk P)) = wl `min` (length P - sk))
      by (by rewrite length_take, length_drop).
    assert (Hstep : (N - k) * (length ss * sub)
                    = length ss * sub + (N - S k) * (length ss * sub)).
    { replace (N - k) with (S (N - S k)) by lia. simpl. lia. }
    rewrite IH; [|lia|lia|].
    2:{ revert Hfits Hstep HP Hout.
        generalize ((N - S k) * (length ss * sub)).
        generalize ((N - k) * (length ss * sub)).
        generalize (length ss * sub).
        intros. lia. }
    rewrite (take_drop_app P _ sk wl), <- app_assoc. done.
  - replace wl with 0 by lia. by rewrite take_0, app_nil_r.
Qed.

Lemma round_indices (sub q D : nat) (shards : list slice) :
  D ≤ length shards →
  (λ i, stripe sub q ((bytes <$> shards) !!! i)) <$> seq 0 D
  = (λ s, stripe sub q (bytes s)) <$> take D shards.
Proof.
  intros HD. apply list_eq_total.
  - rewrite !length_fmap, length_seq, length_take. lia.
  - intros i Hi. rewrite length_fmap, length_seq in Hi.
    rewrite (lookup_total_fmap_lt _ (seq 0 D)) by (rewrite length_seq; lia).
    rewrite (lookup_total_fmap_lt _ (take D shards)) by (rewrite length_take; lia).
    rewrite lookup_total_seq by done. rewrite lookup_total_take_lt by done.
    rewrite lookup_total_fmap_lt by lia. done.
Qed.

Lemma interleave_rounds (sub N D : nat) (shards : list slice) :
  D ≤ length shards →
  interleave D sub N (bytes <$> shards)
  = concat ((λ q, concat ((λ s, stripe sub q (bytes s)) <$> take D shards))
            <$> seq 0 N).
Proof.
  intros HD. unfold interleave. f_equal. apply list_fmap_ext.
  intros k q _. simpl. f_equal. by apply round_indices.
Qed.

(** ** The stripes that SplitMulti fills, read in order, are the data *)

Lemma filled_prefix_step sub p (data L old : list byte) :
  length L = p * sub → take (length data) L = take (p * sub) data →
  length old = sub →
  let d := stripe sub p data in
  length (L ++ d ++ drop (length d) old) = p * sub + sub
  ∧ take (length data) (L ++ d ++ drop (length d) old)
    = take (p * sub + sub) data.
Proof.
  intros HL Hpre Hold d.
  assert (Hd : length d = sub `min` (length data - p * sub)).
  { unfold d, stripe. by rewrite length_take, length_drop. }
  split.
  - rewrite !length_app, length_drop. lia.
  - rewrite firstn_app, Hpre, HL.
    destruct (decide (length data ≤ p * sub)) as [Hle|Hgt].
    + replace (length data - p * sub) with 0 by lia.
      rewrite take_0, app_nil_r. by rewrite !take_ge by lia.
    + rewrite take_app_ge by lia.
      assert (Hrest : take (length data - p * sub - length d) (drop (length d) old) = []).
      { destruct (decide (length data - p * sub ≤ sub)).
        - replace (length data - p * sub - length d) with 0 by lia. done.
        - rewrite drop_ge by lia. apply take_nil. }
      rewrite Hrest, app_nil_r. unfold d, stripe. apply take_take_drop.
Qed.

Lemma interleave_S D sub n (X : list (list byte)) :
  interleave D sub (S n) X
  = interleave D sub n X ++ concat ((λ i, stripe sub n (X !!! i)) <$> seq 0 D).
Proof.
  unfold interleave. rewrite seq_S, fmap_app, concat_app. simpl.
  by rewrite app_nil_r.
Qed.

Lemma interleave_filled D sub N data orig cur :
  0 < sub → D ≤ length orig →
  (∀ i, i < D → len (orig !!! i) = N * sub) →
  splitInv D sub N data orig N 0 cur →
  ∀ n, n ≤ N →
    length (interleave D sub n (bytes <$> cur)) = n * D * sub
    ∧ take (length data) (interleave D sub n (bytes <$> cur))
      = take (n * D * sub) data.
Proof.
  intros Hsub HD Horig (Hlen & Hsz & Hrest & Hstr).
  induction n as [|n IHn]; intros Hn.
  { split; [done|]. unfold interleave. simpl. by rewrite take_nil. }
  destruct IHn as [IH1 IH2]; [lia|]. rewrite interleave_S.
  set (L := interleave D sub n (bytes <$> cur)) in *.
  assert (Hin : ∀ i', i' ≤ D →
            length (L ++ concat ((λ i, stripe sub n ((bytes <$> cur) !!! i))
                                 <$> seq 0 i')) = (n * D + i') * sub
            ∧ take (length data)
                (L ++ concat ((λ i, stripe sub n ((bytes <$> cur) !!! i))
                              <$> seq 0 i'))
              = take ((n * D + i') * sub) data).
  { induction i' as [|i' IHi]; intros Hi'.
    - simpl. rewrite app_nil_r. replace ((n * D + 0) * sub) with (n * D * sub) by lia.
      done.
    - destruct IHi as [IHi1 IHi2]; [lia|].
      rewrite seq_S, fmap_app, concat_app, app_assoc. simpl.
      rewrite app_nil_r.
      rewrite lookup_total_fmap_lt by lia.
      rewrite Hstr by lia. rewrite decide_True by lia. unfold filled.
      assert (Hold : length (stripe sub n (bytes (orig !!! i'))) = sub).
      { apply length_stripe. fold (len (orig !!! i')). rewrite Horig by lia.
        assert (S n * sub ≤ N * sub) by (apply Nat.mul_le_mono_r; lia). lia. }
      destruct (filled_prefix_step sub (n * D + i') data _ _ IHi1 IHi2 Hold) as [H1 H2].
      replace ((n * D + S i') * sub) with ((n * D + i') * sub + sub) by lia.
      done. }
  destruct (Hin D) as [H1 H2]; [lia|].
  replace (S n * D * sub) with ((n * D + D) * sub) by lia. done.
Qed.

Lemma totalLen_uniform size (shards : list slice) :
  Forall (λ s, len s = size) shards →
  totalLen shards = Z.of_nat (length shards * size).
Proof.
  induction shards as [|s shards IH]; intros Hu; [done|].
  apply Forall_cons in Hu as [Hs Hu].
  rewrite totalLen_cons, IH, Hs by done. simpl. lia.
Qed.

(** X7.  JoinMulti fails with ErrTooFewShards when
    fewer than DataShards shards are supplied.  Otherwise it fails with
    ErrReconstructRequired when one of the first DataShards shards has
    length zero (nil or not) and the shards before it hold fewer than
    writeLen bytes, and with ErrShortData when none of them is empty and
    together they hold fewer than writeLen bytes.  This is so for every
    writer, subsize and skip. *)
Theorem JoinMulti_errors {W : Type} `{Writer W} r (dst : W) shards subsize skip writeLen :
  (length shards < DataShards r →
   JoinMulti r dst shards subsize skip writeLen = Err ErrTooFewShards)
  ∧ (∀ k, DataShards r ≤ length shards → k < DataShards r →
          len (shards !!! k) = 0 →
          (totalLen (take k shards) < writeLen)%Z →
          JoinMulti r dst shards subsize skip writeLen = Err ErrReconstructRequired)
  ∧ (DataShards r ≤ length shards →
     Forall (λ s, len s ≠ 0) (take (DataShards r) shards) →
     (totalLen (take (DataShards r) shards) < writeLen)%Z →
     JoinMulti r dst shards subsize skip writeLen = Err ErrShortData).
Proof.
  unfold JoinMulti. split; [|split].
  - intros Hlt. by rewrite bool_decide_eq_true_2.
  - intros k Hlen Hk Hnil Hlt. rewrite bool_decide_eq_false_2 by lia.
    rewrite (joinMultiSize_empty _ 0 writeLen k); [done|..].
    + rewrite length_take. lia.
    + by rewrite lookup_total_take_lt.
    + rewrite take_take. by replace (k `min` DataShards r) with k by lia.
  - intros Hlen Hnn Hlt. rewrite bool_decide_eq_false_2 by lia.
    destruct (joinMultiSize_present _ 0 writeLen Hnn) as (size' & -> & _ & Hsz).
    rewrite bind_Ok, Hsz by lia. by rewrite bool_decide_eq_true_2 by lia.
Qed.

Lemma JoinMulti_errors_witness :
  JoinMulti exampleCoder ([] : list byte) [mkSlice [x01] []] 1 0 2
  = Err ErrTooFewShards
  ∧ JoinMulti exampleCoder ([] : list byte) [mkSlice [x01] []; mkSlice [] [x02]] 1 0 2
    = Err ErrReconstructRequired
  ∧ JoinMulti exampleCoder ([] : list byte) [mkSlice [x01] []; mkSlice [x02] []] 1 0 3
    = Err ErrShortData.
Proof.
  split; [|split].
  - apply (JoinMulti_errors exampleCoder ([] : list byte) [mkSlice [x01] []] 1 0 2).
    vm_compute. lia.
  - apply (JoinMulti_errors exampleCoder ([] : list byte)
             [mkSlice [x01] []; mkSlice [] [x02]] 1 0 2) with (k := 1);
      vm_compute; reflexivity || lia.
  - apply (JoinMulti_errors exampleCoder ([] : list byte)
             [mkSlice [x01] []; mkSlice [x02] []] 1 0 3).
    + vm_compute. lia.
    + repeat constructor; vm_compute; lia.
    + vm_compute. reflexivity.
Defined.

(** What [JoinMulti] appends to a buffer. *)
Lemma JoinMulti_buffer r (w : list byte) shards subsize skip writeLen N :
  0 < DataShards r → DataShards r ≤ length shards → (1 ≤ subsize)%Z → 0 < N →
  (∀ i, i < DataShards r → len (shards !!! i) = N * Z.to_nat subsize) →
  (0 ≤ skip)%Z → (0 ≤ writeLen)%Z →
  (skip + writeLen ≤ Z.of_nat (N * (DataShards r * Z.to_nat subsize)))%Z →
  JoinMulti r w shards subsize skip writeLen
  = Ok (w ++ take (Z.to_nat writeLen)
               (drop (Z.to_nat skip)
                  (interleave (DataShards r) (Z.to_nat subsize) N (bytes <$> shards)))).
Proof.
  intros HD Hlen Hsub HN Hsz Hskip Hwl Hfits.
  set (sub := Z.to_nat subsize) in *.
  set (ss := take (DataShards r) shards).
  assert (Hss : Forall (λ s, len s = N * sub) ss).
  { apply Forall_lookup. intros i s Hs. unfold ss in Hs.
    pose proof (lookup_lt_Some _ _ _ Hs) as Hi. rewrite length_take in Hi.
    apply list_lookup_total_correct in Hs as <-.
    rewrite lookup_total_take_lt by lia. apply Hsz. lia. }
  assert (Hlss : length ss = DataShards r) by (unfold ss; rewrite length_take; lia).
  assert (Hpos : 0 < N * sub) by (unfold sub; nia).
  unfold JoinMulti. rewrite bool_decide_eq_false_2 by lia. fold ss.
  destruct (joinMultiSize_present ss 0 writeLen) as (size' & -> & Hs1 & _).
  { eapply Forall_impl; [exact Hss|]. intros s Hs. simpl in *. lia. }
  rewrite bind_Ok. rewrite (totalLen_uniform (N * sub)) in Hs1 by done.
  rewrite bool_decide_eq_false_2 by (rewrite Hlss in Hs1; nia).
  assert (H0 : len (ss !!! 0) = N * sub).
  { unfold ss. rewrite lookup_total_take_lt by lia. apply Hsz. lia. }
  rewrite H0.
  pose proof (joinMultiLoop_buffer sub N ss) as Hloop.
  specialize (Hloop ltac:(unfold sub; lia)).
  specialize (Hloop ltac:(intros Hnil; rewrite Hnil in Hlss; simpl in Hlss; lia) Hss).
  specialize (Hloop (N * sub + 2) 0 w (Z.to_nat skip) (Z.to_nat writeLen)).
  rewrite !Z2Nat.id in Hloop by lia.
  replace (Z.of_nat sub) with subsize in Hloop by (unfold sub; lia).
  rewrite Nat.sub_0_r in Hloop. change (Z.of_nat (0 * sub)) with 0%Z in Hloop.
  rewrite Hloop; [|nia|lia|rewrite Hlss; lia].
  unfold ss. by rewrite <- interleave_rounds by lia.
Qed.

(** X8.  When the first DataShards shards all
    have the length N·subsize with N ≥ 1 and subsize ≥ 1, JoinMulti appends
    to a buffer the writeLen bytes that follow the first skip bytes of
    their stripes read round by round (stripe 0 of every shard, then stripe
    1 of every shard, ...), provided skip, writeLen ≥ 0 and skip + writeLen
    does not exceed the N·DataShards·subsize bytes there are. *)
Theorem JoinMulti_reads_stripes r (w : list byte) shards subsize skip writeLen N :
  0 < DataShards r → DataShards r ≤ length shards → (1 ≤ subsize)%Z → 0 < N →
  (∀ i, i < DataShards r → len (shards !!! i) = N * Z.to_nat subsize) →
  (0 ≤ skip)%Z → (0 ≤ writeLen)%Z →
  (skip + writeLen ≤ Z.of_nat (N * (DataShards r * Z.to_nat subsize)))%Z →
  JoinMulti r w shards subsize skip writeLen
  = Ok (w ++ take (Z.to_nat writeLen)
               (drop (Z.to_nat skip)
                  (interleave (DataShards r) (Z.to_nat subsize) N (bytes <$> shards)))).
Proof. apply JoinMulti_buffer. Qed.

Lemma JoinMulti_reads_stripes_witness :
  JoinMulti exampleCoder [xff]
    [mkSlice [x01; x02; x05; x06] []; mkSlice [x03; x04; x07; x08] []; nilSlice]
    2 1 6
  = Ok [xff; x02; x03; x04; x05; x06; x07].
Proof.
  refine (JoinMulti_reads_stripes exampleCoder [xff]
            [mkSlice [x01; x02; x05; x06] []; mkSlice [x03; x04; x07; x08] []; nilSlice]
            2 1 6 2 _ _ _ _ _ _ _ _).
  - vm_compute. lia.
  - vm_compute. lia.
  - lia.
  - lia.
  - intros [|[|i]] Hi; vm_compute; try reflexivity. vm_compute in Hi. lia.
  - lia.
  - lia.
  - vm_compute. discriminate.
Defined.

(** X9.  For subsize ≥ 1, non-empty
    data, at least DataShards shards and every shard of the capacity
    SplitMulti asks for, SplitMulti followed by JoinMulti with the same
    subsize appends to a buffer exactly data[skip : skip+writeLen], for
    every skip, writeLen ≥ 0 with skip + writeLen ≤ len(data). *)
Theorem SplitMulti_JoinMulti_roundtrip r data shards subsize skip writeLen
    (w : list byte) :
  0 < DataShards r → (1 ≤ subsize)%Z → DataShards r ≤ length shards →
  Forall (λ s, (neededCapacity (DataShards r) subsize (length data)
                ≤ Z.of_nat (cap s))%Z) shards →
  data ≠ [] →
  (0 ≤ skip)%Z → (0 ≤ writeLen)%Z → (skip + writeLen ≤ Z.of_nat (length data))%Z →
  ∃ shards',
    SplitMulti r data shards subsize = Ok shards'
    ∧ JoinMulti r w shards' subsize skip writeLen
      = Ok (w ++ take (Z.to_nat writeLen) (drop (Z.to_nat skip) data)).
Proof.
  intros HD Hsub Hlen Hcap Hne Hskip Hwl Hfits.
  destruct (SplitMulti_Ok r data shards subsize HD Hsub Hlen Hcap)
    as (shards' & Hrun & Hdata & Hinv).
  assert (Hc : (0 < Z.of_nat (DataShards r) * subsize)%Z) by lia.
  pose proof (chunkCount_nonneg (DataShards r) subsize (length data) Hc) as HNn.
  assert (Horig : ∀ i, i < DataShards r →
            len (((λ s, resliceTo s
                          (Z.to_nat (chunkCount (DataShards r) subsize (length data))
                           * Z.to_nat subsize)) <$> shards) !!! i)
            = Z.to_nat (chunkCount (DataShards r) subsize (length data))
              * Z.to_nat subsize).
  { intros i Hi. rewrite lookup_total_fmap_lt by lia.
    apply len_resliceTo.
    assert (Hi' : i < length shards) by lia.
    pose proof (Forall_lookup_1 _ _ i _ Hcap
                  (list_lookup_lookup_total_lt _ _ Hi')) as Hci.
    simpl in Hci. unfold neededCapacity in Hci. nia. }
  remember (Z.to_nat subsize) as sub eqn:Esub in *.
  remember (Z.to_nat (chunkCount (DataShards r) subsize (length data))) as N eqn:EN in *.
  remember ((λ s, resliceTo s (N * sub)) <$> shards) as orig eqn:Eorig in *.
  assert (Hlorig : length orig = length shards) by (subst orig; by rewrite length_fmap).
  assert (HN : 0 < N).
  { destruct data; [done|]. simpl in Hdata. destruct N; [simpl in Hdata; lia|lia]. }
  pose proof Hinv as (Hl' & Hsz' & _ & _).
  exists shards'. split; [done|].
  rewrite (JoinMulti_buffer r w shards' subsize skip writeLen N); rewrite <- ?Esub;
    try done; try lia.
  - f_equal. f_equal.
    destruct (interleave_filled (DataShards r) sub N data orig shards')
      with (n := N) as [HI1 HI2]; try done; try lia.
    rewrite (take_ge data) in HI2 by lia.
    rewrite !take_drop_commute. f_equal.
    transitivity (take (Z.to_nat skip + Z.to_nat writeLen)
                    (take (length data)
                       (interleave (DataShards r) sub N (bytes <$> shards')))).
    + rewrite take_take. f_equal. lia.
    + by rewrite HI2.
  - intros i Hi. apply Hsz'. lia.
Qed.

Lemma SplitMulti_JoinMulti_roundtrip_witness :
  ∃ shards',
    SplitMulti exampleCoder [x01; x02; x03; x04; x05] [make 4; make 4; make 4] 2
    = Ok shards'
    ∧ JoinMulti exampleCoder [] shards' 2 1 3 = Ok [x02; x03; x04].
Proof.
  refine (SplitMulti_JoinMulti_roundtrip exampleCoder [x01; x02; x03; x04; x05]
            [make 4; make 4; make 4] 2 1 3 [] _ _ _ _ _ _ _ _).
  - vm_compute. lia.
  - lia.
  - vm_compute. lia.
  - repeat constructor; vm_compute; discriminate.
  - discriminate.
  - lia.
  - lia.
  - vm_compute. discriminate.
Defined.

(** * The PAR1 matrix and the outcome of New *)

(** X10.  For every valid (D, P) the PAR1 coding
    matrix is built without error, has the identity in its top D rows, and
    its entry at row D+r, column c is (c+1)^r in GF(2^8): the points start
    at 1 and the exponent is the row index counted from D, so row D is all
    ones. *)
Theorem buildMatrixPAR1_entries (D P : nat) :
  1 ≤ D → 1 ≤ P → D + P ≤ 256 →
  ∃ M, buildMatrixPAR1 D (D + P) = Ok M
       ∧ length M = D + P
       ∧ identityMatrix D = Ok (take D M)
       ∧ (∀ r c, r < P → c < D →
            (M !!! (D + r)) !!! c = galExp (byte_of_nat (c + 1)) r)
       ∧ M !!! D = replicate D x01.
Proof.
  intros HD HP HS. unfold buildMatrixPAR1, newMatrix.
  rewrite bool_decide_eq_false_2 by lia. simpl.
  eexists. split; [done|].
  assert (Hrow : ∀ r c, r < P → c < D →
            (imap (λ r row, if bool_decide (r < D) then <[r := x01]> row
                            else imap (λ c _, galExp (byte_of_nat (c + 1)) (r - D)) row)
                  (replicate (D + P) (replicate D x00)) !!! (D + r)) !!! c
            = galExp (byte_of_nat (c + 1)) r).
  { intros r c Hr Hc.
    rewrite (topped_rows D (D + P)
      (λ r c, galExp (byte_of_nat (c + 1)) (r - D))) by lia.
    rewrite decide_False by lia.
    rewrite lookup_total_fmap_lt by (rewrite length_seq; lia).
    rewrite lookup_total_seq by done. simpl. f_equal. lia. }
  split; [by rewrite length_imap, length_replicate|]. split; [|split; [done|]].
  - apply take_identity; [lia|by rewrite length_imap, length_replicate; lia|].
    intros r Hr. rewrite (topped_rows D (D + P)
      (λ r c, galExp (byte_of_nat (c + 1)) (r - D))) by lia.
    by rewrite decide_True.
  - rewrite (topped_rows D (D + P)
      (λ r c, galExp (byte_of_nat (c + 1)) (r - D))) by lia.
    rewrite decide_False by lia. rewrite Nat.sub_diag.
    apply list_eq_total; [by rewrite length_fmap, length_seq, length_replicate|].
    intros c Hc. rewrite length_fmap, length_seq in Hc.
    rewrite lookup_total_fmap_lt by (rewrite length_seq; lia).
    by rewrite lookup_total_replicate.
Qed.

Lemma buildMatrixPAR1_entries_witness :
  ∃ M, buildMatrixPAR1 3 (3 + 2) = Ok M
       ∧ length M = 3 + 2
       ∧ identityMatrix 3 = Ok (take 3 M)
       ∧ (∀ r c, r < 2 → c < 3 →
            (M !!! (3 + r)) !!! c = galExp (byte_of_nat (c + 1)) r)
       ∧ M !!! 3 = replicate 3 x01.
Proof. apply (buildMatrixPAR1_entries 3 2); lia. Defined.

Lemma New_matrix_Ok (data par : nat) opts :
  0 < data → 0 < par → data + par ≤ 256 →
  ∃ mat,
    (if useCauchy opts then buildMatrixCauchy data (data + par)
     else if usePAR1Matrix opts then buildMatrixPAR1 data (data + par)
     else buildMatrix data (data + par)) = Ok mat
    ∧ length mat = data + par
    ∧ (∀ i, i < data + par → length (mat !!! i) = data)
    ∧ ∀ i, i < data → mat !!! i = unitVec data i.
Proof.
  intros HD HP HS. destruct (useCauchy opts); [|destruct (usePAR1Matrix opts)].
  - unfold buildMatrixCauchy, newMatrix.
    rewrite bool_decide_eq_false_2 by lia. simpl. eexists. split; [done|].
    destruct (topped_shape data (data + par)
                (λ r c, invTableAt (byte_of_nat (Nat.lxor r c)))) as [H1 H2].
    split; [done|]. split; [done|]. intros i Hi.
    rewrite (topped_rows data (data + par)
               (λ r c, invTableAt (byte_of_nat (Nat.lxor r c)))) by lia.
    by rewrite decide_True.
  - unfold buildMatrixPAR1, newMatrix.
    rewrite bool_decide_eq_false_2 by lia. simpl. eexists. split; [done|].
    destruct (topped_shape data (data + par)
                (λ r c, galExp (byte_of_nat (c + 1)) (r - data))) as [H1 H2].
    split; [done|]. split; [done|]. intros i Hi.
    rewrite (topped_rows data (data + par)
               (λ r c, galExp (byte_of_nat (c + 1)) (r - data))) by lia.
    by rewrite decide_True.
  - destruct (buildMatrix_spec data (data + par)) as (M & -> & (? & ? & ?) & _);
      [lia..|]. by exists M.
Qed.

(** X11.  New fails with ErrInvShardNum when the data or the
    parity count is zero or less, with ErrMaxShardNum when both are
    positive and their sum exceeds 256 but not the largest int, and
    succeeds when both are positive and their sum is at most 256,
    whichever matrix the options select.  The coder it returns has the counts given,
    the options given, an empty inversion tree, a coding matrix of Shards
    rows and DataShards columns whose top DataShards rows are the identity,
    and as parity rows the rows of the matrix from DataShards on. *)
Theorem New_outcome (D P : Z) opts :
  ((D ≤ 0 ∨ P ≤ 0)%Z → New D P opts = Err ErrInvShardNum)
  ∧ ((0 < D)%Z → (0 < P)%Z → (D + P > 256)%Z → (D + P ≤ maxInt)%Z →
     New D P opts = Err ErrMaxShardNum)
  ∧ ((0 < D)%Z → (0 < P)%Z → (D + P ≤ 256)%Z →
     ∃ r, New D P opts = Ok r
          ∧ DataShards r = Z.to_nat D ∧ ParityShards r = Z.to_nat P
          ∧ Shards r = Z.to_nat D + Z.to_nat P
          ∧ o r = opts
          ∧ nodes (tree r) = ∅
          ∧ length (m r) = Shards r
          ∧ (∀ i, i < Shards r → length (m r !!! i) = DataShards r)
          ∧ (∀ i, i < DataShards r → m r !!! i = unitVec (DataShards r) i)
          ∧ parity r = drop (DataShards r) (m r)).
Proof.
  split; [|split].
  - intros H. unfold New. by rewrite bool_decide_eq_true_2.
  - intros HD HP HS _. unfold New.
    rewrite bool_decide_eq_false_2 by lia. by rewrite bool_decide_eq_true_2.
  - intros HD HP HS.
    destruct (New_matrix_Ok (Z.to_nat D) (Z.to_nat P) opts)
      as (mat & Hmat & Hlen & Hrows & Htop); [lia..|].
    assert (HNew : ∃ r, New D P opts = Ok r ∧ m r = mat).
    { unfold New. rewrite !bool_decide_eq_false_2 by lia.
      replace (Z.to_nat (D + P)) with (Z.to_nat D + Z.to_nat P) by lia.
      rewrite Hmat, bind_Ok. eexists. split; [done|]. done. }
    destruct HNew as (r & HNew & Hm). exists r. split; [done|].
    destruct (New_wellFormed D P opts r HNew)
      as ((? & ? & HSh & ? & ? & ? & ?) & ? & Htree & HDr & HPr & _).
    rewrite Hm, HSh, HDr, HPr, Htree. repeat split; try done.
    by rewrite <- Hm, <- HDr.
Qed.

Lemma New_outcome_witness :
  New 0 1 exampleOptions = Err ErrInvShardNum
  ∧ New 200 57 exampleOptions = Err ErrMaxShardNum
  ∧ ∃ r, New 2 1 exampleOptions = Ok r ∧ DataShards r = 2 ∧ ParityShards r = 1.
Proof.
  destruct (New_outcome 0 1 exampleOptions) as (H1 & _).
  destruct (New_outcome 200 57 exampleOptions) as (_ & H2 & _).
  destruct (New_outcome 2 1 exampleOptions) as (_ & _ & H3).
  split; [apply H1; lia|]. split; [apply H2; vm_compute; (reflexivity || discriminate)|].
  destruct H3 as (r & Hr & HD & HP & _); [lia..|].
  exists r. split; [exact Hr|]. split; [exact HD|exact HP].
Defined.

(** * The checks of Encode, Verify and reconstruct *)

Lemma shardSize_0 shards :
  shardSize shards = 0 ↔ Forall (λ s, len s = 0) shards.
Proof.
  induction shards as [|s rest IH]; simpl; [by split|].
  case_bool_decide as Hs.
  - split; [lia|]. intros [? _]%Forall_cons. done.
  - rewrite IH, Forall_cons. split; [|tauto]. intros ?. split; [lia|done].
Qed.

(** The size that [shardSize] returns is the length of a shard. *)
Lemma shardSize_elem shards :
  shardSize shards ≠ 0 →
  ∃ i, i < length shards ∧ len (shards !!! i) = shardSize shards.
Proof.
  induction shards as [|s rest IH]; simpl; [done|].
  case_bool_decide as Hs.
  - intros _. exists 0. split; [lia|done].
  - intros Hne. destruct (IH Hne) as (i & Hi & Hlen).
    exists (S i). split; [lia|done].
Qed.

Lemma checkShards_None shards nilok :
  checkShards shards nilok = None
  ↔ shardSize shards ≠ 0
    ∧ Forall (λ s, len s = shardSize shards ∨ (len s = 0 ∧ nilok = true)) shards.
Proof.
  unfold checkShards. case_bool_decide as Hz; [split; [done|tauto]|].
  destruct (forallb _ shards) eqn:Hall.
  - split; [intros _|done]. split; [done|].
    rewrite forallb_forall in Hall. apply Forall_forall. intros s Hs.
    apply list_elem_of_In, Hall in Hs.
    apply orb_true_iff in Hs as [Hs|Hs].
    + left. by apply bool_decide_eq_true in Hs.
    + right. apply andb_true_iff in Hs as [Hs ->].
      by apply bool_decide_eq_true in Hs.
  - split; [done|]. intros [_ HF]. rewrite Forall_forall in HF.
    assert (forallb (λ shard, bool_decide (len shard = shardSize shards)
                              || (bool_decide (len shard = 0) && nilok)) shards
            = true); [|congruence].
    apply forallb_forall. intros s Hs%list_elem_of_In.
    destruct (HF s Hs) as [H1|[H1 ->]].
    + by rewrite (bool_decide_eq_true_2 _ H1).
    + rewrite (bool_decide_eq_true_2 (len s = 0)) by done.
      by rewrite orb_true_r.
Qed.

Lemma checkShards_NoData shards nilok :
  Forall (λ s, len s = 0) shards → checkShards shards nilok = Some ErrShardNoData.
Proof.
  intros H%shardSize_0. unfold checkShards. by rewrite H.
Qed.

(** Two shards of different lengths, neither of which may count as
    missing, fail the check. *)
Lemma checkShards_Size shards nilok i j :
  i < length shards → j < length shards →
  len (shards !!! i) ≠ len (shards !!! j) →
  (nilok = true → len (shards !!! i) ≠ 0 ∧ len (shards !!! j) ≠ 0) →
  checkShards shards nilok = Some ErrShardSize.
Proof.
  intros Hi Hj Hne Hnil.
  destruct (checkShards shards nilok) as [e|] eqn:Hc.
  - unfold checkShards in Hc. case_bool_decide as Hz.
    + apply shardSize_0 in Hz.
      pose proof (Forall_lookup_1 _ _ i _ Hz (list_lookup_lookup_total_lt _ _ Hi)).
      pose proof (Forall_lookup_1 _ _ j _ Hz (list_lookup_lookup_total_lt _ _ Hj)).
      simpl in *. lia.
    + destruct (forallb _ shards); [done|]. done.
  - apply checkShards_None in Hc as [Hz HF].
    pose proof (Forall_lookup_1 _ _ i _ HF (list_lookup_lookup_total_lt _ _ Hi)) as H1.
    pose proof (Forall_lookup_1 _ _ j _ HF (list_lookup_lookup_total_lt _ _ Hj)) as H2.
    simpl in *. destruct H1 as [H1|[H1 Hn]], H2 as [H2|[H2 Hn']];
      try lia; destruct (Hnil ltac:(done)); lia.
Qed.

Lemma checkShards_uniform_inv shards :
  checkShards shards false = None →
  shardSize shards ≠ 0 ∧ uniform (shardSize shards) shards.
Proof.
  intros [Hz HF]%checkShards_None. split; [done|].
  eapply Forall_impl; [exact HF|]. intros s [?|[_ ?]]; done.
Qed.

Lemma Encode_Ok_inv r shards encoded :
  Encode r shards = Ok encoded →
  length shards = Shards r
  ∧ shardSize shards ≠ 0 ∧ uniform (shardSize shards) shards.
Proof.
  unfold Encode. case_bool_decide as Hlen; [done|].
  destruct (checkShards shards false) eqn:Hc; [done|]. intros _.
  split; [done|]. by apply checkShards_uniform_inv.
Qed.

(** X12.  Encode and Verify reject the same arrays
    with the same errors: ErrTooFewShards when the array does not have
    exactly Shards entries (more as well as fewer); else ErrShardNoData
    when every shard is empty; else ErrShardSize when two shards differ in
    length, an empty shard among filled ones included.  Conversely, when
    Encode succeeds all shards had one common non-zero length. *)
Theorem Encode_Verify_errors r shards :
  (length shards ≠ Shards r →
   Encode r shards = Err ErrTooFewShards ∧ Verify r shards = Err ErrTooFewShards)
  ∧ (length shards = Shards r → Forall (λ s, len s = 0) shards →
     Encode r shards = Err ErrShardNoData ∧ Verify r shards = Err ErrShardNoData)
  ∧ (∀ i j, length shards = Shards r → i < Shards r → j < Shards r →
            len (shards !!! i) ≠ len (shards !!! j) →
            Encode r shards = Err ErrShardSize ∧ Verify r shards = Err ErrShardSize)
  ∧ (∀ encoded, Encode r shards = Ok encoded →
       length shards = Shards r
       ∧ ∃ size, 0 < size ∧ uniform size shards).
Proof.
  split; [|split; [|split]].
  - intros Hlen. unfold Encode, Verify. by rewrite bool_decide_eq_true_2.
  - intros Hlen Hz. unfold Encode, Verify.
    rewrite bool_decide_eq_false_2 by (intros ?; done).
    by rewrite checkShards_NoData.
  - intros i j Hlen Hi Hj Hne. unfold Encode, Verify.
    rewrite bool_decide_eq_false_2 by (intros ?; done).
    by rewrite (checkShards_Size shards false i j) by (done || lia).
  - intros encoded (Hlen & Hz & Hu)%Encode_Ok_inv. split; [done|].
    exists (shardSize shards). split; [lia|done].
Qed.

Lemma Encode_Verify_errors_witness :
  (Encode exampleCoder [mkSlice [x01] []] = Err ErrTooFewShards
   ∧ Verify exampleCoder [mkSlice [x01] []] = Err ErrTooFewShards)
  ∧ (Encode exampleCoder [nilSlice; nilSlice; nilSlice] = Err ErrShardNoData
     ∧ Verify exampleCoder [nilSlice; nilSlice; nilSlice] = Err ErrShardNoData)
  ∧ (Encode exampleCoder [mkSlice [x01] []; nilSlice; mkSlice [x02] []]
     = Err ErrShardSize
     ∧ Verify exampleCoder [mkSlice [x01] []; nilSlice; mkSlice [x02] []]
       = Err ErrShardSize).
Proof.
  split; [|split].
  - apply (Encode_Verify_errors exampleCoder [mkSlice [x01] []]).
    vm_compute. lia.
  - apply (Encode_Verify_errors exampleCoder [nilSlice; nilSlice; nilSlice]);
      [reflexivity|repeat constructor].
  - apply (Encode_Verify_errors exampleCoder
             [mkSlice [x01] []; nilSlice; mkSlice [x02] []]) with (i := 0) (j := 1);
      vm_compute; reflexivity || lia.
Defined.

(** * Encoding twice *)

Lemma zip_with_setBytes_twice : ∀ (X : list slice) (C : list (list byte)),
  zip_with setBytes (zip_with setBytes X C) C = zip_with setBytes X C.
Proof.
  induction X as [|s X IH]; intros [|c C]; simpl; try done.
  rewrite IH. by destruct s.
Qed.

(** X13.  Encoding an array that Encode has just
    produced changes nothing: the second call succeeds and returns the
    same array, parity included. *)
Theorem Encode_idempotent r shards encoded :
  wellFormed r → validOptions (o r) →
  Encode r shards = Ok encoded →
  Encode r encoded = Ok encoded.
Proof.
  intros Hwf Hopt HEnc.
  destruct (Encode_Ok_inv _ _ _ HEnc) as (Hlen & Hz & Hu).
  pose proof Hwf as (HD & HP & HS & _).
  set (size := shardSize shards) in *.
  assert (Hsize : 0 < size) by lia.
  rewrite (Encode_spec r shards size) in HEnc by done. injection HEnc as <-.
  set (C := codedRows (parity r) (dataOf r shards) size).
  assert (HlenC : length C = length shards - DataShards r).
  { unfold C. rewrite length_codedRows, length_parity by done. lia. }
  rewrite (Encode_spec r _ size); try done.
  - f_equal. unfold dataOf. rewrite take_storeFrom by lia. fold (dataOf r shards).
    fold C. unfold storeFrom.
    rewrite take_app_length' by (rewrite length_take; lia).
    rewrite drop_app_length' by (rewrite length_take; lia).
    by rewrite zip_with_setBytes_twice.
  - by rewrite length_storeFrom.
  - apply uniform_storeFrom; try done; [lia|].
    intros i Hi. unfold C in *. rewrite length_codedRows in Hi.
    by rewrite lookup_codedRows, length_codedRow.
Qed.

Lemma Encode_idempotent_witness :
  Encode exampleCoder exampleEncoded = Ok exampleEncoded.
Proof.
  apply (Encode_idempotent exampleCoder exampleShards exampleEncoded).
  - destruct (New_wellFormed 2 1 exampleOptions exampleCoder) as [H _];
      [vm_compute; reflexivity|exact H].
  - vm_compute. split; discriminate.
  - vm_compute. reflexivity.
Defined.

(** * The sequential coding loop *)

Lemma window_whole n (x : list byte) : length x ≤ n → window 0 n x = x.
Proof. intros H. unfold window. simpl. rewrite Nat.sub_0_r. by apply take_ge. Qed.

Lemma setWindow_whole n (row out : list byte) :
  length row ≤ n → setWindow 0 n row out = out.
Proof.
  intros H. unfold setWindow. simpl. rewrite drop_ge by done. apply app_nil_r.
Qed.

Lemma length_galMulSlice c (inp out : list byte) :
  length (galMulSlice c inp out) ≤ length out.
Proof. unfold galMulSlice. rewrite length_zip_with. lia. Qed.

Lemma length_galMulSliceXor c (inp out : list byte) :
  length (galMulSliceXor c inp out) ≤ length out.
Proof. unfold galMulSliceXor. rewrite length_zip_with. lia. Qed.

(** On whole shards a column step of the sequential loop is the step of a
    goroutine whose segment is everything. *)
Lemma foldl_code_whole (matrixRows inputs : list (list byte)) n i : ∀ cs row,
  length row ≤ n → (∀ c, c ∈ cs → length (inputs !!! c) ≤ n) →
  foldl (λ row c,
           if bool_decide (c = 0)
           then galMulSlice ((matrixRows !!! i) !!! c) (inputs !!! c) row
           else galMulSliceXor ((matrixRows !!! i) !!! c) (inputs !!! c) row)
        row cs
  = foldl (λ row c, codeColumn matrixRows inputs 0 n c i row) row cs.
Proof.
  induction cs as [|c cs IH]; intros row Hrow Hin; [done|].
  cbn [foldl].
  assert (Hstep : codeColumn matrixRows inputs 0 n c i row
                  = if bool_decide (c = 0)
                    then galMulSlice ((matrixRows !!! i) !!! c) (inputs !!! c) row
                    else galMulSliceXor ((matrixRows !!! i) !!! c) (inputs !!! c) row).
  { unfold codeColumn. rewrite setWindow_whole by done.
    rewrite !window_whole by (done || apply Hin; by left). done. }
  rewrite Hstep. apply IH.
  - case_bool_decide;
      [pose proof (length_galMulSlice ((matrixRows !!! i) !!! c) (inputs !!! c) row)
      |pose proof (length_galMulSliceXor ((matrixRows !!! i) !!! c) (inputs !!! c) row)];
      lia.
  - intros c' Hc'. apply Hin. by right.
Qed.

Lemma codeSomeShards_segment r matrixRows inputs outputs n byteCount :
  n ≤ length outputs →
  (∀ i, i < n → length (outputs !!! i) ≤ byteCount) →
  (∀ c, c < DataShards r → length (inputs !!! c) ≤ byteCount) →
  codeSomeShards r matrixRows inputs outputs n byteCount
  = codeSegment r matrixRows inputs n 0 byteCount outputs.
Proof.
  intros Hn Hout Hin. rewrite codeSegment_rows by done.
  unfold codeSomeShards.
  rewrite (foldl_columns_rows
             (λ c i row,
                if bool_decide (c = 0)
                then galMulSlice ((matrixRows !!! i) !!! c) (inputs !!! c) row
                else galMulSliceXor ((matrixRows !!! i) !!! c) (inputs !!! c) row)
             n (seq 0 (DataShards r)) outputs Hn).
  apply imap_ext. intros i row Hrow. case_decide as Hi; [|done].
  apply foldl_code_whole.
  - rewrite <- (list_lookup_total_correct _ _ _ Hrow). by apply Hout.
  - intros c Hc%elem_of_seq. apply Hin. lia.
Qed.

(** X14.  On inputs and outputs of byteCount bytes
    each, the sequential loop codeSomeShards computes the product of the
    matrix rows and the input shards, and codeSomeShardsP, which splits the
    bytes among goroutines, leaves the same outputs when its segments are
    computed without overflow ([segmentSizeFits]). *)
Theorem codeSomeShards_agrees r matrixRows inputs outputs byteCount :
  validOptions (o r) → 0 < DataShards r →
  length inputs = DataShards r →
  length matrixRows = length outputs →
  (∀ i, i < length outputs → length (matrixRows !!! i) = DataShards r) →
  (∀ c, c < DataShards r → length (inputs !!! c) = byteCount) →
  (∀ i, i < length outputs → length (outputs !!! i) = byteCount) →
  codeSomeShards r matrixRows inputs outputs (length outputs) byteCount
  = codedRows matrixRows inputs byteCount
  ∧ (segmentSizeFits (o r) byteCount →
     codeSomeShardsP r matrixRows inputs outputs (length outputs) byteCount
     = Ok (codeSomeShards r matrixRows inputs outputs (length outputs) byteCount)).
Proof.
  intros Hopt HD Hin Hmr Hm Hlen Hout.
  assert (Hseq : codeSomeShards r matrixRows inputs outputs (length outputs) byteCount
                 = codedRows matrixRows inputs byteCount).
  { rewrite codeSomeShards_segment; [|done|intros i Hi; by rewrite Hout|
                                     intros c Hc; by rewrite Hlen].
    rewrite (codeSegment_spec _ _ _ _ _ _ byteCount); try done; try lia.
    apply list_eq_total; [by rewrite length_imap, length_codedRows|].
    intros i Hi. rewrite length_imap in Hi.
    rewrite lookup_total_imap, lookup_codedRows by lia.
    rewrite decide_True by done.
    rewrite setWindow_whole by (by rewrite Hout).
    apply window_whole. by rewrite length_codedRow. }
  split; [done|]. intros _. rewrite Hseq. by apply codeSomeShardsP_spec.
Qed.

Lemma codeSomeShards_agrees_witness :
  codeSomeShards exampleCoder (parity exampleCoder)
    [[x01; x02]; [x03; x04]] [[x00; x00]] 1 2
  = codedRows (parity exampleCoder) [[x01; x02]; [x03; x04]] 2
  ∧ codeSomeShardsP exampleCoder (parity exampleCoder)
      [[x01; x02]; [x03; x04]] [[x00; x00]] 1 2
    = Ok (codeSomeShards exampleCoder (parity exampleCoder)
            [[x01; x02]; [x03; x04]] [[x00; x00]] 1 2).
Proof.
  destruct (codeSomeShards_agrees exampleCoder (parity exampleCoder)
              [[x01; x02]; [x03; x04]] [[x00; x00]] 2) as [Hseq Hpar].
  - vm_compute. split; discriminate.
  - vm_compute. lia.
  - reflexivity.
  - reflexivity.
  - intros [|i] Hi; [reflexivity|simpl in Hi; lia].
  - intros [|[|c]] Hc; [reflexivity|reflexivity|vm_compute in Hc; lia].
  - intros [|i] Hi; [reflexivity|simpl in Hi; lia].
  - split; [exact Hseq|]. apply Hpar. split; vm_compute; discriminate.
Defined.

(** * Arrays that verify *)

Lemma length_filter_split {A} (P : A → Prop) `{!∀ x, Decision (P x)} (l : list A) :
  length (filter P l) + length (filter (λ x, ¬ P x) l) = length l.
Proof.
  induction l as [|a l IH]; [done|].
  rewrite !filter_cons. repeat case_decide; simpl; (done || lia).
Qed.

Section verified.
Variables (r : ReedSolomon) (size : nat).
Hypothesis Hwf : wellFormed r.
Hypothesis Hopt : validOptions (o r).
Hypothesis Hsys : systematic (DataShards r) (Shards r) (m r).
Hypothesis Hany : anyRowsInvertible (DataShards r) (Shards r) (m r).
Hypothesis Hsize : 0 < size.

(** Every shard of an array that verifies is the product of its matrix row
    and the data. *)
Lemma verified_rows x i :
  length x = Shards r → uniform size x → Verify r x = Ok true → i < Shards r →
  bytes (x !!! i) = codedRow (m r !!! i) (dataOf r x) size.
Proof using Hwf Hopt Hsys Hsize.
  intros Hlen Hu Hver Hi. pose proof Hwf as (HD & HP & HS & _).
  destruct Hsys as (_ & _ & Htop).
  rewrite (Verify_spec r x size) in Hver by done.
  injection Hver as Hver. apply bool_decide_eq_true in Hver.
  destruct (decide (i < DataShards r)) as [Hlt|Hge].
  - rewrite Htop by done. rewrite codedRow_unitVec.
    + by rewrite lookup_dataOf by lia.
    + done.
    + apply length_dataOf. lia.
    + rewrite lookup_dataOf by lia. apply (uniform_lookup size x i Hu). lia.
  - apply (f_equal (λ l, l !!! (i - DataShards r))) in Hver.
    rewrite lookup_total_fmap_lt, lookup_total_drop in Hver
      by (rewrite length_drop; lia).
    replace (DataShards r + (i - DataShards r)) with i in Hver by lia.
    rewrite Hver, lookup_codedRows by (rewrite length_parity by done; lia).
    rewrite lookup_parity by (done || lia).
    by replace (DataShards r + (i - DataShards r)) with i by lia.
Qed.

(** Two arrays that verify and agree in [DataShards] shards hold the same
    data. *)
Lemma verified_agree x y valid :
  length x = Shards r → uniform size x → Verify r x = Ok true →
  length y = Shards r → uniform size y → Verify r y = Ok true →
  NoDup valid → length valid = DataShards r →
  (∀ v, v ∈ valid → v < Shards r ∧ bytes (x !!! v) = bytes (y !!! v)) →
  dataOf r x = dataOf r y.
Proof using Hwf Hopt Hsys Hany Hsize.
  intros Hlx Hux Hvx Hly Huy Hvy Hnd Hlv Hvalid.
  pose proof Hwf as (HD & HP & HS & _ & _ & Hrows & _).
  set (A := pickRows (m r) (DataShards r) valid).
  destruct (Invert_nonsingular (DataShards r) A HD) as (B & _ & _ & Hinv & _).
  { by apply pickRows_square. }
  { apply Hany; [done..|]. intros v Hv. by apply Hvalid. }
  assert (Hcol : ∀ j, j < size →
            column j (dataOf r x) = column j (dataOf r y)).
  { intros j Hj.
    rewrite <- (Hinv (column j (dataOf r x)))
      by (rewrite length_column, length_dataOf; lia).
    rewrite <- (Hinv (column j (dataOf r y)))
      by (rewrite length_column, length_dataOf; lia).
    f_equal. unfold A. rewrite !mulVec_pickRows
      by (intros v Hv; apply Hrows; by apply Hvalid).
    apply list_fmap_ext. intros k v Hv%list_elem_of_lookup_2.
    destruct (Hvalid v Hv) as [Hlt Heq].
    rewrite <- !lookup_codedRow with (n := size) by done.
    rewrite <- !verified_rows by done. by rewrite Heq. }
  apply list_eq_total; [rewrite !length_dataOf; lia|].
  intros c Hc. rewrite length_dataOf in Hc by lia.
  apply list_eq_total.
  { rewrite !lookup_dataOf by lia.
    pose proof (uniform_lookup size x c Hux). pose proof (uniform_lookup size y c Huy).
    unfold len in *. lia. }
  intros j Hj.
  assert (Hjs : j < size).
  { rewrite lookup_dataOf in Hj by lia.
    pose proof (uniform_lookup size x c Hux). unfold len in *. lia. }
  rewrite <- !lookup_column by (rewrite length_dataOf; lia).
  by rewrite Hcol.
Qed.

End verified.

(** X15.  With the default matrix, let an array
    of shards of one common non-zero length verify.  Change the bytes of at
    least one and at most ParityShards of its shards, keeping the lengths:
    Verify returns false.  So two different arrays that both verify differ
    in more than ParityShards shards. *)
Theorem Verify_detects_corruption D P opts r good bad size :
  New D P opts = Ok r →
  useCauchy opts = false → usePAR1Matrix opts = false → validOptions opts →
  length good = Shards r → uniform size good →
  length bad = Shards r → uniform size bad → 0 < size →
  Verify r good = Ok true →
  bytes <$> bad ≠ bytes <$> good →
  length (filter (λ i, bytes (bad !!! i) ≠ bytes (good !!! i)) (seq 0 (Shards r)))
  ≤ ParityShards r →
  Verify r bad = Ok false.
Proof.
  intros HNew HC HPar Hopt Hlg Hug Hlb Hub Hsize Hvg Hne Hfew.
  destruct (New_wellFormed D P opts r HNew) as (Hwf & Ho & _).
  destruct (New_default_matrix D P opts r HNew HC HPar) as (Hsys & Hany).
  rewrite <- Ho in Hopt. pose proof Hwf as (HD & HPp & HS & _).
  destruct (Verify r bad) as [[|]| | |] eqn:Hvb; try done;
    try (rewrite (Verify_spec r bad size) in Hvb by done; done).
  exfalso. apply Hne.
  set (agree := filter (λ i, ¬ bytes (bad !!! i) ≠ bytes (good !!! i))
                       (seq 0 (Shards r))).
  assert (Hagree : DataShards r ≤ length agree).
  { pose proof (length_filter_split
                  (λ i, bytes (bad !!! i) ≠ bytes (good !!! i)) (seq 0 (Shards r))) as Hs.
    rewrite length_seq in Hs. fold agree in Hs.
    revert Hs Hfew. generalize (length agree).
    generalize (length (filter (λ i, bytes (bad !!! i) ≠ bytes (good !!! i))
                          (seq 0 (Shards r)))).
    intros. lia. }
  assert (Hdata : dataOf r bad = dataOf r good).
  { apply (verified_agree r size Hwf Hopt Hsys Hany Hsize bad good
             (take (DataShards r) agree)); try done.
    - eapply sublist_NoDup; [|apply sublist_take].
      apply NoDup_filter, NoDup_seq.
    - rewrite length_take. lia.
    - intros v Hv. eapply elem_of_sublist in Hv; [|apply sublist_take].
      apply list_elem_of_filter in Hv as [Heq Hv%elem_of_seq].
      split; [lia|]. by apply dec_stable. }
  apply fmap_bytes_eq; [lia|]. intros i Hi.
  rewrite (verified_rows r size Hwf Hopt Hsys Hsize bad i) by (done || lia).
  rewrite (verified_rows r size Hwf Hopt Hsys Hsize good i) by (done || lia).
  by rewrite Hdata.
Qed.

Lemma Verify_detects_corruption_witness :
  Verify exampleCoder (<[1 := mkSlice [xff; x04] []]> exampleEncoded) = Ok false.
Proof.
  apply (Verify_detects_corruption 2 1 exampleOptions exampleCoder exampleEncoded
           (<[1 := mkSlice [xff; x04] []]> exampleEncoded) 2).
  - vm_compute. reflexivity.
  - reflexivity.
  - reflexivity.
  - vm_compute. split; discriminate.
  - reflexivity.
  - unfold uniform. repeat (apply Forall_cons; split); try apply Forall_nil;
      reflexivity.
  - reflexivity.
  - unfold uniform. repeat (apply Forall_cons; split); try apply Forall_nil;
      reflexivity.
  - lia.
  - vm_compute. reflexivity.
  - vm_compute. discriminate.
  - vm_compute. lia.
Defined.

(** * What reconstruct accepts *)



(** The checks that a successful call has passed. *)
Lemma reconstruct_Ok_checks r shards dataOnly r' shards' :
  wellFormed r →
  reconstruct r shards dataOnly = Ok (r', shards') →
  length shards = Shards r
  ∧ checkShards shards true = None
  ∧ DataShards r ≤ length (present shards).
Proof.
  intros (HD & HP & HS & _). unfold reconstruct.
  case_bool_decide as Hlen; [done|].
  destruct (checkShards shards true) eqn:Hc; [done|].
  rewrite countPresent_spec by lia.
  rewrite (take_ge shards (Shards r)) by lia.
  rewrite (take_ge (take (DataShards r) shards)) by (rewrite length_take; lia).
  cbv beta iota zeta.
  destruct (bool_decide (length (present shards) = Shards r)
            || dataOnly && bool_decide (length (present (take (DataShards r) shards))
                                        = DataShards r)) eqn:Hearly.
  - intros _. split; [done|]. split; [done|].
    apply orb_true_iff in Hearly as [Hall|Hdata].
    + apply bool_decide_eq_true in Hall. lia.
    + apply andb_true_iff in Hdata as [_ Hdata].
      apply bool_decide_eq_true in Hdata.
      pose proof (present_take_le (DataShards r) shards). lia.
  - clear Hearly. case_bool_decide as Hfew; [done|].
    intros _. split; [done|]. split; [done|]. lia.
Qed.

Lemma emptyOr_of_checkShards shards :
  checkShards shards true = None →
  0 < shardSize shards ∧ emptyOr (shardSize shards) shards.
Proof.
  intros [Hz HF]%checkShards_None. split; [lia|].
  eapply Forall_impl; [exact HF|]. intros s [?|[? _]]; [by right|by left].
Qed.

(** X17.  With the default matrix, in every
    state of the inversion tree that earlier calls can have left, and when
    the segments for the common shard length are computed without overflow
    ([segmentSizeFits]), Reconstruct and ReconstructData succeed exactly on the arrays
    of Shards entries in which every shard is empty or of one common
    non-zero length and at least DataShards shards are not empty. *)
Theorem reconstruct_succeeds_iff D P opts r0 r shards dataOnly :
  New D P opts = Ok r0 →
  useCauchy opts = false → usePAR1Matrix opts = false → validOptions opts →
  reachable r0 r →
  segmentSizeFits opts (shardSize shards) →
  (∃ r' recovered, reconstruct r shards dataOnly = Ok (r', recovered))
  ↔ length shards = Shards r
    ∧ (∃ size, 0 < size ∧ emptyOr size shards)
    ∧ DataShards r ≤ length (present shards).
Proof.
  intros HNew HC HPar Hopt Hr _.
  destruct (reachable_wellFormed D P opts r0 r HNew Hr) as (Hwf & Ho & Hm).
  destruct (reachable_treeOk D P opts r0 r HNew Hr) as (Htree & Hdepth).
  destruct (New_default_matrix D P opts r0 HNew HC HPar) as (Hsys & Hany).
  apply reachable_fields in Hr as [t0 Hr0].
  assert (Hany' : anyRowsInvertible (DataShards r) (Shards r) (m r)) by (by subst r).
  rewrite <- Ho in Hopt. split.
  - intros (r' & recovered & Hrun).
    destruct (reconstruct_Ok_checks _ _ _ _ _ Hwf Hrun) as (Hlen & Hc & Hp).
    split; [done|]. split; [|done].
    exists (shardSize shards). by apply emptyOr_of_checkShards.
  - intros (Hlen & (size & Hsize & Hemp) & Hp).
    destruct (reconstruct_run r shards size dataOnly)
      as (tree' & recovered & _ & _ & Hrun & _); try done.
    by exists (withTree r tree'), recovered.
Qed.

Lemma reconstruct_succeeds_iff_witness :
  (∃ r' recovered, reconstruct exampleCoder exampleLost false = Ok (r', recovered))
  ↔ length exampleLost = Shards exampleCoder
    ∧ (∃ size, 0 < size ∧ emptyOr size exampleLost)
    ∧ DataShards exampleCoder ≤ length (present exampleLost).
Proof.
  apply (reconstruct_succeeds_iff 2 1 exampleOptions exampleCoder exampleCoder
           exampleLost false).
  - vm_compute. reflexivity.
  - reflexivity.
  - reflexivity.
  - vm_compute. split; discriminate.
  - constructor.
  - split; vm_compute; discriminate.
Defined.

(** * The buffers of the shards that reconstruct rebuilds *)

Lemma rebuilt_buffer size s x :
  0 < size → len s = 0 → length x = size →
  len (setBytes (sizedBuffer size s) x) = size
  ∧ cap (setBytes (sizedBuffer size s) x)
    = (if decide (size ≤ cap s) then cap s else size).
Proof.
  intros Hsize Hlen Hx. unfold sizedBuffer.
  destruct (decide (size ≤ cap s)) as [Hcap|Hcap].
  - rewrite bool_decide_eq_true_2 by done.
    destruct s as [|elems spare]; [unfold cap in Hcap; simpl in Hcap; exfalso; lia|].
    unfold len, cap in *. simpl in *.
    split; [done|]. rewrite length_app, length_drop, Hx. lia.
  - rewrite bool_decide_eq_false_2 by done.
    split; [done|]. unfold make, cap. simpl. by rewrite app_nil_r.
Qed.

(** X18.  With the default matrix, a successful
    Reconstruct or ReconstructData returns an array of the same length in
    which every shard that was present has the bytes, the capacity and the
    nil-ness it had, and so has, for ReconstructData, every parity entry.
    Every other empty shard is rebuilt with the common shard length; it
    keeps its capacity when that suffices, and otherwise has the capacity
    of a new allocation of exactly that length. *)
Theorem reconstruct_buffers D P opts r0 r shards dataOnly r' shards' :
  New D P opts = Ok r0 →
  useCauchy opts = false → usePAR1Matrix opts = false → validOptions opts →
  reachable r0 r →
  reconstruct r shards dataOnly = Ok (r', shards') →
  let size := shardSize shards in
  let same (s' s : slice) :=
    bytes s' = bytes s ∧ cap s' = cap s ∧ isNil s' = isNil s in
  length shards' = length shards
  ∧ ∀ i, i < length shards →
      (len (shards !!! i) ≠ 0 → same (shards' !!! i) (shards !!! i))
      ∧ (len (shards !!! i) = 0 → DataShards r ≤ i → dataOnly = true →
         same (shards' !!! i) (shards !!! i))
      ∧ (len (shards !!! i) = 0 → i < DataShards r ∨ dataOnly = false →
         len (shards' !!! i) = size
         ∧ cap (shards' !!! i)
           = (if decide (size ≤ cap (shards !!! i)) then cap (shards !!! i) else size)).
Proof.
  intros HNew HC HPar Hopt Hr Hrun size same.
  destruct (reachable_wellFormed D P opts r0 r HNew Hr) as (Hwf & Ho & Hm).
  destruct (reachable_treeOk D P opts r0 r HNew Hr) as (Htree & Hdepth).
  destruct (New_default_matrix D P opts r0 HNew HC HPar) as (Hsys & Hany).
  apply reachable_fields in Hr as [t0 Hr0].
  assert (Hany' : anyRowsInvertible (DataShards r) (Shards r) (m r)) by (by subst r).
  rewrite <- Ho in Hopt.
  destruct (reconstruct_Ok_checks _ _ _ _ _ Hwf Hrun) as (Hlen & Hc & Hp).
  destruct (emptyOr_of_checkShards shards Hc) as [Hsize Hemp]. fold size in Hsize, Hemp.
  destruct (reconstruct_run r shards size dataOnly)
    as (tree' & recovered & t & B & Hrun' & Hlen' & _ & _ & _ & Hlook); try done.
  rewrite Hrun in Hrun'. injection Hrun' as -> ->.
  split; [lia|]. intros i Hi. rewrite Hlook by lia.
  split; [|split].
  - intros Hpi. by rewrite decide_True.
  - intros Hz Hge ->. rewrite decide_False by lia. by rewrite decide_False by lia.
  - intros Hz Hwhich. rewrite decide_False by lia.
    destruct (decide (i < DataShards r)) as [Hlt|Hge].
    + apply rebuilt_buffer; [done|done|apply length_codedRow].
    + destruct Hwhich as [?| ->]; [lia|].
      apply rebuilt_buffer; [done|done|apply length_codedRow].
Qed.

Lemma reconstruct_buffers_witness :
  let shards := [mkSlice [] [xaa; xbb; xcc]; exampleEncoded !!! 1; exampleEncoded !!! 2] in
  let shards' := [mkSlice [x01; x02] [xcc]; exampleEncoded !!! 1; exampleEncoded !!! 2] in
  let same (s' s : slice) :=
    bytes s' = bytes s ∧ cap s' = cap s ∧ isNil s' = isNil s in
  length shards' = length shards
  ∧ ∀ i, i < length shards →
      (len (shards !!! i) ≠ 0 → same (shards' !!! i) (shards !!! i))
      ∧ (len (shards !!! i) = 0 → DataShards exampleCoder ≤ i → false = true →
         same (shards' !!! i) (shards !!! i))
      ∧ (len (shards !!! i) = 0 → i < DataShards exampleCoder ∨ false = false →
         len (shards' !!! i) = shardSize shards
         ∧ cap (shards' !!! i)
           = (if decide (shardSize shards ≤ cap (shards !!! i))
              then cap (shards !!! i) else shardSize shards)).
Proof.
  refine (reconstruct_buffers 2 1 exampleOptions exampleCoder exampleCoder
            [mkSlice [] [xaa; xbb; xcc]; exampleEncoded !!! 1; exampleEncoded !!! 2]
            false
            (match reconstruct exampleCoder
                     [mkSlice [] [xaa; xbb; xcc]; exampleEncoded !!! 1;
                      exampleEncoded !!! 2] false
             with Ok p => p.1 | _ => exampleCoder end)
            [mkSlice [x01; x02] [xcc]; exampleEncoded !!! 1; exampleEncoded !!! 2]
            _ _ _ _ _ _).
  - vm_compute. reflexivity.
  - reflexivity.
  - reflexivity.
  - vm_compute. split; discriminate.
  - constructor.
  - vm_compute. reflexivity.
Defined.

(** * Restoring the data only *)

(** X19.  With the default matrix, take an
    array whose parity Encode produced and replace the shards at any at
    most ParityShards indices by empty shards.  ReconstructData succeeds;
    the data shards of its result hold the original data bytes, and the
    parity entries are those it was given, the empty ones still empty. *)
Theorem ReconstructData_restores_data D P opts r0 r shards size encoded E lost :
  New D P opts = Ok r0 →
  useCauchy opts = false → usePAR1Matrix opts = false → validOptions opts →
  reachable r0 r →
  length shards = Shards r → uniform size shards → 0 < size →
  Encode r shards = Ok encoded →
  length E ≤ ParityShards r → erased E encoded lost →
  ∃ r' recovered,
    ReconstructData r lost = Ok (r', recovered)
    ∧ length recovered = Shards r
    ∧ bytes <$> take (DataShards r) recovered = bytes <$> take (DataShards r) shards
    ∧ drop (DataShards r) recovered = drop (DataShards r) lost.
Proof.
  intros HNew HC HP Hopt Hr Hlen Hu Hsize HEnc HE Hlost.
  destruct (reachable_wellFormed D P opts r0 r HNew Hr) as (Hwf & Ho & Hm).
  destruct (reachable_treeOk D P opts r0 r HNew Hr) as (Htree & Hdepth).
  destruct (New_default_matrix D P opts r0 HNew HC HP) as (Hsys & Hany).
  apply reachable_fields in Hr as Hfields. destruct Hfields as [t0 Hr0].
  assert (Hsys' : systematic (DataShards r) (Shards r) (m r)) by (by subst r).
  assert (Hany' : anyRowsInvertible (DataShards r) (Shards r) (m r)) by (by subst r).
  rewrite <- Ho in Hopt. pose proof Hwf as (HD & HPar & HS & _).
  destruct (reconstruct_restores_data r shards encoded size)
    with (lost := lost) (E := E)
    as (tree' & recovered & Hrec & Hlenrec & Hdata & Hparity); try done.
  assert (Hll : length lost = Shards r).
  { destruct Hlost as [-> _]. by apply (length_encoded r shards encoded size). }
  exists (withTree r tree'), recovered. split; [done|]. split; [done|]. split.
  - rewrite (Encode_spec r shards size) in HEnc by done. injection HEnc as <-.
    rewrite <- (take_storeFrom (DataShards r) shards
                  (codedRows (parity r) (dataOf r shards) size)) by lia.
    apply fmap_bytes_eq; [rewrite !length_take, length_storeFrom
                            by (rewrite length_codedRows, length_parity by done; lia);
                          lia|].
    intros i Hi. rewrite length_take in Hi.
    rewrite !lookup_total_take_lt by lia. apply Hdata. lia.
  - apply list_eq_total; [rewrite !length_drop; lia|].
    intros i Hi. rewrite length_drop in Hi.
    rewrite !lookup_total_drop. apply Hparity; lia.
Qed.

Lemma ReconstructData_restores_data_witness :
  ∃ r' recovered,
    ReconstructData exampleCoder exampleLost = Ok (r', recovered)
    ∧ length recovered = Shards exampleCoder
    ∧ bytes <$> take (DataShards exampleCoder) recovered
      = bytes <$> take (DataShards exampleCoder) exampleShards
    ∧ drop (DataShards exampleCoder) recovered
      = drop (DataShards exampleCoder) exampleLost.
Proof.
  apply (ReconstructData_restores_data 2 1 exampleOptions exampleCoder exampleCoder
           exampleShards 2 exampleEncoded [0] exampleLost).
  - vm_compute. reflexivity.
  - reflexivity.
  - reflexivity.
  - vm_compute. split; discriminate.
  - constructor.
  - reflexivity.
  - unfold uniform. repeat (apply Forall_cons; split); try apply Forall_nil;
      reflexivity.
  - lia.
  - vm_compute. reflexivity.
  - vm_compute. lia.
  - split; [reflexivity|]. intros [|[|[|i]]] Hi; vm_compute; reflexivity.
Defined.

(** * From Split to Join *)

(** What [Join] appends when the data shards hold the byte sequences [X]. *)
Lemma Join_of_data r (w : list byte) shards (X : list (list byte)) n :
  DataShards r ≤ length shards →
  bytes <$> take (DataShards r) shards = X →
  Forall (λ x, x ≠ []) X → n ≤ length (concat X) →
  Join r w shards (Z.of_nat n) = Ok (w ++ take n (concat X)).
Proof.
  intros Hlen <- Hne Hn. rewrite Join_buffer; [by rewrite Nat2Z.id|done|..].
  - rewrite Forall_fmap in Hne. eapply Forall_impl; [exact Hne|].
    intros s Hs. simpl in Hs. by destruct s.
  - rewrite totalLen_concat. lia.
Qed.

(** X20.  With the default matrix, non-empty data and segments that
    are computed without overflow ([segmentSizeFits]) for the shard length
    ⌈len(data)/DataShards⌉: Split the data, Encode the shards, replace the
    shards at any at most ParityShards indices by empty shards.  Then
    Reconstruct as well as ReconstructData succeeds, and Join of the result
    with outSize = len(data) appends exactly the bytes of data to the
    buffer. *)
Theorem Split_Encode_Reconstruct_Join D P opts r0 r data E (w : list byte) :
  New D P opts = Ok r0 →
  useCauchy opts = false → usePAR1Matrix opts = false → validOptions opts →
  reachable r0 r →
  len data ≠ 0 → length E ≤ ParityShards r →
  segmentSizeFits opts ((len data + DataShards r - 1) / DataShards r) →
  ∃ shards encoded,
    Split r data = Ok shards
    ∧ Encode r shards = Ok encoded
    ∧ ∀ lost, erased E encoded lost →
        (∃ r' recovered,
           Reconstruct r lost = Ok (r', recovered)
           ∧ Join r' w recovered (Z.of_nat (len data)) = Ok (w ++ bytes data))
        ∧ (∃ r' recovered,
             ReconstructData r lost = Ok (r', recovered)
             ∧ Join r' w recovered (Z.of_nat (len data)) = Ok (w ++ bytes data)).
Proof.
  intros HNew HC HP Hopt Hr Hlen HE _.
  destruct (reachable_wellFormed D P opts r0 r HNew Hr) as (Hwf & Ho & Hm).
  destruct (reachable_treeOk D P opts r0 r HNew Hr) as (Htree & Hdepth).
  destruct (New_default_matrix D P opts r0 HNew HC HP) as (Hsys & Hany).
  apply reachable_fields in Hr as Hfields. destruct Hfields as [t0 Hr0].
  assert (Hsys' : systematic (DataShards r) (Shards r) (m r)) by (by subst r).
  assert (Hany' : anyRowsInvertible (DataShards r) (Shards r) (m r)) by (by subst r).
  rewrite <- Ho in Hopt. pose proof Hwf as (HD & HPar & HS & _).
  rewrite Split_Ok by done.
  remember ((len data + DataShards r - 1) / DataShards r) as p eqn:Ep.
  remember (backing data ++ replicate (Shards r * p - cap data) x00) as B eqn:EB.
  destruct (perShard_bounds (len data) (DataShards r)) as [Hp Hfit]; [lia..|].
  rewrite <- Ep in Hp, Hfit.
  assert (HB : Shards r * p ≤ length B).
  { rewrite EB, length_app, length_replicate. fold (cap data). lia. }
  pose proof (len_le_cap data) as Hcap.
  remember (splitShards (Shards r) p B) as shards eqn:Eshards.
  assert (Hls : length shards = Shards r) by (subst shards; apply length_splitShards).
  assert (Hu : uniform p shards) by (subst shards; by apply len_splitShards).
  destruct (Encode r shards) as [encoded| | |] eqn:HEnc;
    try (rewrite (Encode_spec r shards p) in HEnc by done; done).
  exists shards, encoded. split; [done|]. split; [done|]. intros lost Hlost.
  assert (Htake : take (DataShards r) shards = splitShards (DataShards r) p B)
    by (subst shards; apply take_splitShards; lia).
  assert (HDB : DataShards r * p ≤ length B) by nia.
  assert (Hdatabytes : take (len data) (concat (bytes <$> take (DataShards r) shards))
                       = bytes data).
  { rewrite Htake, concat_splitShards, take_take.
    replace (len data `min` (DataShards r * p)) with (len data) by lia.
    rewrite EB, take_app_le by (fold (cap data); lia).
    rewrite take_backing by done. by apply take_ge. }
  assert (Hnonempty : Forall (λ x : list byte, x ≠ [])
                        (bytes <$> take (DataShards r) shards)).
  { rewrite Forall_fmap. eapply Forall_impl; [apply (uniform_take p), Hu|].
    intros s Hs. simpl in *. unfold len in Hs. destruct (bytes s); [simpl in Hs; lia|done]. }
  assert (Hlong : len data ≤ length (concat (bytes <$> take (DataShards r) shards))).
  { rewrite Htake, concat_splitShards, length_take. lia. }
  assert (Hencdata : take (DataShards r) encoded = take (DataShards r) shards).
  { rewrite (Encode_spec r shards p) in HEnc by done. injection HEnc as <-.
    apply take_storeFrom. lia. }
  split.
  - destruct (reconstruct_restores r shards encoded p)
      with (lost := lost) (E := E)
      as (tree' & recovered & Hrec & Hlenrec & Hbytes); try done.
    exists (withTree r tree'), recovered. split; [done|].
    rewrite (Join_of_data _ w recovered (bytes <$> take (DataShards r) shards));
      [by rewrite Hdatabytes|simpl; lia| |done|done].
    simpl. rewrite <- Hencdata.
    apply fmap_bytes_eq; [rewrite !length_take; rewrite (length_encoded r shards encoded p)
                            by done; lia|].
    intros i Hi. rewrite length_take in Hi.
    rewrite !lookup_total_take_lt by lia. apply Hbytes. lia.
  - destruct (reconstruct_restores_data r shards encoded p)
      with (lost := lost) (E := E)
      as (tree' & recovered & Hrec & Hlenrec & Hdata & _); try done.
    exists (withTree r tree'), recovered. split; [done|].
    rewrite (Join_of_data _ w recovered (bytes <$> take (DataShards r) shards));
      [by rewrite Hdatabytes|simpl; lia| |done|done].
    simpl. rewrite <- Hencdata.
    apply fmap_bytes_eq; [rewrite !length_take; rewrite (length_encoded r shards encoded p)
                            by done; lia|].
    intros i Hi. rewrite length_take in Hi.
    rewrite !lookup_total_take_lt by lia. apply Hdata. lia.
Qed.

Lemma Split_Encode_Reconstruct_Join_witness :
  ∃ shards encoded,
    Split exampleCoder (mkSlice [x01; x02; x03] []) = Ok shards
    ∧ Encode exampleCoder shards = Ok encoded
    ∧ ∀ lost, erased [0] encoded lost →
        (∃ r' recovered,
           Reconstruct exampleCoder lost = Ok (r', recovered)
           ∧ Join r' [] recovered 3 = Ok [x01; x02; x03])
        ∧ (∃ r' recovered,
             ReconstructData exampleCoder lost = Ok (r', recovered)
             ∧ Join r' [] recovered 3 = Ok [x01; x02; x03]).
Proof.
  apply (Split_Encode_Reconstruct_Join 2 1 exampleOptions exampleCoder exampleCoder
           (mkSlice [x01; x02; x03] []) [0] []).
  - vm_compute. reflexivity.
  - reflexivity.
  - reflexivity.
  - vm_compute. split; discriminate.
  - constructor.
  - vm_compute. lia.
  - vm_compute. lia.
  - split; vm_compute; discriminate.
Defined.

(** * Calls that have nothing to compute *)

Lemma present_full shards : Forall (λ s, len s ≠ 0) shards → present shards = shards.
Proof.
  induction 1 as [|s shards Hs _ IH]; [done|].
  unfold present in *. rewrite filter_cons, decide_True by done. by rewrite IH.
Qed.

(** X21.  When every shard is present,
    Reconstruct and ReconstructData return at once: the array and the coder
    are as they were, whatever the shards hold; the parity is not checked.
    ReconstructData does so already when every data shard is present, and
    leaves empty parity shards empty. *)
Theorem reconstruct_nothing_to_do r shards size dataOnly :
  0 < DataShards r → DataShards r ≤ Shards r →
  length shards = Shards r → emptyOr size shards → 0 < size →
  Forall (λ s, len s ≠ 0) shards
  ∨ (dataOnly = true ∧ Forall (λ s, len s ≠ 0) (take (DataShards r) shards)) →
  reconstruct r shards dataOnly = Ok (r, shards).
Proof.
  intros HD HS Hlen Hemp Hsize Hall.
  assert (Hdata : Forall (λ s, len s ≠ 0) (take (DataShards r) shards)).
  { destruct Hall as [Hall|[_ ?]]; [|done]. by apply Forall_take. }
  assert (Hdp : length (present (take (DataShards r) shards)) = DataShards r).
  { rewrite present_full by done. rewrite length_take. lia. }
  assert (Hpos : 0 < length (present shards)).
  { pose proof (present_take_le (DataShards r) shards). lia. }
  unfold reconstruct.
  rewrite bool_decide_eq_false_2 by (intros ?; done).
  rewrite (checkShards_emptyOr size) by done.
  rewrite countPresent_spec by lia.
  rewrite (take_ge shards (Shards r)) by lia.
  rewrite (take_ge (take (DataShards r) shards)) by (rewrite length_take; lia).
  cbv beta iota zeta.
  destruct Hall as [Hall|[-> _]].
  - rewrite present_full by done.
    by rewrite (bool_decide_eq_true_2 _ Hlen).
  - rewrite (bool_decide_eq_true_2 _ Hdp). simpl. by rewrite orb_true_r.
Qed.

Lemma reconstruct_nothing_to_do_witness :
  reconstruct exampleCoder [mkSlice [x01] []; mkSlice [x02] []; mkSlice [x09] []] false
  = Ok (exampleCoder, [mkSlice [x01] []; mkSlice [x02] []; mkSlice [x09] []])
  ∧ reconstruct exampleCoder [mkSlice [x01] []; mkSlice [x02] []; nilSlice] true
    = Ok (exampleCoder, [mkSlice [x01] []; mkSlice [x02] []; nilSlice]).
Proof.
  split.
  - apply (reconstruct_nothing_to_do exampleCoder
             [mkSlice [x01] []; mkSlice [x02] []; mkSlice [x09] []] 1 false).
    + vm_compute. lia.
    + vm_compute. lia.
    + reflexivity.
    + unfold emptyOr. repeat (apply Forall_cons; split); try apply Forall_nil;
        vm_compute; auto.
    + lia.
    + left. repeat (apply Forall_cons; split); try apply Forall_nil;
        vm_compute; lia.
  - apply (reconstruct_nothing_to_do exampleCoder
             [mkSlice [x01] []; mkSlice [x02] []; nilSlice] 1 true).
    + vm_compute. lia.
    + vm_compute. lia.
    + reflexivity.
    + unfold emptyOr. repeat (apply Forall_cons; split); try apply Forall_nil;
        vm_compute; auto.
    + lia.
    + right. split; [reflexivity|].
      repeat (apply Forall_cons; split); try apply Forall_nil; vm_compute; lia.
Defined.

(** * The inversion tree as a cache *)

(** The inverse that a call has used is in the tree for the next call. *)
Lemma decodeMatrix_again r valid invalid tree' ddm :
  decodeMatrix r valid invalid = Ok (tree', ddm) →
  decodeMatrix (withTree r tree') valid invalid = Ok (tree', ddm).
Proof.
  unfold decodeMatrix. cbn [tree withTree m DataShards Shards].
  destruct (GetInvertedMatrix (tree r) invalid) as [cached|] eqn:Hget.
  - intros [= <- <-]. by rewrite Hget.
  - destruct (Invert _) as [B| | |]; try done. rewrite bind_Ok.
    unfold InsertInvertedMatrix. rewrite Hget.
    case_bool_decide; [done|]. rewrite bind_Ok. intros [= <- <-].
    destruct invalid as [|a invalid]; [done|].
    unfold GetInvertedMatrix. cbn [nodes]. by rewrite lookup_insert_eq.
Qed.

(** The inverse that [decodeMatrix] returns is in the tree that it
    returns, under the key of the invalid rows. *)
Lemma decodeMatrix_cached r valid invalid tree' ddm :
  decodeMatrix r valid invalid = Ok (tree', ddm) →
  GetInvertedMatrix tree' invalid = Some ddm.
Proof.
  unfold decodeMatrix.
  destruct (GetInvertedMatrix (tree r) invalid) as [cached|] eqn:Hget.
  - by intros [= <- <-].
  - destruct (Invert _) as [B| | |]; try done. rewrite bind_Ok.
    unfold InsertInvertedMatrix. rewrite Hget.
    case_bool_decide; [done|]. rewrite bind_Ok. intros [= <- <-].
    destruct invalid as [|a invalid]; [done|].
    unfold GetInvertedMatrix. cbn [nodes]. by rewrite lookup_insert_eq.
Qed.

(** X22.  Calling Reconstruct or ReconstructData once
    more on the same input, with the coder as the first call left it,
    gives the same result and leaves the coder as it is.  When the first
    call has rebuilt a shard, the inversion tree of the coder it leaves
    holds, under the key of the missing rows that the scan finds, the
    inverse that decodeMatrix then returns without changing the tree. *)
Theorem reconstruct_again r shards dataOnly r' shards' :
  reconstruct r shards dataOnly = Ok (r', shards') →
  reconstruct r' shards dataOnly = Ok (r', shards')
  ∧ (shards' ≠ shards →
     ∀ sub valid invalid,
       scanRows (DataShards r) shards 0 [] [] [] = (sub, valid, invalid) →
       ∃ ddm, GetInvertedMatrix (tree r') invalid = Some ddm
              ∧ decodeMatrix r' valid invalid = Ok (tree r', ddm)).
Proof.
  intros Hrun. pose proof Hrun as Hrun0. unfold reconstruct in Hrun.
  destruct (bool_decide (length shards ≠ Shards r)) eqn:Hlen; [done|].
  destruct (checkShards shards true) eqn:Hc; [done|].
  destruct (countPresent r shards) as [np dp] eqn:Hcnt.
  destruct (bool_decide (np = Shards r) || dataOnly && bool_decide (dp = DataShards r))
    eqn:Hearly.
  { injection Hrun as <- <-. split; [done|]. by intros []. }
  destruct (bool_decide (np < DataShards r)) eqn:Hnp; [done|].
  destruct (scanRows _ _ _ _ _ _) as [[sub valid] invalid] eqn:Hscan.
  destruct (decodeMatrix r valid invalid) as [[tree' ddm]| | |] eqn:Hdec; try done.
  rewrite bind_Ok in Hrun.
  assert (Hr' : r' = withTree r tree').
  { destruct (recoverShards (withTree r tree') _ (seq 0 _) _ _ shards)
      as [shards1| | |]; try done.
    rewrite bind_Ok in Hrun. destruct dataOnly; [by injection Hrun as <- <-|].
    destruct (recoverShards (withTree r tree') _ (seq _ _) _ _ shards1)
      as [shards2| | |]; try done.
    rewrite bind_Ok in Hrun. by injection Hrun as <- <-. }
  subst r'. split.
  - rewrite <- Hrun0. unfold reconstruct.
    change (countPresent (withTree r tree') shards) with (countPresent r shards).
    cbn [Shards DataShards parity withTree].
    rewrite Hlen, Hc, Hcnt, Hearly, Hnp, Hscan.
    rewrite (decodeMatrix_again _ _ _ _ _ Hdec), Hdec.
    reflexivity.
  - intros _ sub0 valid0 invalid0 [= <- <- <-]. exists ddm.
    split; [exact (decodeMatrix_cached _ _ _ _ _ Hdec)|].
    exact (decodeMatrix_again _ _ _ _ _ Hdec).
Qed.

Lemma reconstruct_again_witness :
  reconstruct exampleDataRecovered.1 exampleLost true = Ok exampleDataRecovered
  ∧ ∃ ddm, GetInvertedMatrix (tree exampleDataRecovered.1) [0] = Some ddm
           ∧ decodeMatrix exampleDataRecovered.1 [1; 2] [0]
             = Ok (tree exampleDataRecovered.1, ddm).
Proof.
  destruct (reconstruct_again exampleCoder exampleLost true
              exampleDataRecovered.1 exampleDataRecovered.2) as [Hsame Htree].
  - vm_compute. reflexivity.
  - split; [exact Hsame|].
    apply (Htree ltac:(vm_compute; discriminate) [[x03; x04]; [x05; x0e]] [1; 2] [0]).
    vm_compute. reflexivity.
Defined.

(** * Reconstruction from any DataShards shards *)

(** The rows of the coding matrix applied to the decoded data give back the
    shards that were decoded. *)
Lemma recoded_row (M B : matrix) D (valid : list nat) (sub : list (list byte))
    size k :
  (∀ v, v ∈ valid → length (M !!! v) = D) →
  length valid = D → length sub = D → length (sub !!! k) = size →
  (∀ d, length d = D → mulVec (pickRows M D valid) (mulVec B d) = d) →
  k < D →
  codedRow (M !!! (valid !!! k)) (codedRows B sub size) size = sub !!! k.
Proof.
  intros Hrows Hvalid Hsub Hsize Hinv Hk.
  apply list_eq_total; [by rewrite length_codedRow|].
  intros j Hj. rewrite length_codedRow in Hj. rewrite lookup_codedRow by done.
  assert (Hcol : column j (codedRows B sub size) = mulVec B (column j sub)).
  { unfold column at 1. unfold codedRows, mulVec. rewrite <- list_fmap_compose.
    apply list_fmap_ext. intros i row _. simpl. by rewrite lookup_codedRow. }
  rewrite Hcol.
  assert (Hrow : dot (M !!! (valid !!! k)) (mulVec B (column j sub))
                 = mulVec (pickRows M D valid) (mulVec B (column j sub)) !!! k).
  { rewrite mulVec_pickRows by done. by rewrite lookup_total_fmap_lt by lia. }
  rewrite Hrow, Hinv by (by rewrite length_column).
  by rewrite lookup_column by lia.
Qed.

Lemma setBytes_bytes s : setBytes s (bytes s) = s.
Proof. by destruct s. Qed.

Lemma lookup_storeFrom_data from shards outs i :
  i < from → from ≤ length shards → storeFrom from shards outs !!! i = shards !!! i.
Proof.
  intros Hi Hf. unfold storeFrom.
  rewrite lookup_total_app_l by (rewrite length_take; lia).
  by rewrite lookup_total_take_lt.
Qed.

Lemma lookup_storeFrom_parity from shards outs i :
  from ≤ i → i < length shards → length outs = length shards - from →
  storeFrom from shards outs !!! i = setBytes (shards !!! i) (outs !!! (i - from)).
Proof.
  intros Hi Hl Hout. unfold storeFrom.
  rewrite lookup_total_app_r by (rewrite length_take; lia).
  rewrite length_take. replace (from `min` length shards) with from by lia.
  rewrite lookup_total_zip_with by (rewrite ?length_drop; lia).
  rewrite lookup_total_drop. by replace (from + (i - from)) with i by lia.
Qed.

Lemma Verify_withTree r t shards : Verify (withTree r t) shards = Verify r shards.
Proof. reflexivity. Qed.

(** An array with exactly [DataShards] present shards is what is left of an
    encoded array after the other shards were erased. *)
Lemma completion r lost size :
  wellFormed r → validOptions (o r) →
  systematic (DataShards r) (Shards r) (m r) →
  anyRowsInvertible (DataShards r) (Shards r) (m r) →
  length lost = Shards r → emptyOr size lost → 0 < size →
  length (present lost) = DataShards r →
  ∃ shards encoded,
    length shards = Shards r ∧ uniform size shards
    ∧ Encode r shards = Ok encoded
    ∧ length (missingIndices lost (Shards r)) = ParityShards r
    ∧ erased (missingIndices lost (Shards r)) encoded lost.
Proof.
  intros Hwf Hopt Hsys Hany Hll Hemp Hsize Hcount.
  pose proof Hwf as (HD & HP & HS & _ & _ & Hrows & _).
  pose proof Hsys as (_ & _ & Htop).
  set (valid := presentIndices lost (Shards r)).
  assert (Hlv : length valid = DataShards r).
  { unfold valid. by rewrite <- Hll, <- present_whole. }
  assert (Hvalid : ∀ v, v ∈ valid ↔ len (lost !!! v) ≠ 0 ∧ v < Shards r).
  { intros v. apply elem_of_presentIndices. }
  assert (Hmiss : length (missingIndices lost (Shards r)) = ParityShards r).
  { pose proof (length_indices lost (Shards r)) as Hsum. fold valid in Hsum. lia. }
  assert (Hlens : ∀ i, i < Shards r → len (lost !!! i) ≠ 0 → len (lost !!! i) = size).
  { intros i Hi Hne. unfold emptyOr in Hemp. rewrite Forall_lookup in Hemp.
    destruct (lookup_lt_is_Some_2 lost i) as [s Hs]; [lia|].
    rewrite (list_lookup_total_correct _ _ _ Hs) in *.
    destruct (Hemp i s Hs); [done|done]. }
  set (A := pickRows (m r) (DataShards r) valid).
  destruct (Invert_nonsingular (DataShards r) A HD) as (B & _ & [HlenB _] & _ & Hinv).
  { by apply pickRows_square. }
  { apply Hany; [apply NoDup_presentIndices|done|]. intros v Hv. by apply Hvalid. }
  set (sub := (λ v, bytes (lost !!! v)) <$> valid).
  assert (Hlsub : length sub = DataShards r) by (unfold sub; by rewrite length_fmap).
  assert (Hsubk : ∀ k, k < DataShards r → sub !!! k = bytes (lost !!! (valid !!! k))).
  { intros k Hk. unfold sub. by rewrite lookup_total_fmap_lt by lia. }
  assert (Hin : ∀ k, k < DataShards r → valid !!! k ∈ valid).
  { intros k Hk. apply list_elem_of_lookup_total_2. lia. }
  set (data := codedRows B sub size).
  assert (Hldata : length data = DataShards r).
  { unfold data. by rewrite length_codedRows. }
  assert (Hrec : ∀ v, v < Shards r → len (lost !!! v) ≠ 0 →
            codedRow (m r !!! v) data size = bytes (lost !!! v)).
  { intros v Hv Hne.
    assert (Hvin : v ∈ valid) by (by apply Hvalid).
    apply list_elem_of_lookup_1 in Hvin as [k Hk].
    pose proof (lookup_lt_Some _ _ _ Hk) as Hklt.
    apply list_lookup_total_correct in Hk. rewrite <- Hk, <- Hsubk by lia.
    apply (recoded_row (m r) B (DataShards r)); try done; try lia.
    - intros w Hw. apply Hrows. by apply Hvalid.
    - rewrite Hsubk by lia. apply Hlens; by apply Hvalid, Hin; lia. }
  set (shards := (λ i, if decide (len (lost !!! i) ≠ 0) then lost !!! i
                       else mkSlice (codedRow (B !!! i) sub size) [])
                 <$> seq 0 (Shards r)).
  assert (Hls : length shards = Shards r).
  { unfold shards. by rewrite length_fmap, length_seq. }
  assert (Hlook : ∀ i, i < Shards r →
            shards !!! i = if decide (len (lost !!! i) ≠ 0) then lost !!! i
                           else mkSlice (codedRow (B !!! i) sub size) []).
  { intros i Hi. unfold shards.
    rewrite lookup_total_fmap_lt by (rewrite length_seq; lia).
    by rewrite lookup_total_seq. }
  assert (Hu : uniform size shards).
  { unfold uniform. apply Forall_lookup. intros i s Hs.
    pose proof (lookup_lt_Some _ _ _ Hs) as Hi. rewrite Hls in Hi.
    apply list_lookup_total_correct in Hs. rewrite <- Hs, Hlook by done.
    case_decide as Hp; [by apply Hlens|].
    unfold len. simpl. by rewrite length_codedRow. }
  assert (Hdata : dataOf r shards = data).
  { apply list_eq_total; [rewrite length_dataOf; lia|].
    intros c Hc. rewrite length_dataOf in Hc by lia.
    rewrite lookup_dataOf, Hlook by lia. unfold data.
    rewrite lookup_codedRows by lia. case_decide as Hp; [|done].
    rewrite <- (Hrec c) by (done || lia). rewrite Htop by done.
    rewrite codedRow_unitVec; try done.
    - unfold data. by rewrite lookup_codedRows by lia.
    - unfold data. by rewrite lookup_codedRows, length_codedRow by lia. }
  set (C := codedRows (parity r) (dataOf r shards) size).
  assert (HlC : length C = length shards - DataShards r).
  { unfold C. rewrite length_codedRows, length_parity by done. lia. }
  exists shards, (storeFrom (DataShards r) shards C).
  split; [done|]. split; [done|]. split; [by apply Encode_spec|].
  split; [done|]. split; [rewrite length_storeFrom; lia|].
  intros i Hi. rewrite length_storeFrom in Hi by done.
  case_decide as HiE.
  { by apply elem_of_missingIndices in HiE as [? _]. }
  assert (Hp : len (lost !!! i) ≠ 0).
  { intros Hz. apply HiE, elem_of_missingIndices. split; [done|lia]. }
  destruct (decide (i < DataShards r)) as [Hlt|Hge].
  - rewrite lookup_storeFrom_data, Hlook by lia. by rewrite decide_True.
  - rewrite lookup_storeFrom_parity, Hlook by lia. rewrite decide_True by done.
    unfold C. rewrite lookup_codedRows by (rewrite length_parity by done; lia).
    rewrite lookup_parity by (done || lia).
    replace (DataShards r + (i - DataShards r)) with i by lia.
    rewrite Hdata, Hrec by (done || lia). by rewrite setBytes_bytes.
Qed.

(** X23.  With the default matrix, any
    DataShards shards of one common non-zero length, at any positions, are
    part of exactly one array that verifies, and Reconstruct returns it
    when the segments for that length are computed without overflow
    ([segmentSizeFits]):
    given an array in which exactly DataShards shards are present, whatever
    they hold, it succeeds, its result holds the given shards and verifies,
    and every array that verifies and holds the given shards has the same
    bytes. *)
Theorem Reconstruct_completes_codeword D P opts r0 r lost size :
  New D P opts = Ok r0 →
  useCauchy opts = false → usePAR1Matrix opts = false → validOptions opts →
  reachable r0 r →
  length lost = Shards r → emptyOr size lost → 0 < size →
  length (present lost) = DataShards r →
  segmentSizeFits opts size →
  ∃ r' recovered,
    Reconstruct r lost = Ok (r', recovered)
    ∧ (∀ i, i < Shards r → len (lost !!! i) ≠ 0 →
            bytes (recovered !!! i) = bytes (lost !!! i))
    ∧ Verify r' recovered = Ok true
    ∧ ∀ other,
        length other = Shards r → uniform size other →
        (∀ i, i < Shards r → len (lost !!! i) ≠ 0 →
              bytes (other !!! i) = bytes (lost !!! i)) →
        Verify r' other = Ok true →
        bytes <$> other = bytes <$> recovered.
Proof.
  intros HNew HC HPar Hopt Hr Hll Hemp Hsize Hcount _.
  destruct (reachable_wellFormed D P opts r0 r HNew Hr) as (Hwf & Ho & Hm).
  destruct (reachable_treeOk D P opts r0 r HNew Hr) as (Htree & Hdepth).
  destruct (New_default_matrix D P opts r0 HNew HC HPar) as (Hsys & Hany).
  apply reachable_fields in Hr as Hfields. destruct Hfields as [t0 Hr0].
  assert (Hsys' : systematic (DataShards r) (Shards r) (m r)) by (by subst r).
  assert (Hany' : anyRowsInvertible (DataShards r) (Shards r) (m r)) by (by subst r).
  rewrite <- Ho in Hopt. clear Hr0 Hsys Hany.
  pose proof Hwf as (HD & HPp & HS & _).
  destruct (completion r lost size)
    as (shards & encoded & Hls & Hu & HEnc & Hmiss & Hlost); try done.
  destruct (reconstruct_restores r shards encoded size)
    with (lost := lost) (E := missingIndices lost (Shards r))
    as (tree' & recovered & Hrec & Hlenrec & Hbytes); try done; [lia|].
  assert (Hlenenc : length encoded = Shards r)
    by (by apply (length_encoded r shards encoded size)).
  assert (Heq : bytes <$> recovered = bytes <$> encoded).
  { apply fmap_bytes_eq; [lia|]. intros i Hi. apply Hbytes. lia. }
  assert (Hkept : ∀ i, i < Shards r → len (lost !!! i) ≠ 0 →
            bytes (recovered !!! i) = bytes (lost !!! i)).
  { intros i Hi Hp. rewrite Hbytes by done. destruct Hlost as [_ Hlost].
    specialize (Hlost i). rewrite Hlenenc in Hlost. specialize (Hlost Hi).
    case_decide as HiE; [|by rewrite Hlost].
    by apply elem_of_missingIndices in HiE as [? _]. }
  assert (Huenc : uniform size encoded).
  { rewrite (Encode_spec r shards size) in HEnc by done. injection HEnc as <-.
    apply uniform_storeFrom; try done; [lia| |].
    - rewrite length_codedRows, length_parity by done. lia.
    - intros i Hi. rewrite length_codedRows in Hi.
      by rewrite lookup_codedRows, length_codedRow. }
  assert (Hurec : uniform size recovered) by (by apply (uniform_bytes size recovered encoded)).
  assert (Hver : Verify r recovered = Ok true).
  { rewrite (Verify_spec r recovered size) by done.
    f_equal. apply bool_decide_eq_true_2. unfold dataOf.
    rewrite fmap_drop, fmap_take, Heq, <- fmap_drop, <- fmap_take.
    rewrite (Encode_spec r shards size) in HEnc by done. injection HEnc as <-.
    rewrite (bytes_storeFrom _ _ _ size); try done; try lia.
    - by rewrite take_storeFrom by lia.
    - rewrite length_codedRows, length_parity by done. lia. }
  exists (withTree r tree'), recovered.
  split; [done|]. split; [done|]. split; [by rewrite Verify_withTree|].
  intros other Hlo Huo Hsame Hvo. rewrite Verify_withTree in Hvo.
  assert (Hdata : dataOf r other = dataOf r recovered).
  { apply (verified_agree r size Hwf Hopt Hsys' Hany' Hsize other recovered
             (presentIndices lost (Shards r))); try done.
    - apply NoDup_presentIndices.
    - by rewrite <- Hcount, <- Hll, <- present_whole.
    - intros v [Hp Hv]%elem_of_presentIndices. split; [done|].
      by rewrite Hsame, Hkept. }
  apply fmap_bytes_eq; [lia|]. intros i Hi.
  rewrite (verified_rows r size Hwf Hopt Hsys' Hsize other i) by (done || lia).
  rewrite (verified_rows r size Hwf Hopt Hsys' Hsize recovered i) by (done || lia).
  by rewrite Hdata.
Qed.

Lemma Reconstruct_completes_codeword_witness :
  ∃ r' recovered,
    Reconstruct exampleCoder [nilSlice; mkSlice [x05; x07] []; mkSlice [x01; x02] []]
    = Ok (r', recovered)
    ∧ (∀ i, i < Shards exampleCoder →
            len ([nilSlice; mkSlice [x05; x07] []; mkSlice [x01; x02] []] !!! i) ≠ 0 →
            bytes (recovered !!! i)
            = bytes ([nilSlice; mkSlice [x05; x07] []; mkSlice [x01; x02] []] !!! i))
    ∧ Verify r' recovered = Ok true
    ∧ ∀ other,
        length other = Shards exampleCoder → uniform 2 other →
        (∀ i, i < Shards exampleCoder →
              len ([nilSlice; mkSlice [x05; x07] []; mkSlice [x01; x02] []] !!! i) ≠ 0 →
              bytes (other !!! i)
              = bytes ([nilSlice; mkSlice [x05; x07] []; mkSlice [x01; x02] []] !!! i)) →
        Verify r' other = Ok true →
        bytes <$> other = bytes <$> recovered.
Proof.
  apply (Reconstruct_completes_codeword 2 1 exampleOptions exampleCoder exampleCoder
           [nilSlice; mkSlice [x05; x07] []; mkSlice [x01; x02] []] 2).
  - vm_compute. reflexivity.
  - reflexivity.
  - reflexivity.
  - vm_compute. split; discriminate.
  - constructor.
  - reflexivity.
  - unfold emptyOr. repeat (apply Forall_cons; split); try apply Forall_nil;
      vm_compute; auto.
  - lia.
  - reflexivity.
  - split; vm_compute; discriminate.
Defined.

(** * Calls that panic *)

Lemma foldl_Panic {A B} (F : result A → B → result A) (l : list B) :
  (∀ b, F Panic b = Panic) → foldl F Panic l = Panic.
Proof. intros HF. induction l as [|b l IH]; [done|]. simpl. by rewrite HF. Qed.




(** The rounds of JoinMulti from [k] on, when more is asked for than the
    stripes hold and the shards have no spare capacity. *)
Lemma joinMultiLoop_past_end (sub N : nat) (ss : list slice) :
  0 < sub → ss ≠ [] → Forall (λ s, len s = N * sub ∧ cap s = N * sub) ss →
  ∀ fuel k (w : list byte) sk wl,
    N - k < fuel → k ≤ N → 0 < wl →
    (N - k) * (length ss * sub) < sk + wl →
    joinMultiLoop fuel ss (Z.of_nat sub) (Z.of_nat (k * sub))
      (w, Z.of_nat sk, Z.of_nat wl)
    = Panic.
Proof.
  intros Hsub Hne Hlen.
  induction fuel as [|fuel IH]; intros k w sk wl Hfuel Hk Hwl Hpast; [lia|].
  cbn [joinMultiLoop]. cbn [snd fst]. rewrite bool_decide_eq_true_2 by lia.
  destruct (decide (k < N)) as [HkN|HkN].
  - assert (Hfit : Forall (λ s, k * sub + sub ≤ len s) ss).
    { eapply Forall_impl; [exact Hlen|]. intros s [Hs _]. simpl in *. rewrite Hs.
      assert (S k * sub ≤ N * sub) by (apply Nat.mul_le_mono_r; lia). lia. }
    rewrite joinMultiRound by done. rewrite bind_Ok.
    pose proof (length_round k sub ss Hfit) as HP.
    set (P := concat ((λ s, stripe sub k (bytes s)) <$> ss)) in *.
    replace (Z.of_nat (k * sub) + Z.of_nat sub)%Z with (Z.of_nat (S k * sub)) by lia.
    assert (Hout : length (take wl (drop sk P)) = wl `min` (length P - sk))
      by (by rewrite length_take, length_drop).
    replace (N - k) with (S (N - S k)) in Hpast by lia.
    rewrite Nat.mul_succ_l in Hpast.
    remember (length ss * sub) as L eqn:EL.
    remember ((N - S k) * L) as R eqn:ER.
    apply IH; lia.
  - assert (k = N) by lia. subst k.
    destruct ss as [|s ss]; [done|]. apply Forall_cons in Hlen as [[Hs Hc] _].
    cbn [foldl]. rewrite bind_Ok.
    assert (Hp : joinMultiShard (Z.of_nat (N * sub)) (Z.of_nat sub) s
                   (w, Z.of_nat sk, Z.of_nat wl) = Panic).
    { unfold joinMultiShard. rewrite bool_decide_eq_false_2 by lia.
      by rewrite bool_decide_eq_true_2 by lia. }
    rewrite Hp. by rewrite foldl_Panic.
Qed.

(** X25.  JoinMulti checks writeLen against
    the bytes the shards hold, but not skip: when the first DataShards
    shards have the length N·subsize and no spare capacity, writeLen ≥ 1
    does not exceed the N·DataShards·subsize bytes they hold but
    skip + writeLen does, JoinMulti panics (slice bounds out of range)
    and returns no error. *)
Theorem JoinMulti_past_end_panics r (w : list byte) shards subsize skip writeLen N :
  0 < DataShards r → DataShards r ≤ length shards → (1 ≤ subsize)%Z → 0 < N →
  (∀ i, i < DataShards r →
        len (shards !!! i) = N * Z.to_nat subsize
        ∧ cap (shards !!! i) = N * Z.to_nat subsize) →
  (0 ≤ skip)%Z → (1 ≤ writeLen)%Z →
  (writeLen ≤ Z.of_nat (N * (DataShards r * Z.to_nat subsize)))%Z →
  (Z.of_nat (N * (DataShards r * Z.to_nat subsize)) < skip + writeLen)%Z →
  JoinMulti r w shards subsize skip writeLen = Panic.
Proof.
  intros HD Hlen Hsub HN Hsz Hskip Hwl Hfits Hpast.
  set (sub := Z.to_nat subsize) in *.
  set (ss := take (DataShards r) shards).
  assert (Hss : Forall (λ s, len s = N * sub ∧ cap s = N * sub) ss).
  { apply Forall_lookup. intros i s Hs. unfold ss in Hs.
    pose proof (lookup_lt_Some _ _ _ Hs) as Hi. rewrite length_take in Hi.
    apply list_lookup_total_correct in Hs as <-.
    rewrite lookup_total_take_lt by lia. apply Hsz. lia. }
  assert (Hss' : Forall (λ s, len s = N * sub) ss).
  { eapply Forall_impl; [exact Hss|]. by intros s [? _]. }
  assert (Hlss : length ss = DataShards r) by (unfold ss; rewrite length_take; lia).
  assert (Hpos : 0 < N * sub) by (unfold sub; nia).
  unfold JoinMulti. rewrite bool_decide_eq_false_2 by lia. fold ss.
  destruct (joinMultiSize_present ss 0 writeLen) as (size' & -> & Hs1 & _).
  { eapply Forall_impl; [exact Hss'|]. intros s Hs. simpl in *. lia. }
  rewrite bind_Ok. rewrite (totalLen_uniform (N * sub)) in Hs1 by done.
  rewrite bool_decide_eq_false_2 by (rewrite Hlss in Hs1; nia).
  assert (H0 : len (ss !!! 0) = N * sub).
  { unfold ss. rewrite lookup_total_take_lt by lia. apply Hsz. lia. }
  rewrite H0.
  pose proof (joinMultiLoop_past_end sub N ss) as Hloop.
  specialize (Hloop ltac:(unfold sub; lia)).
  specialize (Hloop ltac:(intros ->; simpl in Hlss; lia) Hss).
  specialize (Hloop (N * sub + 2) 0 w (Z.to_nat skip) (Z.to_nat writeLen)).
  rewrite !Z2Nat.id in Hloop by lia. fold sub.
  replace subsize with (Z.of_nat sub) by (unfold sub; lia).
  apply Hloop.
  - nia.
  - lia.
  - lia.
  - rewrite Nat.sub_0_r, Hlss. lia.
Qed.

Lemma JoinMulti_past_end_panics_witness :
  JoinMulti exampleCoder ([] : list byte)
    [mkSlice [x01; x02] []; mkSlice [x03; x04] []] 1 3 2 = Panic.
Proof.
  apply (JoinMulti_past_end_panics exampleCoder []
           [mkSlice [x01; x02] []; mkSlice [x03; x04] []] 1 3 2 2).
  - vm_compute. lia.
  - vm_compute. lia.
  - lia.
  - lia.
  - intros [|[|i]] Hi; [split; reflexivity|split; reflexivity|].
    vm_compute in Hi. lia.
  - lia.
  - lia.
  - vm_compute. discriminate.
  - vm_compute. reflexivity.
Defined.
